(** * The UTXO nursery of lnd ([utxonursery.go]): model and properties

    A shallow embedding of the time-locked output incubator.  The
    development follows the source file top to bottom:

    - fixed-width integers and byte strings as Go has them;
    - the [wire] data the nursery handles (outpoints, transactions);
    - [kidOutput] / [babyOutput] and their on-disk codec;
    - the nursery's collaborators ([NurseryConfig]) as state-passing
      operations, with a trace of every call made on them;
    - [createSweepTx], [sweepCsvSpendableOutputsTxn], [graduateClass],
      [sweepGraduatingKinders], [sweepCribOutput], [IncubateOutputs];
    - the properties of those functions. *)

From Stdlib Require Import ZArith Lia List Bool String Ascii.
From Stdlib Require Import Strings.Byte.
From stdpp Require Import base option list gmap.

Import ListNotations.
Local Open Scope Z_scope.

(** ** Fixed-width integers

    Go's [uint16], [uint32], [uint64] and [int64] are carried as [Z];
    every arithmetic operation of the source is followed by the
    reduction the hardware performs. *)

Module Int.

Definition is_u16 (z : Z) : Prop := 0 <= z < 2 ^ 16.
Definition is_u32 (z : Z) : Prop := 0 <= z < 2 ^ 32.
Definition is_u64 (z : Z) : Prop := 0 <= z < 2 ^ 64.
Definition is_i64 (z : Z) : Prop := - 2 ^ 63 <= z < 2 ^ 63.

(** Conversion to an unsigned type keeps the low bits. *)
Definition u16 (z : Z) : Z := z mod 2 ^ 16.
Definition u32 (z : Z) : Z := z mod 2 ^ 32.
Definition u64 (z : Z) : Z := z mod 2 ^ 64.

(** Conversion to [int64] reinterprets the low 64 bits as two's
    complement. *)
Definition i64 (z : Z) : Z := (z + 2 ^ 63) mod 2 ^ 64 - 2 ^ 63.

Definition u32_sub (a b : Z) : Z := u32 (a - b).
Definition u64_add (a b : Z) : Z := u64 (a + b).
Definition u64_mul (a b : Z) : Z := u64 (a * b).
Definition i64_add (a b : Z) : Z := i64 (a + b).
Definition i64_sub (a b : Z) : Z := i64 (a - b).

End Int.

Export Int.

(** ** Bytes and [encoding/binary]'s big-endian byte order *)

Module Bytes.

Definition Z_of_byte (b : byte) : Z := Z.of_N (Byte.to_N b).

(** Go's [byte(v)]: the low eight bits. *)
Definition byte_of_Z (z : Z) : byte :=
  match Byte.of_N (Z.to_N (z mod 256)) with
  | Some b => b
  | None => x00
  end.

(** [binary.BigEndian.PutUintN(buf, v)], returning the bytes written. *)
Definition PutUint16 (v : Z) : list byte :=
  [byte_of_Z (Z.shiftr v 8); byte_of_Z v].

Definition PutUint32 (v : Z) : list byte :=
  [byte_of_Z (Z.shiftr v 24); byte_of_Z (Z.shiftr v 16);
   byte_of_Z (Z.shiftr v 8); byte_of_Z v].

Definition PutUint64 (v : Z) : list byte :=
  [byte_of_Z (Z.shiftr v 56); byte_of_Z (Z.shiftr v 48);
   byte_of_Z (Z.shiftr v 40); byte_of_Z (Z.shiftr v 32);
   byte_of_Z (Z.shiftr v 24); byte_of_Z (Z.shiftr v 16);
   byte_of_Z (Z.shiftr v 8); byte_of_Z v].

(** [b[i]] widened to an integer; a slice that is too short reads as 0
    here (Go panics, and no caller in the nursery passes one). *)
Definition at_ (b : list byte) (i : nat) : Z := Z_of_byte (nth i b x00).

(** [binary.BigEndian.UintN(buf)]. *)
Definition Uint16 (b : list byte) : Z :=
  Z.lor (at_ b 1) (Z.shiftl (at_ b 0) 8).

Definition Uint32 (b : list byte) : Z :=
  Z.lor (Z.lor (Z.lor (at_ b 3) (Z.shiftl (at_ b 2) 8))
               (Z.shiftl (at_ b 1) 16))
        (Z.shiftl (at_ b 0) 24).

Definition Uint64 (b : list byte) : Z :=
  Z.lor (Z.lor (Z.lor (Z.lor (Z.lor (Z.lor (Z.lor
    (at_ b 7)
    (Z.shiftl (at_ b 6) 8))
    (Z.shiftl (at_ b 5) 16))
    (Z.shiftl (at_ b 4) 24))
    (Z.shiftl (at_ b 3) 32))
    (Z.shiftl (at_ b 2) 40))
    (Z.shiftl (at_ b 1) 48))
    (Z.shiftl (at_ b 0) 56).

(** The little-endian counterparts, used by [wire]'s variable length
    integers. *)
Definition PutUint16LE (v : Z) : list byte := rev (PutUint16 v).
Definition PutUint32LE (v : Z) : list byte := rev (PutUint32 v).
Definition PutUint64LE (v : Z) : list byte := rev (PutUint64 v).
Definition Uint16LE (b : list byte) : Z := Uint16 (rev b).
Definition Uint32LE (b : list byte) : Z := Uint32 (rev b).
Definition Uint64LE (b : list byte) : Z := Uint64 (rev b).

(** The spec's wording: the digits of [v] in base 256, most significant
    first, on [n] bytes. *)
Fixpoint big_endian (n : nat) (v : Z) : list byte :=
  match n with
  | O => []
  | S n' => byte_of_Z (v / 256 ^ Z.of_nat n') :: big_endian n' v
  end.

(** The value of a digit string read most significant first. *)
Definition be_value (bs : list byte) : Z :=
  fold_left (fun acc b => acc * 256 + Z_of_byte b) bs 0.

End Bytes.

Export Bytes.

(** ** Errors and the state-and-error monad

    A Go [error] is carried as its message (what [err.Error()] returns).
    A function [f(...) (T, error)] working on some state [S] becomes
    [M S T]: it returns [Ok v] or [Err e] together with the state it
    leaves behind.  [bind] is the ubiquitous
    [if err != nil { return err }]. *)

Definition error := string.

Inductive result (A : Type) : Type :=
| Ok (a : A)
| Err (e : error).
Arguments Ok {A} a.
Arguments Err {A} e.

Definition M (S A : Type) : Type := S -> result A * S.

Definition ret {S A} (a : A) : M S A := fun s => (Ok a, s).

Definition fail {S A} (e : error) : M S A := fun s => (Err e, s).

Definition bind {S A B} (c : M S A) (k : A -> M S B) : M S B :=
  fun s =>
    match c s with
    | (Ok a, s') => k a s'
    | (Err e, s') => (Err e, s')
    end.

(** [err := f(...)] followed by an inspection of [err] instead of an
    immediate return. *)
Definition try_ {S A} (c : M S A) : M S (result A) :=
  fun s => let (r, s') := c s in (Ok r, s').

Declare Scope go_scope.
Delimit Scope go_scope with go.
Notation "x <- c ;; k" := (bind c (fun x => k))
  (at level 100, c at next level, right associativity) : go_scope.
Notation "c ;; k" := (bind c (fun _ => k))
  (at level 100, right associativity) : go_scope.
Local Open Scope go_scope.


(** ** The [wire] data the nursery handles *)

Module wire.

(** [chainhash.Hash], a [[32]byte]. *)
Definition Hash := list byte.

Record OutPoint := mkOutPoint {
  op_Hash : Hash;
  op_Index : Z                      (* uint32 *)
}.

Record TxIn := mkTxIn {
  PreviousOutPoint : OutPoint;
  SignatureScript : list byte;
  Witness : list (list byte);
  Sequence : Z                      (* uint32 *)
}.

Record TxOut := mkTxOut {
  Value : Z;                        (* int64 *)
  PkScript : list byte
}.

Record MsgTx := mkMsgTx {
  Version : Z;                      (* int32 *)
  tx_TxIn : list TxIn;
  tx_TxOut : list TxOut;
  LockTime : Z                      (* uint32 *)
}.

(** [wire.NewMsgTx(version)]. *)
Definition NewMsgTx (version : Z) : MsgTx :=
  {| Version := version; tx_TxIn := []; tx_TxOut := []; LockTime := 0 |}.

(** [msg.AddTxOut(to)] and [msg.AddTxIn(ti)] append. *)
Definition AddTxOut (tx : MsgTx) (to : TxOut) : MsgTx :=
  {| Version := Version tx; tx_TxIn := tx_TxIn tx;
     tx_TxOut := tx_TxOut tx ++ [to]; LockTime := LockTime tx |}.

Definition AddTxIn (tx : MsgTx) (ti : TxIn) : MsgTx :=
  {| Version := Version tx; tx_TxIn := tx_TxIn tx ++ [ti];
     tx_TxOut := tx_TxOut tx; LockTime := LockTime tx |}.

(** [sweepTx.TxIn[idx].Witness = witness]; an index out of range panics
    in Go and leaves the transaction alone here. *)
Definition setWitness (tx : MsgTx) (idx : nat) (w : list (list byte)) : MsgTx :=
  {| Version := Version tx;
     tx_TxIn :=
       match tx_TxIn tx !! idx with
       | Some ti =>
           <[idx := {| PreviousOutPoint := PreviousOutPoint ti;
                       SignatureScript := SignatureScript ti;
                       Witness := w;
                       Sequence := Sequence ti |}]> (tx_TxIn tx)
       | None => tx_TxIn tx
       end;
     tx_TxOut := tx_TxOut tx; LockTime := LockTime tx |}.

Definition wf_Hash (h : Hash) : Prop := length h = 32%nat.

Definition wf_OutPoint (o : OutPoint) : Prop :=
  wf_Hash (op_Hash o) /\ is_u32 (op_Index o).

(** *** Streams: [bytes.Buffer] as writer, [bytes.Reader] as reader *)

Definition Buffer := list byte.
Definition Reader := list byte.

(** [w.Write(p)] on a buffer appends and cannot fail. *)
Definition Write (p : list byte) : M Buffer unit :=
  fun w => (Ok tt, w ++ p).

Definition io_EOF : error := "EOF"%string.
Definition io_ErrUnexpectedEOF : error := "unexpected EOF"%string.

(** Go's [copy(dst, src)], returning the new content of [dst]. *)
Definition copy (dst src : list byte) : list byte :=
  let n := Nat.min (length dst) (length src) in
  take n src ++ drop n dst.

(** [r.Read(p)] on a [bytes.Reader]: at the end of the data it reports
    [io.EOF]; otherwise it copies what is there, at most [len(p)] bytes,
    and reports no error even when that is fewer than [len(p)].  The
    callers below ignore the count, so the tail of [p] then keeps its
    previous content.  Returns the new content of [p]. *)
Definition Read (p : list byte) : M Reader (list byte) :=
  fun r =>
    match r with
    | [] => (Err io_EOF, r)
    | _ => (Ok (copy p r), drop (length p) r)
    end.

(** [io.ReadFull(r, buf)] with [len(buf) = n]: all [n] bytes or an error
    ([io.EOF] when nothing was read, [io.ErrUnexpectedEOF] when the data
    ran out half-way, the reader being drained then). *)
Definition ReadFull (n : nat) : M Reader (list byte) :=
  fun r =>
    if (n =? 0)%nat then (Ok [], r)
    else match r with
         | [] => (Err io_EOF, r)
         | _ => if (length r <? n)%nat then (Err io_ErrUnexpectedEOF, [])
                else (Ok (take n r), drop n r)
         end.

(** [f(io.LimitReader(r, n))]: [f] sees the next [n] bytes of [r] at
    most, and [r] advances by what [f] consumed. *)
Definition LimitReader {A} (n : nat) (f : M Reader A) : M Reader A :=
  fun r =>
    let window := take n r in
    let (res, rest) := f window in
    (res, drop (length window - length rest) r).

(** *** Variable length integers and byte strings ([wire/common.go]) *)

Definition WriteVarInt (val : Z) : M Buffer unit :=
  if val <? 253 then Write [byte_of_Z val]
  else if val <=? 65535 then Write (xfd :: PutUint16LE val)
  else if val <=? 4294967295 then Write (xfe :: PutUint32LE val)
  else Write (xff :: PutUint64LE val).

Definition WriteVarBytes (bytes : list byte) : M Buffer unit :=
  WriteVarInt (Z.of_nat (length bytes)) ;;
  Write bytes.

Definition errNonCanonicalVarInt : error :=
  "ReadVarInt: non-canonical varint"%string.

Definition ReadVarInt : M Reader Z :=
  d <- ReadFull 1 ;;
  let discriminant := at_ d 0 in
  if discriminant =? 255 then
    sv <- ReadFull 8 ;;
    let rv := Uint64LE sv in
    if rv <? 4294967296 then fail errNonCanonicalVarInt else ret rv
  else if discriminant =? 254 then
    sv <- ReadFull 4 ;;
    let rv := Uint32LE sv in
    if rv <? 65536 then fail errNonCanonicalVarInt else ret rv
  else if discriminant =? 253 then
    sv <- ReadFull 2 ;;
    let rv := Uint16LE sv in
    if rv <? 253 then fail errNonCanonicalVarInt else ret rv
  else ret discriminant.

Definition errVarBytesTooLarge : error :=
  "ReadVarBytes: larger than the max allowed size"%string.

Definition ReadVarBytes (maxAllowed : Z) : M Reader (list byte) :=
  count <- ReadVarInt ;;
  if maxAllowed <? count then fail errVarBytesTooLarge
  else ReadFull (Z.to_nat count).

End wire.

Export wire.

(** ** What the nursery uses of package [lnwallet] *)

Module lnwallet.

(** Modelled from the spec: [lnwallet.SignDescriptor] is declared in
    package [lnwallet], outside [utxonursery.go].  The spec calls it an
    opaque bundle handed to the external signer and takes an output's
    amount from it; [Output] is the output being spent and [SignerData]
    stands for everything else. *)
Record SignDescriptor := mkSignDescriptor {
  Output : TxOut;
  SignerData : list byte
}.

(** [lnwallet.OutgoingHtlcResolution], the fields the nursery reads. *)
Record OutgoingHtlcResolution := mkOutgoingHtlcResolution {
  Expiry : Z;                       (* uint32 *)
  SignedTimeoutTx : MsgTx;
  SweepSignDesc : SignDescriptor
}.

(** [lnwallet.ForceCloseSummary], the fields the nursery reads.
    [SelfOutputSignDesc] is a pointer, [None] being [nil]. *)
Record ForceCloseSummary := mkForceCloseSummary {
  ChanPoint : OutPoint;
  SelfOutpoint : OutPoint;
  SelfOutputMaturity : Z;           (* uint32 *)
  SelfOutputSignDesc : option SignDescriptor;
  HtlcResolutions : list OutgoingHtlcResolution
}.

(** The constants of [lnwallet] the sweep builder refers to.  Their
    values are declared in package [lnwallet], outside
    [utxonursery.go], hence a parameter of everything below: the witness
    type tags ([uint16]) and the size constants of the weight
    estimate. *)
Record Consts := mkConsts {
  CommitmentTimeLock : Z;
  HtlcOfferedTimeout : Z;
  BaseSweepTxSize : Z;
  WitnessHeaderSize : Z;
  InputSize : Z;
  ToLocalTimeoutWitnessSize : Z;
  OfferedHtlcTimeoutWitnessSize : Z
}.

End lnwallet.

Export lnwallet.

(** ** Output model *)

(** Modelled from the spec: [breachedOutput] is declared in another
    file of the package.  The fields are the ones [kidOutput.Decode]
    assigns. *)
Record breachedOutput := mkBreachedOutput {
  amt : Z;                          (* btcutil.Amount, an int64 *)
  outpoint : OutPoint;
  witnessType : Z;                  (* lnwallet.WitnessType, a uint16 *)
  signDesc : SignDescriptor
}.

(** Modelled from the spec: [makeBreachedOutput], declared next to
    [breachedOutput].  The amount of the output is that of the sign
    descriptor's output, as the spec has it ("its amount"). *)
Definition makeBreachedOutput (outpoint : OutPoint) (witnessType : Z)
    (signDescriptor : SignDescriptor) : breachedOutput :=
  {| amt := Value (Output signDescriptor);
     outpoint := outpoint;
     witnessType := witnessType;
     signDesc := signDescriptor |}.

Record kidOutput := mkKidOutput {
  kid_breachedOutput : breachedOutput;
  originChanPoint : OutPoint;
  blocksToMaturity : Z;             (* uint32 *)
  confHeight : Z                    (* uint32 *)
}.

Record babyOutput := mkBabyOutput {
  expiry : Z;                       (* uint32 *)
  timeoutTx : MsgTx;
  baby_kidOutput : kidOutput
}.

(** The interface [CsvSpendableOutput] (with the [SpendableOutput] it
    embeds).  [BuildWitness] is left to the signer of the configuration,
    which gets the witness type and the sign descriptor. *)
Class CsvSpendableOutput (T : Type) := {
  Amount : T -> Z;
  OutPointOf : T -> OutPoint;
  WitnessType : T -> Z;
  SignDesc : T -> SignDescriptor;
  ConfHeight : T -> Z;
  SetConfHeight : Z -> T -> T;
  BlocksToMaturity : T -> Z;
  OriginChanPoint : T -> OutPoint
}.

#[global] Instance kidOutput_CsvSpendableOutput : CsvSpendableOutput kidOutput := {
  Amount k := amt (kid_breachedOutput k);
  OutPointOf k := outpoint (kid_breachedOutput k);
  WitnessType k := witnessType (kid_breachedOutput k);
  SignDesc k := signDesc (kid_breachedOutput k);
  ConfHeight k := confHeight k;
  SetConfHeight height k :=
    {| kid_breachedOutput := kid_breachedOutput k;
       originChanPoint := originChanPoint k;
       blocksToMaturity := blocksToMaturity k;
       confHeight := height |};
  BlocksToMaturity k := blocksToMaturity k;
  OriginChanPoint k := originChanPoint k
}.

(** A [babyOutput] embeds its [kidOutput] and so inherits its methods. *)
#[global] Instance babyOutput_CsvSpendableOutput : CsvSpendableOutput babyOutput := {
  Amount b := Amount (baby_kidOutput b);
  OutPointOf b := OutPointOf (baby_kidOutput b);
  WitnessType b := WitnessType (baby_kidOutput b);
  SignDesc b := SignDesc (baby_kidOutput b);
  ConfHeight b := ConfHeight (baby_kidOutput b);
  SetConfHeight height b :=
    {| expiry := expiry b; timeoutTx := timeoutTx b;
       baby_kidOutput := SetConfHeight height (baby_kidOutput b) |};
  BlocksToMaturity b := BlocksToMaturity (baby_kidOutput b);
  OriginChanPoint b := OriginChanPoint (baby_kidOutput b)
}.

Definition makeKidOutput (outpoint originChanPoint : OutPoint)
    (blocksToMaturity : Z) (witnessType : Z)
    (signDescriptor : SignDescriptor) : kidOutput :=
  {| kid_breachedOutput :=
       makeBreachedOutput outpoint witnessType signDescriptor;
     originChanPoint := originChanPoint;
     blocksToMaturity := blocksToMaturity;
     confHeight := 0 |}.

Definition makeBabyOutput (outpoint originChanPoint : OutPoint)
    (blocksToMaturity : Z) (witnessType : Z)
    (htlcResolution : OutgoingHtlcResolution) : babyOutput :=
  let kid := makeKidOutput outpoint originChanPoint blocksToMaturity
               witnessType (SweepSignDesc htlcResolution) in
  {| baby_kidOutput := kid;
     expiry := Expiry htlcResolution;
     timeoutTx := SignedTimeoutTx htlcResolution |}.

(** The ranges the Go types give the fields. *)
Definition wf_kidOutput (k : kidOutput) : Prop :=
  is_i64 (Amount k) /\ wf_OutPoint (OutPointOf k) /\
  wf_OutPoint (OriginChanPoint k) /\ is_u32 (BlocksToMaturity k) /\
  is_u32 (ConfHeight k) /\ is_u16 (WitnessType k).

Definition wf_babyOutput (b : babyOutput) : Prop :=
  is_u32 (expiry b) /\ wf_kidOutput (baby_kidOutput b).

(** ** On-disk encoding *)

Section Codec.

(** The two serializers the nursery borrows: [lnwallet]'s for sign
    descriptors and [wire]'s for transactions.  [sd_encode] and
    [tx_encode] give the bytes the writer emits (or its error); the
    readers fill the value they are handed. *)
Variable sd_encode : SignDescriptor -> result (list byte).
Variable ReadSignDescriptor : SignDescriptor -> M Reader SignDescriptor.
Variable tx_encode : MsgTx -> result (list byte).
Variable Deserialize : MsgTx -> M Reader MsgTx.

Definition WriteSignDescriptor (sd : SignDescriptor) : M Buffer unit :=
  match sd_encode sd with
  | Ok bs => Write bs
  | Err e => fail e
  end.

Definition Serialize (tx : MsgTx) : M Buffer unit :=
  match tx_encode tx with
  | Ok bs => Write bs
  | Err e => fail e
  end.

Definition writeOutpoint (o : OutPoint) : M Buffer unit :=
  WriteVarBytes (op_Hash o) ;;
  Write (PutUint32 (op_Index o)).

(** [readOutpoint(r, o)]: [o] is updated in place, so the hash is copied
    over the one [o] had. *)
Definition readOutpoint (o : OutPoint) : M Reader OutPoint :=
  let scratch := [x00; x00; x00; x00] in
  txid <- ReadVarBytes 32 ;;
  let hash := copy (op_Hash o) txid in
  scratch <- Read scratch ;;
  ret {| op_Hash := hash; op_Index := Uint32 scratch |}.

(** [r.Read(scratch[:n])]: the first [n] bytes of the scratch buffer are
    the target. *)
Definition ReadScratch (n : nat) (scratch : list byte) : M Reader (list byte) :=
  p <- Read (take n scratch) ;;
  ret (p ++ drop n scratch).

Definition kidOutput_Encode (k : kidOutput) : M Buffer unit :=
  Write (PutUint64 (u64 (Amount k))) ;;
  writeOutpoint (OutPointOf k) ;;
  writeOutpoint (OriginChanPoint k) ;;
  Write (PutUint32 (BlocksToMaturity k)) ;;
  Write (PutUint32 (ConfHeight k)) ;;
  Write (PutUint16 (u16 (WitnessType k))) ;;
  WriteSignDescriptor (SignDesc k).

(** [k.Decode(r)]: [k] is the receiver as it was before the call; the
    result is the receiver after a successful call. *)
Definition kidOutput_Decode (k : kidOutput) : M Reader kidOutput :=
  let scratch := [x00; x00; x00; x00; x00; x00; x00; x00] in
  scratch <- Read scratch ;;
  let amt' := i64 (Uint64 scratch) in
  outpoint' <- LimitReader 40 (readOutpoint (OutPointOf k)) ;;
  originChanPoint' <- LimitReader 40 (readOutpoint (OriginChanPoint k)) ;;
  scratch <- ReadScratch 4 scratch ;;
  let blocksToMaturity' := Uint32 (take 4 scratch) in
  scratch <- ReadScratch 4 scratch ;;
  let confHeight' := Uint32 (take 4 scratch) in
  scratch <- ReadScratch 2 scratch ;;
  let witnessType' := Uint16 (take 2 scratch) in
  signDesc' <- ReadSignDescriptor (SignDesc k) ;;
  ret {| kid_breachedOutput :=
           {| amt := amt'; outpoint := outpoint';
              witnessType := witnessType'; signDesc := signDesc' |};
         originChanPoint := originChanPoint';
         blocksToMaturity := blocksToMaturity';
         confHeight := confHeight' |}.

Definition babyOutput_Encode (bo : babyOutput) : M Buffer unit :=
  Write (PutUint32 (expiry bo)) ;;
  Serialize (timeoutTx bo) ;;
  kidOutput_Encode (baby_kidOutput bo).

Definition babyOutput_Decode (bo : babyOutput) : M Reader babyOutput :=
  let scratch := [x00; x00; x00; x00] in
  scratch <- Read scratch ;;
  let expiry' := Uint32 scratch in
  timeoutTx' <- Deserialize (NewMsgTx 0) ;;
  kid' <- kidOutput_Decode (baby_kidOutput bo) ;;
  ret {| expiry := expiry'; timeoutTx := timeoutTx'; baby_kidOutput := kid' |}.

End Codec.

(** ** [strings.Contains] *)

Module strings.

Fixpoint HasPrefix (s prefix : string) {struct prefix} : bool :=
  match prefix with
  | EmptyString => true
  | String c prefix' =>
      match s with
      | EmptyString => false
      | String d s' => if Ascii.eqb c d then HasPrefix s' prefix' else false
      end
  end.

Fixpoint Contains (s substr : string) : bool :=
  HasPrefix s substr ||
  match s with
  | EmptyString => false
  | String _ s' => Contains s' substr
  end.

End strings.

(** ** The nursery and its collaborators *)

(** [chainntnfs.ConfirmationEvent]: the handle of a registered
    confirmation watch. *)
Definition ConfirmationEvent := nat.

(** The goroutines the nursery starts, with their arguments. *)
Inductive Task :=
| waitForPromotion (kid : kidOutput) (confChan : ConfirmationEvent)
| waitForEnrollment (baby : babyOutput) (confChan : ConfirmationEvent)
| waitForGraduation (classHeight : Z) (kgtnOutputs : list kidOutput)
    (confChan : ConfirmationEvent).

(** Which routine asked for a broadcast, and for which class. *)
Inductive Caller :=
| graduating_kinders (classHeight : Z)
| crib_output (classHeight : Z).

(** Every call the nursery makes on a collaborator leaves an event, and
    so does every goroutine it starts.  Of the log lines only the
    warning of [createSweepTx] is kept.  The mutex [mu] is not
    modelled: the functions below run one at a time. *)
Inductive Event :=
| EvFetchClass (height : Z)
| EvLastFinalizedHeight
| EvFinalizeKinder (height : Z) (tx : option MsgTx)
| EvPurgeHeight (height : Z)
| EvIncubate (kid : option kidOutput) (babies : list babyOutput)
| EvMarkChanFullyClosed (chanPoint : OutPoint)
| EvGenSweepScript
| EvEstimateFeePerWeight (numBlocks : Z)
| EvBuildWitness (tx : MsgTx) (idx : nat)
| EvPublishTransaction (by_ : Caller) (tx : MsgTx)
| EvRegisterConfirmationsNtfn (txid : Hash) (numConfs heightHint : Z)
| EvGo (t : Task)
| EvWarnf (witnessType : Z).

(** Library functions of [btcd] the nursery calls: the transaction hash
    and [blockchain.CheckTransactionSanity]. *)
Record Btcd := mkBtcd {
  TxHash : MsgTx -> Hash;
  CheckTransactionSanity : MsgTx -> result unit
}.

Section Nursery.

(** [St] is the state of the nursery store, [Env] that of all other
    collaborators (chain, wallet, notifier, channel database). *)
Context {St Env : Type}.

(** The part of the [NurseryStore] interface used below. *)
Record NurseryStore := mkNurseryStore {
  FetchClass : Z -> M St (option MsgTx * list kidOutput * list babyOutput);
  LastFinalizedHeight : M St Z;
  FinalizeKinder : Z -> option MsgTx -> M St unit;
  PurgeHeight : Z -> M St unit;
  Incubate : option kidOutput -> list babyOutput -> M St unit
}.

Record NurseryConfig := mkNurseryConfig {
  ConfDepth : Z;                    (* uint32 *)
  PruningDepth : Z;                 (* uint32 *)
  (** [DB.MarkChanFullyClosed] *)
  MarkChanFullyClosed : OutPoint -> M Env unit;
  (** [Estimator.EstimateFeePerWeight]; it has no error result *)
  EstimateFeePerWeight : Z -> Env -> Z * Env;
  GenSweepScript : M Env (list byte);
  (** [Notifier.RegisterConfirmationsNtfn] *)
  RegisterConfirmationsNtfn : Hash -> Z -> Z -> M Env ConfirmationEvent;
  PublishTransaction : MsgTx -> M Env unit;
  (** [Signer], through an output's [BuildWitness]: witness type, sign
      descriptor, the transaction as it stands, input index *)
  BuildWitness : Z -> SignDescriptor -> MsgTx -> nat -> M Env (list (list byte));
  Store : NurseryStore
}.

(** [utxoNursery]: the height field of the Go struct, the states of the
    collaborators its configuration points to, and the trace. *)
Record utxoNursery := mkUtxoNursery {
  store : St;
  env : Env;
  currentHeight : Z;
  trace : list Event
}.

Definition emit (ev : Event) : M utxoNursery unit :=
  fun u => (Ok tt, {| store := store u; env := env u;
                      currentHeight := currentHeight u;
                      trace := trace u ++ [ev] |}).

Definition setCurrentHeight (h : Z) : M utxoNursery unit :=
  fun u => (Ok tt, {| store := store u; env := env u;
                      currentHeight := h; trace := trace u |}).

Definition getCurrentHeight : M utxoNursery Z :=
  fun u => (Ok (currentHeight u), u).

(** A call on the store, recorded. *)
Definition onStore {A} (ev : Event) (c : M St A) : M utxoNursery A :=
  fun u =>
    let (r, s') := c (store u) in
    (r, {| store := s'; env := env u; currentHeight := currentHeight u;
           trace := trace u ++ [ev] |}).

(** A call on any other collaborator, recorded. *)
Definition onEnv {A} (ev : Event) (c : M Env A) : M utxoNursery A :=
  fun u =>
    let (r, e') := c (env u) in
    (r, {| store := store u; env := e'; currentHeight := currentHeight u;
           trace := trace u ++ [ev] |}).

Definition go_ (t : Task) : M utxoNursery unit := emit (EvGo t).

(** [p == nil] for a pointer. *)
Definition isNil {A} (p : option A) : bool :=
  match p with
  | None => true
  | Some _ => false
  end.

(** A Go [error] result that is either [nil] or returned. *)
Definition lift {S A} (r : result A) : M S A := fun s => (r, s).

Variable lw : Consts.
Variable btcd : Btcd.
Variable cfg : NurseryConfig.

(** [sweepCsvSpendableOutputsTxn] *)

(** The second loop: one input per output, its sequence the CSV delay. *)
Definition addInputs {T} `{CsvSpendableOutput T} (inputs : list T)
    (sweepTx : MsgTx) : MsgTx :=
  fold_left
    (fun tx input =>
       AddTxIn tx {| PreviousOutPoint := OutPointOf input;
                     SignatureScript := [];
                     Witness := [];
                     Sequence := BlocksToMaturity input |})
    inputs sweepTx.

(** The last loop: [addWitness(i, input)] for each input in turn; the
    signer sees the transaction with the witnesses set so far. *)
Fixpoint addWitnesses {T} `{CsvSpendableOutput T} (idx : nat)
    (inputs : list T) (sweepTx : MsgTx) : M utxoNursery MsgTx :=
  match inputs with
  | [] => ret sweepTx
  | tso :: rest =>
      witness <- onEnv (EvBuildWitness sweepTx idx)
                   (BuildWitness cfg (WitnessType tso) (SignDesc tso)
                      sweepTx idx) ;;
      addWitnesses (S idx) rest (setWitness sweepTx idx witness)
  end.

(** The first loop: [totalSum += o.Amount()] on [btcutil.Amount]. *)
Definition totalSum {T} `{CsvSpendableOutput T} (inputs : list T) : Z :=
  fold_left (fun sum o => i64_add sum (Amount o)) inputs 0.

Definition sweepCsvSpendableOutputsTxn {T} `{CsvSpendableOutput T}
    (txWeight : Z) (inputs : list T) : M utxoNursery MsgTx :=
  pkScript <- onEnv EvGenSweepScript (GenSweepScript cfg) ;;
  let totalSum := totalSum inputs in
  feePerWeight <- onEnv (EvEstimateFeePerWeight 1)
                    (fun e => let (rate, e') := EstimateFeePerWeight cfg 1 e in
                              (Ok rate, e')) ;;
  let txFee := i64 (u64_mul txWeight feePerWeight) in
  let sweepAmt := i64_sub totalSum txFee in
  let sweepTx := NewMsgTx 2 in
  let sweepTx := AddTxOut sweepTx {| PkScript := pkScript; Value := sweepAmt |} in
  let sweepTx := addInputs inputs sweepTx in
  lift (CheckTransactionSanity btcd sweepTx) ;;
  addWitnesses 0 inputs sweepTx.

(** [createSweepTx] *)

(** The [switch] on the witness type: the witness weight, or the
    [default] branch. *)
Definition witnessWeight (wt : Z) : option Z :=
  if wt =? CommitmentTimeLock lw then Some (ToLocalTimeoutWitnessSize lw)
  else if wt =? HtlcOfferedTimeout lw then Some (OfferedHtlcTimeoutWitnessSize lw)
  else None.

(** The loop over [kgtnOutputs], carrying [txWeight] and [inputs]. *)
Fixpoint gatherInputs (kgtnOutputs : list kidOutput) (txWeight : Z)
    (inputs : list kidOutput) : M utxoNursery (Z * list kidOutput) :=
  match kgtnOutputs with
  | [] => ret (txWeight, inputs)
  | input :: rest =>
      match witnessWeight (WitnessType input) with
      | Some witnessWeight =>
          let txWeight := u64_add txWeight (4 * InputSize lw) in
          let txWeight := u64_add txWeight witnessWeight in
          gatherInputs rest txWeight (inputs ++ [input])
      | None =>
          emit (EvWarnf (WitnessType input)) ;;
          gatherInputs rest txWeight inputs
      end
  end.

Definition createSweepTx (kgtnOutputs : list kidOutput) : M utxoNursery MsgTx :=
  let txWeight := 0 in
  let txWeight :=
    u64_add txWeight (4 * BaseSweepTxSize lw + WitnessHeaderSize lw) in
  r <- gatherInputs kgtnOutputs txWeight [] ;;
  sweepCsvSpendableOutputsTxn (fst r) (snd r).

(** The first lines of both broadcasting routines: the call of
    [PublishTransaction] and the test applied to its error,
    [err != nil && !strings.Contains(err.Error(), "TX rejected:")].
    [by_] only labels the event. *)
Definition publish (by_ : Caller) (tx : MsgTx) : M utxoNursery unit :=
  r <- try_ (onEnv (EvPublishTransaction by_ tx) (PublishTransaction cfg tx)) ;;
  match r with
  | Err err =>
      if negb (strings.Contains err "TX rejected:") then fail err else ret tt
  | Ok _ => ret tt
  end.

Definition sweepGraduatingKinders (classHeight : Z) (finalTx : MsgTx)
    (kgtnOutputs : list kidOutput) : M utxoNursery unit :=
  publish (graduating_kinders classHeight) finalTx ;;
  let finalTxID := TxHash btcd finalTx in
  confChan <- onEnv (EvRegisterConfirmationsNtfn finalTxID (ConfDepth cfg) classHeight)
                (RegisterConfirmationsNtfn cfg finalTxID (ConfDepth cfg) classHeight) ;;
  go_ (waitForGraduation classHeight kgtnOutputs confChan).

Definition sweepCribOutput (classHeight : Z) (baby : babyOutput) : M utxoNursery unit :=
  publish (crib_output classHeight) (timeoutTx baby) ;;
  let birthTxID := op_Hash (OutPointOf baby) in
  confChan <- onEnv (EvRegisterConfirmationsNtfn birthTxID (ConfDepth cfg) classHeight)
                (RegisterConfirmationsNtfn cfg birthTxID (ConfDepth cfg) classHeight) ;;
  go_ (waitForEnrollment baby confChan).

(** [for i := range cribOutputs { ... return err ... }] *)
Fixpoint forEach {A} (l : list A) (body : A -> M utxoNursery unit) : M utxoNursery unit :=
  match l with
  | [] => ret tt
  | x :: rest => body x ;; forEach rest body
  end.

Definition graduateClass (classHeight : Z) : M utxoNursery unit :=
  setCurrentHeight classHeight ;;
  class <- onStore (EvFetchClass classHeight)
             (FetchClass (Store cfg) classHeight) ;;
  let finalTx := fst (fst class) in
  let kgtnOutputs := snd (fst class) in
  let cribOutputs := snd class in
  lastFinalizedHeight <- onStore EvLastFinalizedHeight
                           (LastFinalizedHeight (Store cfg)) ;;
  finalTx <-
    (if lastFinalizedHeight <? classHeight then
       finalTx <-
         (if (0 <? length kgtnOutputs)%nat then
            tx <- createSweepTx kgtnOutputs ;; ret (Some tx)
          else ret finalTx) ;;
       onStore (EvFinalizeKinder classHeight finalTx)
         (FinalizeKinder (Store cfg) classHeight finalTx) ;;
       ret finalTx
     else ret finalTx) ;;
  match finalTx with
  | Some finalTx => sweepGraduatingKinders classHeight finalTx kgtnOutputs
  | None => ret tt
  end ;;
  forEach cribOutputs (sweepCribOutput classHeight) ;;
  if PruningDepth cfg >=? classHeight then ret tt
  else
    let heightToPurge := u32_sub classHeight (PruningDepth cfg) in
    onStore (EvPurgeHeight heightToPurge)
      (PurgeHeight (Store cfg) heightToPurge).

(** [IncubateOutputs] *)

(** Step 1, first half: the commitment output, unless the sign
    descriptor is [nil] or the output carries no value. *)
Definition buildCommOutput (closeSummary : ForceCloseSummary) : option kidOutput :=
  match SelfOutputSignDesc closeSummary with
  | Some signDesc =>
      let selfOutput :=
        makeKidOutput (SelfOutpoint closeSummary) (ChanPoint closeSummary)
          (SelfOutputMaturity closeSummary) (CommitmentTimeLock lw) signDesc in
      if 0 <? Amount selfOutput then Some selfOutput else None
  | None => None
  end.

(** Step 1, second half: the loop over the HTLC resolutions. *)
Definition buildHtlcOutputs (closeSummary : ForceCloseSummary) : list babyOutput :=
  fold_left
    (fun htlcOutputs htlcRes =>
       let htlcOutpoint :=
         {| op_Hash := TxHash btcd (SignedTimeoutTx htlcRes); op_Index := 0 |} in
       let htlcOutput :=
         makeBabyOutput htlcOutpoint (ChanPoint closeSummary)
           (SelfOutputMaturity closeSummary) (HtlcOfferedTimeout lw) htlcRes in
       if 0 <? Amount htlcOutput then htlcOutputs ++ [htlcOutput]
       else htlcOutputs)
    (HtlcResolutions closeSummary) [].

Definition IncubateOutputs (closeSummary : ForceCloseSummary) : M utxoNursery unit :=
  let commOutput := buildCommOutput closeSummary in
  let htlcOutputs := buildHtlcOutputs closeSummary in
  if isNil commOutput && (length htlcOutputs =? 0)%nat then
    onEnv (EvMarkChanFullyClosed (ChanPoint closeSummary))
      (MarkChanFullyClosed cfg (ChanPoint closeSummary))
  else
    onStore (EvIncubate commOutput htlcOutputs)
      (Incubate (Store cfg) commOutput htlcOutputs) ;;
    match commOutput with
    | Some commOutput =>
        let commitTxID := op_Hash (OutPointOf commOutput) in
        height <- getCurrentHeight ;;
        confChan <- onEnv (EvRegisterConfirmationsNtfn commitTxID (ConfDepth cfg) height)
                      (RegisterConfirmationsNtfn cfg commitTxID (ConfDepth cfg) height) ;;
        go_ (waitForPromotion commOutput confChan)
    | None => ret tt
    end.

End Nursery.

Arguments NurseryStore : clear implicits.
Arguments NurseryConfig : clear implicits.
Arguments utxoNursery : clear implicits.

(** ** The nursery store, from its contract *)

Module SpecStore.

(** Modelled from the spec: the implementation of [NurseryStore] lives
    in another file of the package.  This is the store of the spec's section
    4.1, reduced to the operations the nursery functions above call:
    per height an optional finalized sweep transaction and the KNDR,
    CRIB and GRAD outputs, the PSCL outputs, the last finalized and the
    last purged height.  [finalizedHeights] remembers which heights
    [FinalizeKinder] has been called for, so that repeated calls are the
    no-ops the spec asks for.  Every operation is one transaction: it
    may fail with a store error and then changes nothing; [faults] is
    the schedule of those failures. *)
Record NurseryState := mkNurseryState {
  fstx : gmap Z MsgTx;
  finalizedHeights : gset Z;
  lfh : Z;
  lph : Z;
  pscl : list kidOutput;
  kndr : gmap Z (list kidOutput);
  crib : gmap Z (list babyOutput);
  grad : gmap Z (list kidOutput);
  faults : list (option error)
}.

Definition empty : NurseryState :=
  {| fstx := ∅; finalizedHeights := ∅; lfh := 0; lph := 0; pscl := [];
     kndr := ∅; crib := ∅; grad := ∅; faults := [] |}.

Definition with_faults (fs : list (option error)) (s : NurseryState) : NurseryState :=
  {| fstx := fstx s; finalizedHeights := finalizedHeights s; lfh := lfh s;
     lph := lph s; pscl := pscl s; kndr := kndr s; crib := crib s;
     grad := grad s; faults := fs |}.

(** One store transaction. *)
Definition atomically {A} (op : NurseryState -> A * NurseryState) : M NurseryState A :=
  fun s =>
    match faults s with
    | Some e :: fs => (Err e, with_faults fs s)
    | None :: fs => let (a, s') := op (with_faults fs s) in (Ok a, s')
    | [] => let (a, s') := op s in (Ok a, s')
    end.

(** Modelled from the spec: [FetchClass(H)] returns the sweep
    transaction previously finalized for [H] (if any), the KNDR outputs
    maturing at [H] and the CRIB outputs expiring at [H]. *)
Definition FetchClass (h : Z) : M NurseryState (option MsgTx * list kidOutput * list babyOutput) :=
  atomically (fun s =>
    ((fstx s !! h, default [] (kndr s !! h), default [] (crib s !! h)), s)).

(** Modelled from the spec: [LastFinalizedHeight()]. *)
Definition LastFinalizedHeight : M NurseryState Z :=
  atomically (fun s => (lfh s, s)).

(** Modelled from the spec: [FinalizeKinder(H, tx?)] writes
    [FSTx(H) := tx] ([nil] allowed) and sets [LFH := max(LFH, H)];
    repeated calls with the same [H] are no-ops after the first. *)
Definition FinalizeKinder (h : Z) (tx : option MsgTx) : M NurseryState unit :=
  atomically (fun s =>
    if decide (h ∈ finalizedHeights s) then (tt, s)
    else
      (tt, {| fstx := match tx with
                      | Some t => <[h := t]> (fstx s)
                      | None => delete h (fstx s)
                      end;
              finalizedHeights := {[h]} ∪ finalizedHeights s;
              lfh := Z.max (lfh s) h;
              lph := lph s; pscl := pscl s; kndr := kndr s; crib := crib s;
              grad := grad s; faults := faults s |})).

(** Modelled from the spec: [PurgeHeight(H)] drops [FSTx(H)] and all
    GRAD entries at [H]; the last purged height follows. *)
Definition PurgeHeight (h : Z) : M NurseryState unit :=
  atomically (fun s =>
    (tt, {| fstx := delete h (fstx s);
            finalizedHeights := finalizedHeights s; lfh := lfh s;
            lph := h; pscl := pscl s; kndr := kndr s; crib := crib s;
            grad := delete h (grad s); faults := faults s |})).

(** Modelled from the spec: [Incubate(comm_output?, htlc_outputs)] puts
    zero or one kid output in PSCL and the baby outputs in CRIB, each
    under its expiry height; all or nothing. *)
Definition Incubate (comm : option kidOutput) (htlcs : list babyOutput) : M NurseryState unit :=
  atomically (fun s =>
    (tt, {| fstx := fstx s; finalizedHeights := finalizedHeights s;
            lfh := lfh s; lph := lph s;
            pscl := pscl s ++ match comm with Some k => [k] | None => [] end;
            kndr := kndr s;
            crib := fold_left
                      (fun m b => <[expiry b := default [] (m !! expiry b) ++ [b]]> m)
                      htlcs (crib s);
            grad := grad s; faults := faults s |})).

Definition ops : NurseryStore NurseryState :=
  mkNurseryStore FetchClass LastFinalizedHeight FinalizeKinder PurgeHeight
    Incubate.

End SpecStore.

(** ** A small concrete world

    Concrete collaborators on which the functions above can be run:
    sample constants, a toy transaction hash, the sanity check as the
    spec describes it, and an environment whose replies are scripted. *)

Module Demo.

Definition lw : Consts :=
  {| CommitmentTimeLock := 0; HtlcOfferedTimeout := 3;
     BaseSweepTxSize := 41; WitnessHeaderSize := 2; InputSize := 41;
     ToLocalTimeoutWitnessSize := 156;
     OfferedHtlcTimeoutWitnessSize := 243 |}.

Definition MaxSatoshi : Z := 2100000000000000.

(** Modelled from the spec: the structural sanity check of the sweep
    builder's step 4 (non-empty, no oversize, non-negative output),
    with the usual ceiling on an output's value. *)
Definition CheckTransactionSanity (tx : MsgTx) : result unit :=
  if (length (tx_TxIn tx) =? 0)%nat then Err "transaction has no inputs"%string
  else if (length (tx_TxOut tx) =? 0)%nat then Err "transaction has no outputs"%string
  else if 1000000 <? 41 * Z.of_nat (length (tx_TxIn tx))
                      + 43 * Z.of_nat (length (tx_TxOut tx))
       then Err "serialized transaction is too big"%string
  else if forallb (fun o => 0 <=? Value o) (tx_TxOut tx) then
    if forallb (fun o => Value o <=? MaxSatoshi) (tx_TxOut tx) then Ok tt
    else Err "transaction output value is too high"%string
  else Err "transaction output has negative value"%string.

(** A toy digest, enough to tell the transactions of the examples
    apart. *)
Definition TxHash (tx : MsgTx) : Hash :=
  big_endian 32
    (Version tx
     + fold_right (fun o acc => 3 * Value o + be_value (PkScript o) + 5 * acc)
         0 (tx_TxOut tx)
     + fold_right (fun i acc => Sequence i + op_Index (PreviousOutPoint i)
                                + be_value (op_Hash (PreviousOutPoint i)) + 7 * acc)
         0 (tx_TxIn tx)).

Definition btcd : Btcd := mkBtcd TxHash CheckTransactionSanity.

(** The collaborators other than the store: a wallet that hands out a
    new script on every call, a fee estimator with a fixed rate, a
    broadcaster and a signer that answer as scripted, a notifier that
    numbers its watches, and the list of channels marked closed. *)
Record World := mkWorld {
  scriptSeed : Z;
  feeRate : Z;
  publishReplies : list (option error);
  signerReplies : list (option error);
  nextWatch : nat;
  closedChannels : list OutPoint
}.

Definition GenSweepScript : M World (list byte) :=
  fun w =>
    (Ok (x00 :: x14 :: repeat (byte_of_Z (scriptSeed w)) 20),
     {| scriptSeed := scriptSeed w + 1; feeRate := feeRate w;
        publishReplies := publishReplies w; signerReplies := signerReplies w;
        nextWatch := nextWatch w; closedChannels := closedChannels w |}).

Definition EstimateFeePerWeight (numBlocks : Z) (w : World) : Z * World :=
  (feeRate w, w).

Definition PublishTransaction (tx : MsgTx) : M World unit :=
  fun w =>
    let w' := {| scriptSeed := scriptSeed w; feeRate := feeRate w;
                 publishReplies := tail (publishReplies w);
                 signerReplies := signerReplies w;
                 nextWatch := nextWatch w;
                 closedChannels := closedChannels w |} in
    match publishReplies w with
    | Some e :: _ => (Err e, w')
    | _ => (Ok tt, w')
    end.

Definition BuildWitness (witnessType : Z) (sd : SignDescriptor) (tx : MsgTx)
    (idx : nat) : M World (list (list byte)) :=
  fun w =>
    let w' := {| scriptSeed := scriptSeed w; feeRate := feeRate w;
                 publishReplies := publishReplies w;
                 signerReplies := tail (signerReplies w);
                 nextWatch := nextWatch w;
                 closedChannels := closedChannels w |} in
    match signerReplies w with
    | Some e :: _ => (Err e, w')
    | _ => (Ok [SignerData sd], w')
    end.

Definition RegisterConfirmationsNtfn (txid : Hash) (numConfs heightHint : Z)
    : M World ConfirmationEvent :=
  fun w =>
    (Ok (nextWatch w),
     {| scriptSeed := scriptSeed w; feeRate := feeRate w;
        publishReplies := publishReplies w; signerReplies := signerReplies w;
        nextWatch := S (nextWatch w); closedChannels := closedChannels w |}).

Definition MarkChanFullyClosed (chanPoint : OutPoint) : M World unit :=
  fun w =>
    (Ok tt,
     {| scriptSeed := scriptSeed w; feeRate := feeRate w;
        publishReplies := publishReplies w; signerReplies := signerReplies w;
        nextWatch := nextWatch w;
        closedChannels := chanPoint :: closedChannels w |}).

Definition cfg (confDepth pruningDepth : Z) : NurseryConfig SpecStore.NurseryState World :=
  mkNurseryConfig confDepth pruningDepth MarkChanFullyClosed
    EstimateFeePerWeight GenSweepScript RegisterConfirmationsNtfn
    PublishTransaction BuildWitness SpecStore.ops.

Definition world (rate : Z) (publish sign : list (option error)) : World :=
  {| scriptSeed := 1; feeRate := rate; publishReplies := publish;
     signerReplies := sign; nextWatch := 0; closedChannels := [] |}.

Definition nursery (s : SpecStore.NurseryState) (w : World)
    : utxoNursery SpecStore.NurseryState World :=
  {| store := s; env := w; currentHeight := 0; trace := [] |}.

(** Sample data. *)
Definition rejected : error := "TX rejected: already have transaction"%string.

Definition hash (n : Z) : Hash := big_endian 32 n.

Definition op (n : Z) (i : Z) : OutPoint := {| op_Hash := hash n; op_Index := i |}.

Definition sd (value : Z) : SignDescriptor :=
  {| Output := {| Value := value; PkScript := [x00; x20] |};
     SignerData := [x2a] |}.

Definition kid (n : Z) (value : Z) (witnessType : Z) (csv conf : Z) : kidOutput :=
  SetConfHeight conf (makeKidOutput (op n 0) (op 99 1) csv witnessType (sd value)).

Definition timeout (n : Z) : MsgTx :=
  {| Version := 2;
     tx_TxIn := [{| PreviousOutPoint := op n 2; SignatureScript := [];
                    Witness := [[x01]]; Sequence := 0 |}];
     tx_TxOut := [{| Value := 7000; PkScript := [x00; x20] |}];
     LockTime := 200 |}.

Definition baby (n : Z) (value : Z) (exp csv : Z) : babyOutput :=
  makeBabyOutput (op n 0) (op 99 1) csv 3
    {| Expiry := exp; SignedTimeoutTx := timeout n; SweepSignDesc := sd value |}.

(** Stores to start from: KNDR outputs maturing at a height, CRIB
    outputs expiring at a height. *)
Definition store_with_kids (h : Z) (kids : list kidOutput) : SpecStore.NurseryState :=
  {| SpecStore.fstx := ∅; SpecStore.finalizedHeights := ∅;
     SpecStore.lfh := 0; SpecStore.lph := 0; SpecStore.pscl := [];
     SpecStore.kndr := {[h := kids]}; SpecStore.crib := ∅;
     SpecStore.grad := ∅; SpecStore.faults := [] |}.

Definition store_with_crib (h : Z) (babies : list babyOutput) : SpecStore.NurseryState :=
  {| SpecStore.fstx := ∅; SpecStore.finalizedHeights := ∅;
     SpecStore.lfh := 0; SpecStore.lph := 0; SpecStore.pscl := [];
     SpecStore.kndr := ∅; SpecStore.crib := {[h := babies]};
     SpecStore.grad := ∅; SpecStore.faults := [] |}.

Definition refused : error := "connection refused"%string.

Definition unsigned : error := "signer unavailable"%string.

(** Four outputs holding [2^64 + 500000] between them, and a single
    ordinary one. *)
Definition huge_kids : list kidOutput :=
  [kid 1 (2 ^ 62) 0 144 100; kid 2 (2 ^ 62) 0 144 100;
   kid 3 (2 ^ 62) 0 144 100; kid 4 (2 ^ 62 + 500000) 0 144 100].

Definition one_kid : list kidOutput := [kid 1 500000 0 144 100].

(** A recognized output next to one of an unknown witness type. *)
Definition mixed_kids : list kidOutput :=
  [kid 1 500000 0 144 100; kid 2 1000 7 144 100].

(** Force-close summaries: one whose self output is dust and whose only
    HTLC carries no value, and the spec's scenario S5 (no self output,
    two HTLCs with a value). *)
Definition htlc (n : Z) (value : Z) (exp : Z) : OutgoingHtlcResolution :=
  {| Expiry := exp; SignedTimeoutTx := timeout n; SweepSignDesc := sd value |}.

Definition dust_summary : ForceCloseSummary :=
  {| ChanPoint := op 99 1; SelfOutpoint := op 1 0; SelfOutputMaturity := 144;
     SelfOutputSignDesc := Some (sd 0); HtlcResolutions := [htlc 7 0 200] |}.

Definition htlc_summary : ForceCloseSummary :=
  {| ChanPoint := op 99 1; SelfOutpoint := op 1 0; SelfOutputMaturity := 144;
     SelfOutputSignDesc := None;
     HtlcResolutions := [htlc 7 5000 200; htlc 8 6000 210] |}.

(** Toy serializers for the sign descriptor and the timeout transaction
    of the examples: each knows one value and writes it as one byte. *)
#[global] Instance byte_eq_decision : EqDecision byte := Byte.byte_eq_dec.

#[global] Instance OutPoint_eq_decision : EqDecision OutPoint.
Proof. solve_decision. Defined.

#[global] Instance TxIn_eq_decision : EqDecision TxIn.
Proof. solve_decision. Defined.

#[global] Instance TxOut_eq_decision : EqDecision TxOut.
Proof. solve_decision. Defined.

#[global] Instance MsgTx_eq_decision : EqDecision MsgTx.
Proof. solve_decision. Defined.

#[global] Instance SignDescriptor_eq_decision : EqDecision SignDescriptor.
Proof. solve_decision. Defined.

Definition unknown : error := "unknown value"%string.

Definition sd_encode (s : SignDescriptor) : result (list byte) :=
  if decide (s = sd 500000) then Ok [x2a] else Err unknown.

Definition ReadSignDescriptor (s0 : SignDescriptor) : M Reader SignDescriptor :=
  (b <- ReadFull 1 ;;
   if decide (b = [x2a]) then ret (sd 500000) else fail unknown)%go.

Definition tx_encode (tx : MsgTx) : result (list byte) :=
  if decide (tx = timeout 7) then Ok [x07] else Err unknown.

Definition Deserialize (tx0 : MsgTx) : M Reader MsgTx :=
  (b <- ReadFull 1 ;;
   if decide (b = [x07]) then ret (timeout 7) else fail unknown)%go.

(** The zero value of [kidOutput] and of [babyOutput]. *)
Definition zero_kid : kidOutput :=
  {| kid_breachedOutput :=
       {| amt := 0; outpoint := {| op_Hash := repeat x00 32; op_Index := 0 |};
          witnessType := 0;
          signDesc := {| Output := {| Value := 0; PkScript := [] |};
                         SignerData := [] |} |};
     originChanPoint := {| op_Hash := repeat x00 32; op_Index := 0 |};
     blocksToMaturity := 0; confHeight := 0 |}.

Definition zero_baby : babyOutput :=
  {| expiry := 0; timeoutTx := NewMsgTx 0; baby_kidOutput := zero_kid |}.

End Demo.

(** ** Vocabulary of the statements *)

(** A broadcaster's "already known" answer. *)
Definition soft_rejection (err : error) : Prop :=
  exists a b, err = (a ++ "TX rejected:" ++ b)%string.

(** The events a run added to the trace. *)
Definition events_since {St Env} (u u' : utxoNursery St Env) : list Event :=
  drop (length (trace u)) (trace u').

Section Vocabulary.

Context {St Env : Type}.
Variable cfg : NurseryConfig St Env.

(** The nursery right after [PublishTransaction(tx)] returned, the
    collaborators being left in [e']. *)
Definition published (u : utxoNursery St Env) (by_ : Caller) (tx : MsgTx)
    (e' : Env) : utxoNursery St Env :=
  {| store := store u; env := e'; currentHeight := currentHeight u;
     trace := trace u ++ [EvPublishTransaction by_ tx] |}.

(** [out] is what a routine returns when, from [u1] on, it registers a
    confirmation watch for [txid] hinted at [h] and, the registration
    having succeeded, starts the goroutine [t]. *)
Definition watches_from (u1 : utxoNursery St Env) (txid : Hash) (h : Z)
    (t : ConfirmationEvent -> Task)
    (out : result unit * utxoNursery St Env) : Prop :=
  match RegisterConfirmationsNtfn cfg txid (ConfDepth cfg) h (env u1) with
  | (Ok confChan, e'') =>
      out = (Ok tt,
             {| store := store u1; env := e''; currentHeight := currentHeight u1;
                trace := trace u1 ++
                  [EvRegisterConfirmationsNtfn txid (ConfDepth cfg) h;
                   EvGo (t confChan)] |})
  | (Err x, e'') =>
      out = (Err x,
             {| store := store u1; env := e''; currentHeight := currentHeight u1;
                trace := trace u1 ++
                  [EvRegisterConfirmationsNtfn txid (ConfDepth cfg) h] |})
  end.

End Vocabulary.

(** Kinds of events. *)
Definition sweep_event (ev : Event) : Prop :=
  match ev with
  | EvGenSweepScript | EvEstimateFeePerWeight _ | EvBuildWitness _ _
  | EvWarnf _ => True
  | _ => False
  end.

Definition broadcast_event (ev : Event) : Prop :=
  match ev with
  | EvPublishTransaction _ _ | EvRegisterConfirmationsNtfn _ _ _ | EvGo _ => True
  | _ => False
  end.

Definition purge_event (ev : Event) : Prop :=
  match ev with
  | EvPurgeHeight _ => True
  | _ => False
  end.

Definition finalize_event (ev : Event) : Prop :=
  match ev with
  | EvFinalizeKinder _ _ => True
  | _ => False
  end.

Section GraduateClassParts.

Context {St Env : Type}.
Variable lw : Consts.
Variable btcd : Btcd.
Variable cfg : NurseryConfig St Env.

(** [graduateClass] up to its last broadcast, and its closing lines on
    pruning; [graduateClass_split] below shows that the function is the
    one followed by the other. *)
Definition graduateClass_sweeps (classHeight : Z) : M (utxoNursery St Env) unit :=
  (setCurrentHeight classHeight ;;
   class <- onStore (EvFetchClass classHeight)
              (FetchClass (Store cfg) classHeight) ;;
   let finalTx := fst (fst class) in
   let kgtnOutputs := snd (fst class) in
   let cribOutputs := snd class in
   lastFinalizedHeight <- onStore EvLastFinalizedHeight
                            (LastFinalizedHeight (Store cfg)) ;;
   finalTx <-
     (if lastFinalizedHeight <? classHeight then
        finalTx <-
          (if (0 <? length kgtnOutputs)%nat then
             tx <- createSweepTx lw btcd cfg kgtnOutputs ;; ret (Some tx)
           else ret finalTx) ;;
        onStore (EvFinalizeKinder classHeight finalTx)
          (FinalizeKinder (Store cfg) classHeight finalTx) ;;
        ret finalTx
      else ret finalTx) ;;
   match finalTx with
   | Some finalTx => sweepGraduatingKinders btcd cfg classHeight finalTx kgtnOutputs
   | None => ret tt
   end ;;
   forEach cribOutputs (sweepCribOutput cfg classHeight))%go.

Definition graduateClass_purge (classHeight : Z) : M (utxoNursery St Env) unit :=
  if PruningDepth cfg >=? classHeight then ret tt
  else
    let heightToPurge := u32_sub classHeight (PruningDepth cfg) in
    onStore (EvPurgeHeight heightToPurge)
      (PurgeHeight (Store cfg) heightToPurge).

End GraduateClassParts.

Section IngressVocabulary.

Variable lw : Consts.
Variable btcd : Btcd.

(** The baby output [IncubateOutputs] builds from one HTLC resolution. *)
Definition babyOf (closeSummary : ForceCloseSummary)
    (htlcRes : OutgoingHtlcResolution) : babyOutput :=
  makeBabyOutput
    {| op_Hash := TxHash btcd (SignedTimeoutTx htlcRes); op_Index := 0 |}
    (ChanPoint closeSummary) (SelfOutputMaturity closeSummary)
    (HtlcOfferedTimeout lw) htlcRes.

(** An HTLC resolution with a strictly positive amount. *)
Definition positive (htlcRes : OutgoingHtlcResolution) : bool :=
  0 <? Value (Output (SweepSignDesc htlcRes)).

(** [b] is shaped after one of the summary's HTLC resolutions: it
    carries the resolution's signed timeout transaction, its outpoint is
    output 0 of that transaction, and its CSV delay is the summary's
    [SelfOutputMaturity]. *)
Definition from_resolution (closeSummary : ForceCloseSummary) (b : babyOutput) : Prop :=
  exists htlcRes,
    In htlcRes (HtlcResolutions closeSummary) /\
    timeoutTx b = SignedTimeoutTx htlcRes /\
    OutPointOf b = {| op_Hash := TxHash btcd (SignedTimeoutTx htlcRes);
                      op_Index := 0 |} /\
    BlocksToMaturity b = SelfOutputMaturity closeSummary.

End IngressVocabulary.

(** ** Vocabulary of the sweep builder's statements *)

Definition sumZ (l : list Z) : Z := fold_right Z.add 0 l.

(** The sum of the amounts of a list of outputs, as a number. *)
Definition amounts {T} `{CsvSpendableOutput T} (inputs : list T) : Z :=
  sumZ (map Amount inputs).

(** Input [ti] spends output [o] under its CSV delay. *)
Definition spends {T} `{CsvSpendableOutput T} (ti : TxIn) (o : T) : Prop :=
  PreviousOutPoint ti = OutPointOf o /\ Sequence ti = BlocksToMaturity o.

Section SweepVocabulary.

Variable lw : Consts.

(** One of the two witness types the sweep builder knows. *)
Definition recognized (k : kidOutput) : bool :=
  (WitnessType k =? CommitmentTimeLock lw)
  || (WitnessType k =? HtlcOfferedTimeout lw).

(** The spec's [witness_weight] table. *)
Definition witness_weight (wt : Z) : Z :=
  if wt =? CommitmentTimeLock lw then ToLocalTimeoutWitnessSize lw
  else if wt =? HtlcOfferedTimeout lw then OfferedHtlcTimeoutWitnessSize lw
  else 0.

(** The spec's weight formula for a list of accepted inputs:
    [4 * base_tx_size + witness_header + sum (4 * input_size + witness_weight[type])]. *)
Definition weightEstimate (accepted : list kidOutput) : Z :=
  4 * BaseSweepTxSize lw + WitnessHeaderSize lw
  + sumZ (map (fun k => 4 * InputSize lw + witness_weight (WitnessType k))
            accepted).

(** The warnings logged for the outputs left out. *)
Definition warnings (kgtnOutputs : list kidOutput) : list Event :=
  map (fun k => EvWarnf (WitnessType k))
    (List.filter (fun k => negb (recognized k)) kgtnOutputs).

End SweepVocabulary.

(** The nursery with some more events in its trace. *)
Definition logged {St Env} (u : utxoNursery St Env) (evs : list Event) : utxoNursery St Env :=
  {| store := store u; env := env u; currentHeight := currentHeight u;
     trace := trace u ++ evs |}.

(** Two nursery states that differ in their traces at most. *)
Definition same_but_trace {St Env} (u v : utxoNursery St Env) : Prop :=
  store u = store v /\ env u = env v /\ currentHeight u = currentHeight v.

(** A computation whose result and effects do not depend on the trace. *)
Definition trace_blind {St Env A} (c : M (utxoNursery St Env) A) : Prop :=
  forall u v, same_but_trace u v ->
    fst (c u) = fst (c v) /\ same_but_trace (snd (c u)) (snd (c v)).

(** The transaction a run returned ([NewMsgTx 0] standing for none). *)
Definition returned {S} (out : result MsgTx * S) : MsgTx :=
  match fst out with
  | Ok tx => tx
  | Err _ => NewMsgTx 0
  end.

(** ** The record layout of the spec's section 6.1

    All multibyte integers big-endian; an outpoint is its txid prefixed
    by its length (one byte for a 32 byte hash) and its 4 byte index. *)

Definition layout_outpoint (o : OutPoint) : list byte :=
  byte_of_Z (Z.of_nat (length (op_Hash o))) :: op_Hash o
  ++ big_endian 4 (op_Index o).

(** A kid output, [sd] being the bytes of its sign descriptor. *)
Definition layout_kid (k : kidOutput) (sd : list byte) : list byte :=
  big_endian 8 (u64 (Amount k))
  ++ layout_outpoint (OutPointOf k)
  ++ layout_outpoint (OriginChanPoint k)
  ++ big_endian 4 (BlocksToMaturity k)
  ++ big_endian 4 (ConfHeight k)
  ++ big_endian 2 (WitnessType k)
  ++ sd.

(** A baby output, [tx] being the bytes of its timeout transaction. *)
Definition layout_baby (b : babyOutput) (tx sd : list byte) : list byte :=
  big_endian 4 (expiry b) ++ tx ++ layout_kid (baby_kidOutput b) sd.

(** The receiver of a [Decode] holds two hashes, 32 bytes each. *)
Definition wf_receiver (k : kidOutput) : Prop :=
  wf_Hash (op_Hash (OutPointOf k)) /\ wf_Hash (op_Hash (OriginChanPoint k)).

(** ** Vocabulary of the single-txid statement *)

(** [graduateClass], step by step: the finalization of the class and
    the broadcast of its sweep ([graduateClass_steps] below shows that
    the function is the chain of these). *)
Section GraduateClassSteps.

Context {St Env : Type}.
Variable lw : Consts.
Variable btcd : Btcd.
Variable cfg : NurseryConfig St Env.

Definition finalizeStep (classHeight : Z) (finalTx : option MsgTx)
    (kgtnOutputs : list kidOutput) (lastFinalizedHeight : Z)
    : M (utxoNursery St Env) (option MsgTx) :=
  (if lastFinalizedHeight <? classHeight then
     finalTx <-
       (if (0 <? length kgtnOutputs)%nat then
          tx <- createSweepTx lw btcd cfg kgtnOutputs ;; ret (Some tx)
        else ret finalTx) ;;
     onStore (EvFinalizeKinder classHeight finalTx)
       (FinalizeKinder (Store cfg) classHeight finalTx) ;;
     ret finalTx
   else ret finalTx)%go.

Definition sweepStep (classHeight : Z) (finalTx : option MsgTx)
    (kgtnOutputs : list kidOutput) : M (utxoNursery St Env) unit :=
  match finalTx with
  | Some finalTx => sweepGraduatingKinders btcd cfg classHeight finalTx kgtnOutputs
  | None => ret tt
  end.

End GraduateClassSteps.

(** The trace shows a broadcast of [tx] as the sweep of class [h]. *)
Definition sweep_broadcast (tr : list Event) (h : Z) (tx : MsgTx) : Prop :=
  In (EvPublishTransaction (graduating_kinders h) tx) tr.

(** A sweep broadcast, if [ev] is one, is of the transaction the store
    holds for its class. *)
Definition justified (s : SpecStore.NurseryState) (ev : Event) : Prop :=
  forall h tx, ev = EvPublishTransaction (graduating_kinders h) tx ->
    SpecStore.fstx s !! h = Some tx.

(** A finalized sweep transaction belongs to a finalized height, and the
    finalized heights are at most the last one. *)
Definition store_ok (s : SpecStore.NurseryState) : Prop :=
  forall h, (is_Some (SpecStore.fstx s !! h) -> h ∈ SpecStore.finalizedHeights s) /\
            (h ∈ SpecStore.finalizedHeights s -> h <= SpecStore.lfh s).

(** What every store operation other than [FinalizeKinder] and
    [PurgeHeight] leaves alone. *)
Definition same_finalization (s s' : SpecStore.NurseryState) : Prop :=
  SpecStore.fstx s' = SpecStore.fstx s /\
  SpecStore.finalizedHeights s' = SpecStore.finalizedHeights s /\
  SpecStore.lfh s' = SpecStore.lfh s.

Section SingleTxidVocabulary.

Context {Env : Type}.
Variable lw : Consts.
Variable btcd : Btcd.
Variable cfg : NurseryConfig SpecStore.NurseryState Env.

(** The nursery states a run can be in: it starts on a consistent store
    with an empty trace; [graduateClass] is called for any height, any
    number of times; in between, anything else may happen (the
    confirmation reactors and [IncubateOutputs] move outputs, the
    collaborators change, the node restarts) as long as the finalized
    transactions and heights of the store are left alone.  The trace
    runs through. *)
Inductive reachable : utxoNursery SpecStore.NurseryState Env -> Prop :=
| reach_start s e h :
    store_ok s ->
    reachable {| store := s; env := e; currentHeight := h; trace := [] |}
| reach_graduateClass u classHeight :
    reachable u ->
    reachable (snd (graduateClass lw btcd cfg classHeight u))
| reach_elsewhere u s' e' h' :
    reachable u ->
    same_finalization (store u) s' ->
    reachable {| store := s'; env := e'; currentHeight := h'; trace := trace u |}.

(** The invariant behind the single txid: whatever was broadcast as the
    sweep of a class was broadcast for a finalized height, is the only
    transaction so broadcast for it, and is the one the store holds for
    it as long as it holds one. *)
Definition pinned (u : utxoNursery SpecStore.NurseryState Env) : Prop :=
  store_ok (store u) /\
  (forall h tx, sweep_broadcast (trace u) h tx ->
     h ∈ SpecStore.finalizedHeights (store u)) /\
  (forall h tx t, sweep_broadcast (trace u) h tx ->
     SpecStore.fstx (store u) !! h = Some t -> t = tx) /\
  (forall h tx tx', sweep_broadcast (trace u) h tx ->
     sweep_broadcast (trace u) h tx' -> tx = tx').

End SingleTxidVocabulary.

(** Hoare triples on the state-and-error monad: from a state in [P], a
    run of [c] ends with a result and a state in [Q]. *)
Definition hoare {S A} (P : S -> Prop) (c : M S A) (Q : result A -> S -> Prop) : Prop :=
  forall s r s', P s -> c s = (r, s') -> Q r s'.

(** What [graduateClass(h)], started on the store [s0], may add to the
    trace: it builds a sweep and calls [FinalizeKinder], for [h], only
    if [h] is above the last finalized height; otherwise the only sweep
    it may broadcast is the transaction [s0] holds for [h]. *)
Definition class_event (s0 : SpecStore.NurseryState) (h : Z) (ev : Event) : Prop :=
  (finalize_event ev \/ sweep_event ev -> SpecStore.lfh s0 < h) /\
  (forall h' tx, ev = EvFinalizeKinder h' tx -> h' = h) /\
  (h <= SpecStore.lfh s0 ->
   forall h' tx, ev = EvPublishTransaction (graduating_kinders h') tx ->
     h' = h /\ SpecStore.fstx s0 !! h = Some tx).

(** The transactions a trace shows as broadcast for the sweep of class
    [h], in order. *)
Definition sweeps_of (tr : list Event) (h : Z) : list MsgTx :=
  flat_map
    (fun ev =>
       match ev with
       | EvPublishTransaction (graduating_kinders h') tx =>
           if h' =? h then [tx] else []
       | _ => []
       end)
    tr.

(** ** Frames

    A preorder [R] on nursery states is respected by a computation when
    every run of it relates the state before to the state after.  Used
    with "the trace grew by events satisfying [P]" and with "the store
    was not touched". *)

Definition respects {St Env A} (R : utxoNursery St Env -> utxoNursery St Env -> Prop)
    (c : M (utxoNursery St Env) A) : Prop :=
  forall u r u', c u = (r, u') -> R u u'.

Definition grows {St Env} (P : Event -> Prop) (u u' : utxoNursery St Env) : Prop :=
  exists evs, trace u' = trace u ++ evs /\ Forall P evs.

Definition same_store {St Env} (u u' : utxoNursery St Env) : Prop :=
  store u' = store u.

(** ** Transaction outputs on disk *)

(** [writeTxOut(w, txo)] *)
Definition writeTxOut (txo : TxOut) : M Buffer unit :=
  let scratch := PutUint64 (u64 (Value txo)) in
  Write scratch ;;
  WriteVarBytes (PkScript txo).

(** [readTxOut(r, txo)]: [txo] is updated in place; the result is [txo]
    after a successful call. *)
Definition readTxOut (txo : TxOut) : M Reader TxOut :=
  let scratch := [x00; x00; x00; x00; x00; x00; x00; x00] in
  scratch <- Read scratch ;;
  let value := i64 (Uint64 scratch) in
  pkScript <- ReadVarBytes 80 ;;
  ret {| Value := value; PkScript := pkScript |}.

(** The bytes [wire.WriteVarInt] writes for a count. *)
Definition varint (n : Z) : list byte := snd (WriteVarInt n []).

(** A byte string behind its length, as [wire.WriteVarBytes] writes it. *)
Definition varbytes (bs : list byte) : list byte :=
  varint (Z.of_nat (length bs)) ++ bs.

(** Two nursery states with the same current height. *)
Definition same_height {St Env} (u u' : utxoNursery St Env) : Prop :=
  currentHeight u' = currentHeight u.

(** ** Start-up, the block loop and the confirmation reactors

    The functions of [utxonursery.go] around the ones above: [Start]
    and [Stop], the replay of missed heights, the [incubator] loop and
    the three goroutines that wait for a confirmation. *)

Module utxn.

(** [ErrContractNotFound], an error value compared by identity in the
    source and by its message here. *)
Definition ErrContractNotFound : error := "unable to locate contract"%string.

(** [chainntnfs.TxConfirmation]: the field the reactors read. *)
Record TxConfirmation := mkTxConfirmation {
  BlockHeight : Z                   (* uint32 *)
}.

(** [chainntnfs.BlockEpoch]: the field the incubator reads. *)
Record BlockEpoch := mkBlockEpoch {
  epoch_Height : Z                  (* int32 *)
}.

(** [chainntnfs.BlockEpochEvent]: the handle of a block subscription. *)
Definition BlockEpochEvent := nat.

(** [channeldb.ChannelCloseSummary]: the field [Start] reads. *)
Record ChannelCloseSummary := mkChannelCloseSummary {
  closed_ChanPoint : OutPoint
}.

(** What a [select] on a channel and on [u.quit] came back with: a
    value of the channel ([ok] true), the closing of the channel ([ok]
    false), or the case [<-u.quit]. *)
Inductive Selected (A : Type) : Type :=
| Received (a : A)
| ChannelClosed
| QuitClosed.
Arguments Received {A} a.
Arguments ChannelClosed {A}.
Arguments QuitClosed {A}.

(** A function run on a bounded input: it returned, or it is still
    running (looping, or blocked in a [select]) when the bound is
    reached. *)
Inductive progress (A : Type) : Type :=
| Returned (a : A)
| StillRunning.
Arguments Returned {A} a.
Arguments StillRunning {A}.

(** What the functions below do beyond the events of the functions
    above: the other calls on the store, on the chain, on the channel
    database and on the notifier, the start of the incubator, and the
    closing of [u.quit] and of a block subscription. *)
Inductive Step :=
| Did (ev : Event)
| StepFetchPreschools
| StepLastPurgedHeight
| StepCribToKinder (baby : babyOutput)
| StepPreschoolToKinder (kid : kidOutput)
| StepGraduateKinder (classHeight : Z) (kgtnOutputs : list kidOutput)
| StepTryFinalizeClass (classHeight : Z)
| StepIsMatureChannel (chanPoint : OutPoint)
| StepRemoveChannel (chanPoint : OutPoint)
| StepGetBestBlock
| StepFetchClosedChannels (pendingOnly : bool)
| StepRegisterBlockEpochNtfn
| StepGoIncubator (newBlockChan : BlockEpochEvent)
| StepCancel (newBlockChan : BlockEpochEvent)
| StepCloseQuit.

(** A run-time panic.  It unwinds through the callers the way a
    returned error does, nothing in the file recovers from one, and so
    it travels as an error whose message starts with ["panic: "]. *)
Definition panic {S A} (msg : string) : M S A :=
  fail ("panic: " ++ msg)%string.

(** [for _, x := range l { if err := body(x); err != nil { return err } }] *)
Fixpoint range {S A} (l : list A) (body : A -> M S unit) : M S unit :=
  match l with
  | [] => ret tt
  | x :: rest => body x ;; range rest body
  end.

(** In a goroutine: [if err := f(); err != nil { log; return }].  What
    follows runs only if [f] succeeded, and nothing is returned either
    way. *)
Definition orReturn {S A} (c : M S A) (k : A -> M S unit) : M S unit :=
  r <- try_ c ;;
  match r with
  | Ok a => k a
  | Err _ => ret tt
  end.

Section Rest.

Context {St Env : Type}.

(** The methods of [NurseryStore] used below and not above. *)
Record NurseryStoreRest := mkNurseryStoreRest {
  FetchPreschools : M St (list kidOutput);
  LastPurgedHeight : M St Z;
  CribToKinder : babyOutput -> M St unit;
  PreschoolToKinder : kidOutput -> M St unit;
  GraduateKinder : Z -> list kidOutput -> M St unit;
  TryFinalizeClass : Z -> M St unit;
  IsMatureChannel : OutPoint -> M St bool;
  RemoveChannel : OutPoint -> M St unit
}.

(** The fields of [NurseryConfig] used below and not above. *)
Record NurseryConfigRest := mkNurseryConfigRest {
  (** [ChainIO.GetBestBlock]: the hash and the height, an [int32] *)
  GetBestBlock : M Env (Hash * Z);
  (** [DB.FetchClosedChannels(pendingOnly)] *)
  FetchClosedChannels : bool -> M Env (list ChannelCloseSummary);
  (** [Notifier.RegisterBlockEpochNtfn] *)
  RegisterBlockEpochNtfn : M Env BlockEpochEvent;
  StoreRest : NurseryStoreRest
}.

(** [utxoNursery] with the fields the functions above do not touch:
    [started], [stopped] and the channel [quit] ([true] once closed).
    [this] is the part the functions above work on, and [journal] the
    record of everything done, their events included.  The wait group is
    left out: it only counts the goroutines, which show in the journal
    when started. *)
Record Nursery := mkNursery {
  started : Z;                      (* uint32 *)
  stopped : Z;                      (* uint32 *)
  quit : bool;
  this : utxoNursery St Env;
  journal : list Step
}.

(** A function of the first part, run from here: its events go to the
    journal. *)
Definition core {A} (c : M (utxoNursery St Env) A) : M Nursery A :=
  fun n =>
    let (r, u') := c (this n) in
    (r, {| started := started n; stopped := stopped n; quit := quit n;
           this := u';
           journal := journal n ++ map Did (events_since (this n) u') |}).

(** A call on the store, recorded. *)
Definition viaStore {A} (st : Step) (c : M St A) : M Nursery A :=
  fun n =>
    let (r, s') := c (store (this n)) in
    (r, {| started := started n; stopped := stopped n; quit := quit n;
           this := {| store := s'; env := env (this n);
                      currentHeight := currentHeight (this n);
                      trace := trace (this n) |};
           journal := journal n ++ [st] |}).

(** A call on another collaborator, recorded. *)
Definition viaEnv {A} (st : Step) (c : M Env A) : M Nursery A :=
  fun n =>
    let (r, e') := c (env (this n)) in
    (r, {| started := started n; stopped := stopped n; quit := quit n;
           this := {| store := store (this n); env := e';
                      currentHeight := currentHeight (this n);
                      trace := trace (this n) |};
           journal := journal n ++ [st] |}).

Definition record (st : Step) : M Nursery unit :=
  fun n =>
    (Ok tt, {| started := started n; stopped := stopped n; quit := quit n;
               this := this n; journal := journal n ++ [st] |}).

(** [close(u.quit)]; closing a closed channel panics. *)
Definition closeQuit : M Nursery unit :=
  fun n =>
    if quit n then panic "close of closed channel" n
    else (Ok tt, {| started := started n; stopped := stopped n; quit := true;
                    this := this n; journal := journal n ++ [StepCloseQuit] |}).

(** [atomic.CompareAndSwapUint32(&u.started, 0, 1)] and the same on
    [u.stopped]: whether the swap took place. *)
Definition swapStarted : Nursery -> bool * Nursery :=
  fun n =>
    if started n =? 0
    then (true, {| started := 1; stopped := stopped n; quit := quit n;
                   this := this n; journal := journal n |})
    else (false, n).

Definition swapStopped : Nursery -> bool * Nursery :=
  fun n =>
    if stopped n =? 0
    then (true, {| started := started n; stopped := 1; quit := quit n;
                   this := this n; journal := journal n |})
    else (false, n).

(** During start-up: [if err := f(); err != nil { close(u.quit); return err }]. *)
Definition orClose {A} (c : M Nursery A) : M Nursery A :=
  r <- try_ c ;;
  match r with
  | Ok a => ret a
  | Err err => closeQuit ;; fail err
  end.

Variable lw : Consts.
Variable btcd : Btcd.
Variable cfg : NurseryConfig St Env.
Variable more : NurseryConfigRest.

(** [closeAndRemoveIfMature] *)
Definition closeAndRemoveIfMature (chanPoint : OutPoint) : M Nursery unit :=
  r <- try_ (viaStore (StepIsMatureChannel chanPoint)
               (IsMatureChannel (StoreRest more) chanPoint)) ;;
  match r with
  | Err err =>
      if String.eqb err ErrContractNotFound then ret tt else fail err
  | Ok isMature =>
      if negb isMature then ret tt
      else
        core (onEnv (EvMarkChanFullyClosed chanPoint)
                (MarkChanFullyClosed cfg chanPoint)) ;;
        viaStore (StepRemoveChannel chanPoint)
          (RemoveChannel (StoreRest more) chanPoint)
  end.

(** [reloadPreschool] *)
Definition reloadPreschool (heightHint : Z) : M Nursery unit :=
  psclOutputs <- viaStore StepFetchPreschools
                   (FetchPreschools (StoreRest more)) ;;
  range psclOutputs
    (fun kid =>
       let txID := op_Hash (OutPointOf kid) in
       confChan <- core (onEnv (EvRegisterConfirmationsNtfn txID (ConfDepth cfg)
                                  heightHint)
                           (RegisterConfirmationsNtfn cfg txID (ConfDepth cfg)
                              heightHint)) ;;
       core (go_ (waitForPromotion kid confChan))).

(** The loop of [reloadClasses]:
    [for curHeight := ...; curHeight <= uint32(bestHeight); curHeight++],
    on at most [fuel] iterations.  The counter is a [uint32]: past
    [2^32 - 1] it starts again from 0. *)
Fixpoint replay (fuel : nat) (curHeight bestHeight : Z) : M Nursery (progress unit) :=
  if curHeight <=? bestHeight then
    match fuel with
    | O => ret StillRunning
    | S fuel' =>
        core (graduateClass lw btcd cfg curHeight) ;;
        replay fuel' (u32 (curHeight + 1)) bestHeight
    end
  else ret (Returned tt).

(** [reloadClasses] *)
Definition reloadClasses (fuel : nat) (lastPrunedHeight : Z)
    : M Nursery (progress unit) :=
  best <- viaEnv StepGetBestBlock (GetBestBlock more) ;;
  let bestHeight := snd best in
  if (lastPrunedHeight =? 0) || (u32 bestHeight =? lastPrunedHeight)
  then ret (Returned tt)
  else replay fuel (u32 (lastPrunedHeight + 1)) (u32 bestHeight).

(** [Start]; [fuel] bounds the replay of [reloadClasses]. *)
Definition Start (fuel : nat) : M Nursery (progress unit) :=
  fun n =>
    let (swapped, n) := swapStarted n in
    if negb swapped then (Ok (Returned tt), n)
    else
      (pendingCloseChans <- viaEnv (StepFetchClosedChannels true)
                              (FetchClosedChannels more true) ;;
       range pendingCloseChans
         (fun pendingClose =>
            closeAndRemoveIfMature (closed_ChanPoint pendingClose)) ;;
       lastPrunedHeight <- viaStore StepLastPurgedHeight
                             (LastPurgedHeight (StoreRest more)) ;;
       orClose (reloadPreschool lastPrunedHeight) ;;
       replayed <- orClose (reloadClasses fuel lastPrunedHeight) ;;
       match replayed with
       | StillRunning => ret StillRunning
       | Returned _ =>
           newBlockChan <- orClose (viaEnv StepRegisterBlockEpochNtfn
                                      (RegisterBlockEpochNtfn more)) ;;
           record (StepGoIncubator newBlockChan) ;;
           ret (Returned tt)
       end) n.

(** [Stop]; [u.wg.Wait()] only waits for the goroutines to return. *)
Definition Stop : M Nursery unit :=
  fun n =>
    let (swapped, n) := swapStopped n in
    if negb swapped then (Ok tt, n)
    else closeQuit n.

(** [incubator], on the cases its [select] takes one after the other.
    It returns when the epoch channel or [u.quit] is closed, the
    deferred [newBlockChan.Cancel()] running then; when the cases run
    out it is blocked in the [select]. *)
Fixpoint incubator (newBlockChan : BlockEpochEvent)
    (selected : list (Selected BlockEpoch)) : M Nursery (progress unit) :=
  match selected with
  | [] => ret StillRunning
  | Received epoch :: later =>
      let height := u32 (epoch_Height epoch) in
      try_ (core (graduateClass lw btcd cfg height)) ;;
      incubator newBlockChan later
  | ChannelClosed :: _ | QuitClosed :: _ =>
      record (StepCancel newBlockChan) ;;
      ret (Returned tt)
  end.

(** [waitForEnrollment], on the case its [select] takes. *)
Definition waitForEnrollment (baby : babyOutput)
    (selected : Selected TxConfirmation) : M Nursery unit :=
  match selected with
  | Received txConfirmation =>
      let baby := SetConfHeight (BlockHeight txConfirmation) baby in
      orReturn (viaStore (StepCribToKinder baby)
                  (CribToKinder (StoreRest more) baby))
        (fun _ => ret tt)
  | ChannelClosed | QuitClosed => ret tt
  end.

(** [waitForPromotion], on the case its [select] takes. *)
Definition waitForPromotion (kid : kidOutput)
    (selected : Selected TxConfirmation) : M Nursery unit :=
  match selected with
  | Received txConfirmation =>
      let kid := SetConfHeight (BlockHeight txConfirmation) kid in
      orReturn (viaStore (StepPreschoolToKinder kid)
                  (PreschoolToKinder (StoreRest more) kid))
        (fun _ => ret tt)
  | ChannelClosed | QuitClosed => ret tt
  end.

(** The keys of the map [possibleCloses], each once. *)
Definition possibleCloses (kgtnOutputs : list kidOutput) : list OutPoint :=
  remove_dups (map OriginChanPoint kgtnOutputs).

(** The order in which [range] visits the keys of a map is not
    specified; [visitOrder] is the one the run-time picks. *)
Variable visitOrder : list OutPoint -> list OutPoint.

(** [waitForGraduation], on the case its [select] takes. *)
Definition waitForGraduation (classHeight : Z) (kgtnOutputs : list kidOutput)
    (selected : Selected TxConfirmation) : M Nursery unit :=
  match selected with
  | Received _ =>
      orReturn (viaStore (StepGraduateKinder classHeight kgtnOutputs)
                  (GraduateKinder (StoreRest more) classHeight kgtnOutputs))
        (fun _ =>
           orReturn (range (visitOrder (possibleCloses kgtnOutputs))
                       closeAndRemoveIfMature)
             (fun _ =>
                orReturn (viaStore (StepTryFinalizeClass classHeight)
                            (TryFinalizeClass (StoreRest more) classHeight))
                  (fun _ =>
                     try_ (core (onStore EvLastFinalizedHeight
                                   (LastFinalizedHeight (Store cfg)))) ;;
                     ret tt)))
  | ChannelClosed | QuitClosed => ret tt
  end.

End Rest.

Arguments NurseryStoreRest : clear implicits.
Arguments NurseryConfigRest : clear implicits.
Arguments Nursery : clear implicits.

(** The steps a run added to the journal. *)
Definition steps_since {St Env} (n n' : Nursery St Env) : list Step :=
  drop (length (journal n)) (journal n').

End utxn.

(** ** Vocabulary of the statements on start-up and on the reactors *)

(** Every run of [c] relates the state before to the state after. *)
Definition keeps {S A} (R : S -> S -> Prop) (c : M S A) : Prop :=
  forall s r s', c s = (r, s') -> R s s'.

(** The journal grew, by steps satisfying [P]. *)
Definition journal_grows {St Env} (P : utxn.Step -> Prop)
    (n n' : utxn.Nursery St Env) : Prop :=
  exists steps, utxn.journal n' = utxn.journal n ++ steps /\ Forall P steps.

(** [started], [stopped] and [quit] are as they were. *)
Definition same_flags {St Env} (n n' : utxn.Nursery St Env) : Prop :=
  utxn.started n' = utxn.started n /\ utxn.stopped n' = utxn.stopped n /\
  utxn.quit n' = utxn.quit n.

(** [started] and [stopped] are as they were. *)
Definition same_switches {St Env} (n n' : utxn.Nursery St Env) : Prop :=
  utxn.started n' = utxn.started n /\ utxn.stopped n' = utxn.stopped n.

(** The nursery after a call on the store that left it in [s'], or on
    another collaborator that left it in [e'], recorded as [st]. *)
Definition stored {St Env} (n : utxn.Nursery St Env) (s' : St) (st : utxn.Step)
    : utxn.Nursery St Env :=
  {| utxn.started := utxn.started n; utxn.stopped := utxn.stopped n;
     utxn.quit := utxn.quit n;
     utxn.this := {| store := s'; env := env (utxn.this n);
                     currentHeight := currentHeight (utxn.this n);
                     trace := trace (utxn.this n) |};
     utxn.journal := utxn.journal n ++ [st] |}.

Definition answered {St Env} (n : utxn.Nursery St Env) (e' : Env) (st : utxn.Step)
    : utxn.Nursery St Env :=
  {| utxn.started := utxn.started n; utxn.stopped := utxn.stopped n;
     utxn.quit := utxn.quit n;
     utxn.this := {| store := store (utxn.this n); env := e';
                     currentHeight := currentHeight (utxn.this n);
                     trace := trace (utxn.this n) |};
     utxn.journal := utxn.journal n ++ [st] |}.

(** The kid outputs for which a run started [waitForPromotion], the
    confirmation watches it registered, the heights it fetched the
    class of and the channels it asked the maturity of, in order. *)
Definition promotions (steps : list utxn.Step) : list kidOutput :=
  flat_map (fun st => match st with
                      | utxn.Did (EvGo (waitForPromotion kid _)) => [kid]
                      | _ => []
                      end) steps.

Definition watches (steps : list utxn.Step) : list (Hash * Z * Z) :=
  flat_map (fun st => match st with
                      | utxn.Did (EvRegisterConfirmationsNtfn txid numConfs hint) =>
                          [(txid, numConfs, hint)]
                      | _ => []
                      end) steps.

Definition fetched (steps : list utxn.Step) : list Z :=
  flat_map (fun st => match st with
                      | utxn.Did (EvFetchClass h) => [h]
                      | _ => []
                      end) steps.

Definition queried (steps : list utxn.Step) : list OutPoint :=
  flat_map (fun st => match st with
                      | utxn.StepIsMatureChannel chanPoint => [chanPoint]
                      | _ => []
                      end) steps.

(** The nursery after [MarkChanFullyClosed(chanPoint)] left the other
    collaborators in [e']. *)
Definition marked {St Env} (n : utxn.Nursery St Env) (chanPoint : OutPoint) (e' : Env)
    : utxn.Nursery St Env :=
  {| utxn.started := utxn.started n; utxn.stopped := utxn.stopped n;
     utxn.quit := utxn.quit n;
     utxn.this := {| store := store (utxn.this n); env := e';
                     currentHeight := currentHeight (utxn.this n);
                     trace := trace (utxn.this n)
                              ++ [EvMarkChanFullyClosed chanPoint] |};
     utxn.journal := utxn.journal n
                     ++ [utxn.Did (EvMarkChanFullyClosed chanPoint)] |}.

(** A run that left [started], [stopped] and [quit] alone and added to
    the journal steps satisfying [P] only. *)
Definition quietly {St Env} (P : utxn.Step -> Prop) (n n' : utxn.Nursery St Env) : Prop :=
  same_flags n n' /\ journal_grows P n n'.

(** A step other than the first step of [reloadPreschool] and the
    closing of [u.quit]. *)
Definition early_step (st : utxn.Step) : Prop :=
  st <> utxn.StepFetchPreschools /\ st <> utxn.StepCloseQuit.

(** The message of the panic on closing a closed channel. *)
Definition closed_twice : error := "panic: close of closed channel"%string.

(** The nursery after [close(u.quit)]. *)
Definition shut {St Env} (n : utxn.Nursery St Env) : utxn.Nursery St Env :=
  {| utxn.started := utxn.started n; utxn.stopped := utxn.stopped n;
     utxn.quit := true; utxn.this := utxn.this n;
     utxn.journal := utxn.journal n ++ [utxn.StepCloseQuit] |}.

(** The nursery with its [stopped] flag set. *)
Definition halted {St Env} (n : utxn.Nursery St Env) : utxn.Nursery St Env :=
  {| utxn.started := utxn.started n; utxn.stopped := 1;
     utxn.quit := utxn.quit n; utxn.this := utxn.this n;
     utxn.journal := utxn.journal n |}.

(** The heights of the blocks an [incubator] hears of before its epoch
    channel or [u.quit] is closed, whether one of the two is closed at
    all, and the block subscriptions a run cancelled. *)
Fixpoint heard (selected : list (utxn.Selected utxn.BlockEpoch)) : list Z :=
  match selected with
  | utxn.Received epoch :: later => u32 (utxn.epoch_Height epoch) :: heard later
  | _ => []
  end.

Definition hangs_up (selected : list (utxn.Selected utxn.BlockEpoch)) : bool :=
  existsb (fun s => match s with
                    | utxn.Received _ => false
                    | _ => true
                    end) selected.

Definition cancels (steps : list utxn.Step) : list utxn.BlockEpochEvent :=
  flat_map (fun st => match st with
                      | utxn.StepCancel newBlockChan => [newBlockChan]
                      | _ => []
                      end) steps.

(** An event other than the fetching of a class. *)
Definition past_fetch (ev : Event) : Prop :=
  match ev with
  | EvFetchClass _ => False
  | _ => True
  end.

(** ** A small concrete world, continued *)

Module DemoRest.

#[global] Instance breachedOutput_eq_decision : EqDecision breachedOutput.
Proof. solve_decision. Defined.

#[global] Instance kidOutput_eq_decision : EqDecision kidOutput.
Proof. solve_decision. Defined.

#[global] Instance babyOutput_eq_decision : EqDecision babyOutput.
Proof. solve_decision. Defined.

(** The height a kid output matures at: its confirmation height plus
    its CSV delay. *)
Definition maturityHeight (k : kidOutput) : Z :=
  ConfHeight k + BlocksToMaturity k.

(** Every kid output the store holds in PSCL, KNDR or CRIB (a baby
    output counting as the kid it wraps), and every one it holds in
    GRAD. *)
Definition incubating (s : SpecStore.NurseryState) : list kidOutput :=
  SpecStore.pscl s
  ++ concat (map snd (map_to_list (SpecStore.kndr s)))
  ++ map baby_kidOutput (concat (map snd (map_to_list (SpecStore.crib s)))).

Definition graduated (s : SpecStore.NurseryState) : list kidOutput :=
  concat (map snd (map_to_list (SpecStore.grad s))).

Definition under (cp : OutPoint) (k : kidOutput) : bool :=
  bool_decide (OriginChanPoint k = cp).

(** Modelled from the spec: [FetchPreschools()] returns all PSCL
    outputs. *)
Definition FetchPreschools : M SpecStore.NurseryState (list kidOutput) :=
  SpecStore.atomically (fun s => (SpecStore.pscl s, s)).

(** Modelled from the spec: [LastPurgedHeight()]. *)
Definition LastPurgedHeight : M SpecStore.NurseryState Z :=
  SpecStore.atomically (fun s => (SpecStore.lph s, s)).

(** Modelled from the spec: [PreschoolToKinder(kid)] relocates a kid
    from PSCL to KNDR, under its maturity height. *)
Definition PreschoolToKinder (kid : kidOutput) : M SpecStore.NurseryState unit :=
  SpecStore.atomically (fun s =>
    (tt, {| SpecStore.fstx := SpecStore.fstx s;
            SpecStore.finalizedHeights := SpecStore.finalizedHeights s;
            SpecStore.lfh := SpecStore.lfh s; SpecStore.lph := SpecStore.lph s;
            SpecStore.pscl :=
              List.filter (fun k => negb (bool_decide (OutPointOf k = OutPointOf kid)))
                (SpecStore.pscl s);
            SpecStore.kndr :=
              <[maturityHeight kid :=
                  default [] (SpecStore.kndr s !! maturityHeight kid) ++ [kid]]>
                (SpecStore.kndr s);
            SpecStore.crib := SpecStore.crib s; SpecStore.grad := SpecStore.grad s;
            SpecStore.faults := SpecStore.faults s |})).

(** Modelled from the spec: [CribToKinder(baby)] relocates a baby
    output from CRIB to KNDR, as the kid it wraps, under its maturity
    height. *)
Definition CribToKinder (baby : babyOutput) : M SpecStore.NurseryState unit :=
  SpecStore.atomically (fun s =>
    let kid := baby_kidOutput baby in
    (tt, {| SpecStore.fstx := SpecStore.fstx s;
            SpecStore.finalizedHeights := SpecStore.finalizedHeights s;
            SpecStore.lfh := SpecStore.lfh s; SpecStore.lph := SpecStore.lph s;
            SpecStore.pscl := SpecStore.pscl s;
            SpecStore.kndr :=
              <[maturityHeight kid :=
                  default [] (SpecStore.kndr s !! maturityHeight kid) ++ [kid]]>
                (SpecStore.kndr s);
            SpecStore.crib :=
              <[expiry baby :=
                  List.filter
                    (fun b => negb (bool_decide (OutPointOf b = OutPointOf baby)))
                    (default [] (SpecStore.crib s !! expiry baby))]>
                (SpecStore.crib s);
            SpecStore.grad := SpecStore.grad s;
            SpecStore.faults := SpecStore.faults s |})).

(** Modelled from the spec: [GraduateKinder(H, kids)] relocates the
    given kids from KNDR at [H] to GRAD. *)
Definition GraduateKinder (h : Z) (kids : list kidOutput) : M SpecStore.NurseryState unit :=
  SpecStore.atomically (fun s =>
    (tt, {| SpecStore.fstx := SpecStore.fstx s;
            SpecStore.finalizedHeights := SpecStore.finalizedHeights s;
            SpecStore.lfh := SpecStore.lfh s; SpecStore.lph := SpecStore.lph s;
            SpecStore.pscl := SpecStore.pscl s;
            SpecStore.kndr :=
              <[h := List.filter (fun k => negb (bool_decide (k ∈ kids)))
                       (default [] (SpecStore.kndr s !! h))]>
                (SpecStore.kndr s);
            SpecStore.crib := SpecStore.crib s;
            SpecStore.grad :=
              <[h := default [] (SpecStore.grad s !! h) ++ kids]> (SpecStore.grad s);
            SpecStore.faults := SpecStore.faults s |})).

(** Modelled from the spec: [TryFinalizeClass(H)] sets a bookkeeping
    flag, which is not among the fields of the store above; like any
    transaction it can fail. *)
Definition TryFinalizeClass (h : Z) : M SpecStore.NurseryState unit :=
  SpecStore.atomically (fun s => (tt, s)).

(** Modelled from the spec: [IsMatureChannel(cp)] is true iff every
    recorded output under [cp] is in GRAD, and reports a channel without
    any recorded output as not found. *)
Definition IsMatureChannel (cp : OutPoint) : M SpecStore.NurseryState bool :=
  fun s =>
    match SpecStore.atomically (fun s => (tt, s)) s with
    | (Err e, s') => (Err e, s')
    | (Ok _, s') =>
        if forallb (fun k => negb (under cp k)) (incubating s' ++ graduated s')
        then (Err utxn.ErrContractNotFound, s')
        else (Ok (forallb (fun k => negb (under cp k)) (incubating s')), s')
    end.

(** Modelled from the spec: [RemoveChannel(cp)] erases the outputs
    recorded under [cp]. *)
Definition RemoveChannel (cp : OutPoint) : M SpecStore.NurseryState unit :=
  SpecStore.atomically (fun s =>
    let keep {A} (f : A -> kidOutput) (l : list A) :=
      List.filter (fun x => negb (under cp (f x))) l in
    (tt, {| SpecStore.fstx := SpecStore.fstx s;
            SpecStore.finalizedHeights := SpecStore.finalizedHeights s;
            SpecStore.lfh := SpecStore.lfh s; SpecStore.lph := SpecStore.lph s;
            SpecStore.pscl := keep id (SpecStore.pscl s);
            SpecStore.kndr := keep id <$> SpecStore.kndr s;
            SpecStore.crib := keep baby_kidOutput <$> SpecStore.crib s;
            SpecStore.grad := keep id <$> SpecStore.grad s;
            SpecStore.faults := SpecStore.faults s |})).

Definition ops : utxn.NurseryStoreRest SpecStore.NurseryState :=
  utxn.mkNurseryStoreRest FetchPreschools LastPurgedHeight CribToKinder
    PreschoolToKinder GraduateKinder TryFinalizeClass IsMatureChannel
    RemoveChannel.

(** The chain, the channel database and the block subscription of the
    examples: the best block is at [best], the channels pending close
    are [pending] (either can be an error instead), and block
    subscriptions are numbered like confirmation watches. *)
Definition GetBestBlock (best : result Z) : M Demo.World (Hash * Z) :=
  fun w =>
    (match best with
     | Ok h => Ok (Demo.hash h, h)
     | Err e => Err e
     end, w).

Definition FetchClosedChannels (pending : result (list utxn.ChannelCloseSummary))
    (pendingOnly : bool) : M Demo.World (list utxn.ChannelCloseSummary) :=
  fun w => (pending, w).

Definition RegisterBlockEpochNtfn : M Demo.World utxn.BlockEpochEvent :=
  fun w =>
    (Ok (Demo.nextWatch w),
     {| Demo.scriptSeed := Demo.scriptSeed w; Demo.feeRate := Demo.feeRate w;
        Demo.publishReplies := Demo.publishReplies w;
        Demo.signerReplies := Demo.signerReplies w;
        Demo.nextWatch := S (Demo.nextWatch w);
        Demo.closedChannels := Demo.closedChannels w |}).

Definition more (best : result Z) (pending : result (list utxn.ChannelCloseSummary))
    : utxn.NurseryConfigRest SpecStore.NurseryState Demo.World :=
  utxn.mkNurseryConfigRest (GetBestBlock best) (FetchClosedChannels pending)
    RegisterBlockEpochNtfn ops.

(** A nursery that was never started, around [u]. *)
Definition fresh (u : utxoNursery SpecStore.NurseryState Demo.World)
    : utxn.Nursery SpecStore.NurseryState Demo.World :=
  {| utxn.started := 0; utxn.stopped := 0; utxn.quit := false;
     utxn.this := u; utxn.journal := [] |}.

(** A store with preschool outputs, purged up to [lph]. *)
Definition store_with_preschool (lph : Z) (kids : list kidOutput)
    : SpecStore.NurseryState :=
  {| SpecStore.fstx := ∅; SpecStore.finalizedHeights := ∅;
     SpecStore.lfh := 0; SpecStore.lph := lph; SpecStore.pscl := kids;
     SpecStore.kndr := ∅; SpecStore.crib := ∅;
     SpecStore.grad := ∅; SpecStore.faults := [] |}.

End DemoRest.

(** * Properties *)

Module IntFacts.

Lemma u16_id z : is_u16 z -> u16 z = z.
Proof. unfold is_u16, u16. intros H. apply Z.mod_small. lia. Qed.

Lemma u32_id z : is_u32 z -> u32 z = z.
Proof. unfold is_u32, u32. intros H. apply Z.mod_small. lia. Qed.

Lemma u64_id z : is_u64 z -> u64 z = z.
Proof. unfold is_u64, u64. intros H. apply Z.mod_small. lia. Qed.

Lemma i64_id z : is_i64 z -> i64 z = z.
Proof.
  unfold is_i64, i64. intros H.
  rewrite Z.mod_small by lia. lia.
Qed.

Lemma u64_range z : is_u64 (u64 z).
Proof. unfold is_u64, u64. apply Z.mod_pos_bound. lia. Qed.

Lemma u32_range z : is_u32 (u32 z).
Proof. unfold is_u32, u32. apply Z.mod_pos_bound. lia. Qed.

Lemma i64_range z : is_i64 (i64 z).
Proof.
  unfold is_i64, i64.
  pose proof (Z.mod_pos_bound (z + 2 ^ 63) (2 ^ 64)). lia.
Qed.

(** [int64 -> uint64 -> int64] is the identity on [int64]. *)
Lemma i64_u64 z : is_i64 z -> i64 (u64 z) = z.
Proof.
  unfold is_i64, i64, u64. intros H.
  rewrite Zplus_mod_idemp_l.
  rewrite Z.mod_small by lia. lia.
Qed.

Lemma u64_add_mod a b : u64_add (u64 a) b = u64 (a + b).
Proof. unfold u64_add, u64. apply Zplus_mod_idemp_l. Qed.

Lemma i64_congr a b : u64 a = u64 b -> i64 a = i64 b.
Proof.
  unfold i64, u64. intros H.
  rewrite <- (Zplus_mod_idemp_l a), <- (Zplus_mod_idemp_l b), H.
  reflexivity.
Qed.

End IntFacts.

Export IntFacts.

Module BytesFacts.

Lemma Z_of_byte_range b : 0 <= Z_of_byte b < 256.
Proof.
  unfold Z_of_byte. pose proof (Byte.to_N_bounded b). lia.
Qed.

Lemma byte_of_Z_of_byte b : byte_of_Z (Z_of_byte b) = b.
Proof.
  unfold byte_of_Z. pose proof (Z_of_byte_range b) as Hr.
  rewrite Z.mod_small by lia. unfold Z_of_byte.
  rewrite N2Z.id, Byte.of_to_N. reflexivity.
Qed.

Lemma Z_of_byte_of_Z z : Z_of_byte (byte_of_Z z) = z mod 256.
Proof.
  unfold byte_of_Z, Z_of_byte.
  pose proof (Z.mod_pos_bound z 256 ltac:(lia)) as Hr.
  destruct (Byte.of_N (Z.to_N (z mod 256))) as [b|] eqn:Hb.
  - apply Byte.to_of_N in Hb. rewrite Hb. lia.
  - apply Byte.of_N_None_iff in Hb. lia.
Qed.

(** An [or] with a part shifted past the bits of the other operand is a
    sum. *)
Lemma lor_shiftl_add a b k :
  0 <= k -> 0 <= a < 2 ^ k -> Z.lor a (Z.shiftl b k) = a + b * 2 ^ k.
Proof.
  intros Hk Ha.
  assert (Hland : Z.land a (Z.shiftl b k) = 0).
  { apply Z.bits_inj'. intros n Hn.
    rewrite Z.land_spec, Z.bits_0.
    destruct (Z_lt_le_dec n k) as [Hlt|Hge].
    - rewrite (Z.shiftl_spec_low b k n) by lia. apply andb_false_r.
    - rewrite <- (Z.mod_small a (2 ^ k)) by lia.
      rewrite Z.mod_pow2_bits_high by lia. reflexivity. }
  rewrite <- Z.lxor_lor by exact Hland.
  rewrite <- Z.add_nocarry_lxor by exact Hland.
  rewrite Z.shiftl_mul_pow2 by lia. reflexivity.
Qed.

Ltac bytes_arith :=
  repeat match goal with
  | |- context [Z_of_byte (byte_of_Z ?x)] => rewrite (Z_of_byte_of_Z x)
  end;
  rewrite ?Z.shiftr_div_pow2 by lia;
  change (2 ^ 8) with 256 in *; change (2 ^ 16) with 65536 in *;
  change (2 ^ 24) with 16777216 in *; change (2 ^ 32) with 4294967296 in *;
  change (2 ^ 40) with 1099511627776 in *;
  change (2 ^ 48) with 281474976710656 in *;
  change (2 ^ 56) with 72057594037927936 in *;
  change (2 ^ 64) with 18446744073709551616 in *.

Lemma Uint16_PutUint16 v : Uint16 (PutUint16 v) = u16 v.
Proof.
  unfold Uint16, PutUint16, at_, u16. cbn [nth].
  bytes_arith.
  rewrite lor_shiftl_add by (try lia; apply Z.mod_pos_bound; lia).
  change (2 ^ 8) with 256. Z.div_mod_to_equations. lia.
Qed.

Lemma Uint32_PutUint32 v : Uint32 (PutUint32 v) = u32 v.
Proof.
  unfold Uint32, PutUint32, at_, u32. cbn [nth].
  bytes_arith.
  pose proof (Z.mod_pos_bound v 256 ltac:(lia)).
  pose proof (Z.mod_pos_bound (v / 256) 256 ltac:(lia)).
  pose proof (Z.mod_pos_bound (v / 65536) 256 ltac:(lia)).
  pose proof (Z.mod_pos_bound (v / 16777216) 256 ltac:(lia)).
  rewrite (lor_shiftl_add _ _ 8) by lia.
  rewrite (lor_shiftl_add _ _ 16) by lia.
  rewrite (lor_shiftl_add _ _ 24) by lia.
  change (2 ^ 8) with 256; change (2 ^ 16) with 65536;
    change (2 ^ 24) with 16777216.
  Z.div_mod_to_equations. lia.
Qed.

Lemma Uint64_PutUint64 v : Uint64 (PutUint64 v) = u64 v.
Proof.
  unfold Uint64, PutUint64, at_, u64. cbn [nth].
  bytes_arith.
  pose proof (Z.mod_pos_bound v 256 ltac:(lia)).
  pose proof (Z.mod_pos_bound (v / 256) 256 ltac:(lia)).
  pose proof (Z.mod_pos_bound (v / 65536) 256 ltac:(lia)).
  pose proof (Z.mod_pos_bound (v / 16777216) 256 ltac:(lia)).
  pose proof (Z.mod_pos_bound (v / 4294967296) 256 ltac:(lia)).
  pose proof (Z.mod_pos_bound (v / 1099511627776) 256 ltac:(lia)).
  pose proof (Z.mod_pos_bound (v / 281474976710656) 256 ltac:(lia)).
  pose proof (Z.mod_pos_bound (v / 72057594037927936) 256 ltac:(lia)).
  rewrite (lor_shiftl_add _ _ 8) by lia.
  rewrite (lor_shiftl_add _ _ 16) by lia.
  rewrite (lor_shiftl_add _ _ 24) by lia.
  rewrite (lor_shiftl_add _ _ 32) by lia.
  rewrite (lor_shiftl_add _ _ 40) by lia.
  rewrite (lor_shiftl_add _ _ 48) by lia.
  rewrite (lor_shiftl_add _ _ 56) by lia.
  bytes_arith.
  Z.div_mod_to_equations. lia.
Qed.

(** The three writers produce the big-endian digits of the spec. *)
Lemma PutUint16_big_endian v : PutUint16 v = big_endian 2 v.
Proof.
  unfold PutUint16, big_endian.
  rewrite !Z.shiftr_div_pow2 by lia.
  change (256 ^ Z.of_nat 1) with (2 ^ 8).
  change (256 ^ Z.of_nat 0) with 1. rewrite Z.div_1_r. reflexivity.
Qed.

Lemma PutUint32_big_endian v : PutUint32 v = big_endian 4 v.
Proof.
  unfold PutUint32, big_endian.
  rewrite !Z.shiftr_div_pow2 by lia.
  change (256 ^ Z.of_nat 3) with (2 ^ 24).
  change (256 ^ Z.of_nat 2) with (2 ^ 16).
  change (256 ^ Z.of_nat 1) with (2 ^ 8).
  change (256 ^ Z.of_nat 0) with 1. rewrite Z.div_1_r. reflexivity.
Qed.

Lemma PutUint64_big_endian v : PutUint64 v = big_endian 8 v.
Proof.
  unfold PutUint64, big_endian.
  rewrite !Z.shiftr_div_pow2 by lia.
  change (256 ^ Z.of_nat 7) with (2 ^ 56).
  change (256 ^ Z.of_nat 6) with (2 ^ 48).
  change (256 ^ Z.of_nat 5) with (2 ^ 40).
  change (256 ^ Z.of_nat 4) with (2 ^ 32).
  change (256 ^ Z.of_nat 3) with (2 ^ 24).
  change (256 ^ Z.of_nat 2) with (2 ^ 16).
  change (256 ^ Z.of_nat 1) with (2 ^ 8).
  change (256 ^ Z.of_nat 0) with 1. rewrite Z.div_1_r. reflexivity.
Qed.

(** Reading the digits of [big_endian] most significant first gives the
    number back, reduced to [n] bytes: the digit order is indeed
    big-endian. *)
Lemma be_value_app bs b :
  be_value (bs ++ [b]) = be_value bs * 256 + Z_of_byte b.
Proof. unfold be_value. rewrite fold_left_app. reflexivity. Qed.

Lemma fold_be_shift bs acc :
  fold_left (fun a b => a * 256 + Z_of_byte b) bs acc =
  acc * 256 ^ Z.of_nat (length bs) + be_value bs.
Proof.
  unfold be_value. revert acc.
  induction bs as [|b bs IH]; intros acc.
  - cbn. lia.
  - cbn [fold_left length]. rewrite IH, (IH (0 * 256 + Z_of_byte b)).
    rewrite Nat2Z.inj_succ, Z.pow_succ_r by lia. lia.
Qed.

Lemma big_endian_length n v : length (big_endian n v) = n.
Proof. induction n; cbn; congruence. Qed.

Lemma be_value_big_endian n v :
  be_value (big_endian n v) = v mod 256 ^ Z.of_nat n.
Proof.
  induction n as [|n IH].
  - cbn. rewrite Z.mod_1_r. reflexivity.
  - cbn [big_endian]. unfold be_value. cbn [fold_left].
    rewrite fold_be_shift, IH, big_endian_length, Z_of_byte_of_Z.
    rewrite Nat2Z.inj_succ, Z.pow_succ_r by lia.
    assert (Hp : 0 < 256 ^ Z.of_nat n) by (apply Z.pow_pos_nonneg; lia).
    rewrite (Z.mul_comm 256), Z.rem_mul_r by lia. lia.
Qed.

End BytesFacts.

Export BytesFacts.

Lemma bind_Ok {S A B} (c : M S A) (k : A -> M S B) s a s' :
  c s = (Ok a, s') -> bind c k s = k a s'.
Proof. unfold bind. intros ->. reflexivity. Qed.

Lemma bind_Err {S A B} (c : M S A) (k : A -> M S B) s e s' :
  c s = (Err e, s') -> bind c k s = (Err e, s').
Proof. unfold bind. intros ->. reflexivity. Qed.

Lemma bind_Ok_inv {S A B} (c : M S A) (k : A -> M S B) s b s' :
  bind c k s = (Ok b, s') ->
  exists a s1, c s = (Ok a, s1) /\ k a s1 = (Ok b, s').
Proof.
  unfold bind. destruct (c s) as [[a|e] s1]; intros H.
  - exists a, s1. split; [reflexivity | exact H].
  - discriminate H.
Qed.

(** ** [strings.Contains] finds exactly the substrings *)

Module stringsFacts.

Import strings.

Lemma HasPrefix_spec s p :
  HasPrefix s p = true <-> exists b, s = (p ++ b)%string.
Proof.
  revert s. induction p as [|c p IH]; intros s; cbn.
  - split; [intros _; exists s; reflexivity | reflexivity].
  - destruct s as [|d s].
    + split; [discriminate | intros [b Hb]; discriminate Hb].
    + destruct (Ascii.eqb_spec c d) as [->|Hne].
      * rewrite IH. split; intros [b Hb]; exists b.
        -- now rewrite Hb.
        -- now inversion Hb.
      * split; [discriminate | intros [b Hb]; inversion Hb; congruence].
Qed.

Lemma Contains_spec s sub :
  Contains s sub = true <-> exists a b, s = (a ++ sub ++ b)%string.
Proof.
  induction s as [|d s IH]; cbn [Contains].
  - rewrite orb_false_r, HasPrefix_spec. split.
    + intros [b Hb]. exists EmptyString, b. exact Hb.
    + intros [a [b Hb]]. destruct a; [exists b; exact Hb | discriminate Hb].
  - rewrite orb_true_iff, HasPrefix_spec, IH. split.
    + intros [[b Hb] | [a [b Hb]]].
      * exists EmptyString, b. exact Hb.
      * exists (String d a), b. cbn. now rewrite Hb.
    + intros [a [b Hb]]. destruct a as [|c a].
      * left. exists b. exact Hb.
      * right. exists a, b. now inversion Hb.
Qed.

End stringsFacts.

(** ** Frame rules *)

Section Frames.

Context {St Env : Type}.
Variable R : utxoNursery St Env -> utxoNursery St Env -> Prop.
Hypothesis R_refl : forall u, R u u.
Hypothesis R_trans : forall u v w, R u v -> R v w -> R u w.

Lemma respects_ret {A} (a : A) : respects R (ret a).
Proof. intros u r u' H. inversion H. apply R_refl. Qed.

Lemma respects_fail {A} e : respects R (@fail _ A e).
Proof. intros u r u' H. inversion H. apply R_refl. Qed.

Lemma respects_lift {A} (x : result A) : respects R (lift x).
Proof. intros u r u' H. inversion H. apply R_refl. Qed.

Lemma respects_bind {A B} (c : M _ A) (k : A -> M _ B) :
  respects R c -> (forall a, respects R (k a)) -> respects R (bind c k).
Proof.
  intros Hc Hk u r u' H. unfold bind in H.
  destruct (c u) as [[a|e] u1] eqn:Hcu.
  - eapply R_trans; [eapply Hc; eassumption | eapply Hk; eassumption].
  - inversion H; subst. eapply Hc; eassumption.
Qed.

Lemma respects_try {A} (c : M _ A) : respects R c -> respects R (try_ c).
Proof.
  intros Hc u r u' H. unfold try_ in H.
  destruct (c u) as [x u1] eqn:Hcu. inversion H; subst.
  eapply Hc; eassumption.
Qed.

Lemma respects_forEach {A} (l : list A) body :
  (forall x, respects R (body x)) -> respects R (forEach l body).
Proof.
  intros Hb. induction l as [|x l IH]; cbn [forEach].
  - apply respects_ret.
  - apply respects_bind; [apply Hb | intros _; exact IH].
Qed.

End Frames.

Lemma grows_refl {St Env} P (u : utxoNursery St Env) : grows P u u.
Proof. exists []. split; [now rewrite app_nil_r | constructor]. Qed.

Lemma grows_trans {St Env} P (u v w : utxoNursery St Env) :
  grows P u v -> grows P v w -> grows P u w.
Proof.
  intros [e1 [H1 F1]] [e2 [H2 F2]]. exists (e1 ++ e2). split.
  - rewrite H2, H1, app_assoc. reflexivity.
  - apply Forall_app. split; assumption.
Qed.

Lemma same_store_refl {St Env} (u : utxoNursery St Env) : same_store u u.
Proof. reflexivity. Qed.

Lemma same_store_trans {St Env} (u v w : utxoNursery St Env) :
  same_store u v -> same_store v w -> same_store u w.
Proof. unfold same_store. congruence. Qed.

Section FrameInstances.

Context {St Env : Type}.
Variable lw : Consts.
Variable btcd : Btcd.
Variable cfg : NurseryConfig St Env.

Lemma grows_emit P ev : P ev -> respects (grows P) (@emit St Env ev).
Proof.
  intros HP u r u' H. inversion H; subst. exists [ev]. cbn.
  split; [reflexivity | repeat constructor; exact HP].
Qed.

Lemma grows_onStore {A} P ev (c : M St A) :
  P ev -> respects (grows P) (@onStore St Env A ev c).
Proof.
  intros HP u r u' H. unfold onStore in H.
  destruct (c (store u)) as [x s']. inversion H; subst. exists [ev]. cbn.
  split; [reflexivity | repeat constructor; exact HP].
Qed.

Lemma grows_onEnv {A} P ev (c : M Env A) :
  P ev -> respects (grows P) (@onEnv St Env A ev c).
Proof.
  intros HP u r u' H. unfold onEnv in H.
  destruct (c (env u)) as [x s']. inversion H; subst. exists [ev]. cbn.
  split; [reflexivity | repeat constructor; exact HP].
Qed.

Lemma grows_setCurrentHeight P h :
  respects (grows P) (@setCurrentHeight St Env h).
Proof.
  intros u r u' H. inversion H; subst. exists []. cbn.
  split; [now rewrite app_nil_r | constructor].
Qed.

Lemma grows_getCurrentHeight P :
  respects (grows P) (@getCurrentHeight St Env).
Proof. intros u r u' H. inversion H; subst. apply grows_refl. Qed.

Lemma same_store_emit ev : respects same_store (@emit St Env ev).
Proof. intros u r u' H. inversion H; subst. reflexivity. Qed.

Lemma same_store_onEnv {A} ev (c : M Env A) :
  respects same_store (@onEnv St Env A ev c).
Proof.
  intros u r u' H. unfold onEnv in H.
  destruct (c (env u)) as [x s']. inversion H; subst. reflexivity.
Qed.

End FrameInstances.

(** ** Broadcasting and its two kinds of error *)

Section Broadcast.

Context {St Env : Type}.
Variable btcd : Btcd.
Variable cfg : NurseryConfig St Env.

Lemma soft_rejection_Contains err :
  strings.Contains err "TX rejected:" = true <-> soft_rejection err.
Proof. apply stringsFacts.Contains_spec. Qed.

Lemma publish_soft by_ tx u err e' :
  PublishTransaction cfg tx (env u) = (Err err, e') ->
  soft_rejection err ->
  publish cfg by_ tx u = (Ok tt, published u by_ tx e').
Proof.
  intros Hp Hs. apply soft_rejection_Contains in Hs.
  unfold publish, bind, try_, onEnv. rewrite Hp, Hs. reflexivity.
Qed.

Lemma publish_hard by_ tx u err e' :
  PublishTransaction cfg tx (env u) = (Err err, e') ->
  ~ soft_rejection err ->
  publish cfg by_ tx u = (Err err, published u by_ tx e').
Proof.
  intros Hp Hs. rewrite <- soft_rejection_Contains in Hs.
  apply not_true_is_false in Hs.
  unfold publish, bind, try_, onEnv. rewrite Hp, Hs. reflexivity.
Qed.

Lemma watches_from_run u1 txid h t :
  watches_from cfg u1 txid h t
    (bind (onEnv (EvRegisterConfirmationsNtfn txid (ConfDepth cfg) h)
             (RegisterConfirmationsNtfn cfg txid (ConfDepth cfg) h))
          (fun confChan => go_ (t confChan)) u1).
Proof.
  unfold watches_from, bind, onEnv, go_, emit.
  destruct (RegisterConfirmationsNtfn cfg txid (ConfDepth cfg) h (env u1))
    as [[c|x] e'']; cbn; [rewrite <- app_assoc|]; reflexivity.
Qed.

(** C8.  Both broadcasting routines, [sweepGraduatingKinders] for a
    finalized sweep transaction and [sweepCribOutput] for a baby
    output's timeout transaction, treat an error of
    [PublishTransaction] alike.  If its message contains
    ["TX rejected:"] the error is dropped and the routine goes on: it
    registers the confirmation watch for the transaction at the class
    height and, that done, starts the waiting goroutine.  Any other
    error is returned as it is, right after the publication and with
    no watch registered. *)
Theorem publish_error_discipline (classHeight : Z) (u : utxoNursery St Env)
    (err : error) (e' : Env) :
  (forall finalTx kgtnOutputs,
     PublishTransaction cfg finalTx (env u) = (Err err, e') ->
     let u1 := published u (graduating_kinders classHeight) finalTx e' in
     (soft_rejection err ->
        watches_from cfg u1 (TxHash btcd finalTx) classHeight
          (waitForGraduation classHeight kgtnOutputs)
          (sweepGraduatingKinders btcd cfg classHeight finalTx kgtnOutputs u)) /\
     (~ soft_rejection err ->
        sweepGraduatingKinders btcd cfg classHeight finalTx kgtnOutputs u
        = (Err err, u1))) /\
  (forall baby,
     PublishTransaction cfg (timeoutTx baby) (env u) = (Err err, e') ->
     let u1 := published u (crib_output classHeight) (timeoutTx baby) e' in
     (soft_rejection err ->
        watches_from cfg u1 (op_Hash (OutPointOf baby)) classHeight
          (waitForEnrollment baby)
          (sweepCribOutput cfg classHeight baby u)) /\
     (~ soft_rejection err ->
        sweepCribOutput cfg classHeight baby u = (Err err, u1))).
Proof.
  split.
  - intros finalTx kids Hp u1. split; intros Hs.
    + unfold sweepGraduatingKinders.
      rewrite (bind_Ok _ _ _ _ _ (publish_soft _ _ _ _ _ Hp Hs)).
      apply watches_from_run.
    + unfold sweepGraduatingKinders.
      rewrite (bind_Err _ _ _ _ _ (publish_hard _ _ _ _ _ Hp Hs)).
      reflexivity.
  - intros baby Hp u1. split; intros Hs.
    + unfold sweepCribOutput.
      rewrite (bind_Ok _ _ _ _ _ (publish_soft _ _ _ _ _ Hp Hs)).
      apply watches_from_run.
    + unfold sweepCribOutput.
      rewrite (bind_Err _ _ _ _ _ (publish_hard _ _ _ _ _ Hp Hs)).
      reflexivity.
Qed.

End Broadcast.

(** A broadcaster that answers "TX rejected: already have transaction"
    to the sweep of class 244: the watch is registered all the same. *)
Lemma publish_error_discipline_witness :
  let u := Demo.nursery SpecStore.empty (Demo.world 1 [Some Demo.rejected] []) in
  let e' := Demo.world 1 [] [] in
  let tx := Demo.timeout 5 in
  PublishTransaction (Demo.cfg 1 6) tx (env u) = (Err Demo.rejected, e') /\
  soft_rejection Demo.rejected /\
  watches_from (Demo.cfg 1 6)
    (published u (graduating_kinders 244) tx e') (Demo.TxHash tx) 244
    (waitForGraduation 244 [])
    (sweepGraduatingKinders Demo.btcd (Demo.cfg 1 6) 244 tx [] u).
Proof.
  intros u e' tx.
  assert (Hs : soft_rejection Demo.rejected).
  { exists ""%string, " already have transaction"%string. reflexivity. }
  split; [reflexivity | split; [exact Hs |]].
  exact (proj1 (proj1 (publish_error_discipline Demo.btcd (Demo.cfg 1 6) 244 u
                         Demo.rejected e') tx [] eq_refl) Hs).
Defined.

(** ** Which events each routine can add *)

Lemma grows_weaken {St Env} (P Q : Event -> Prop) (u u' : utxoNursery St Env) :
  (forall ev, P ev -> Q ev) -> grows P u u' -> grows Q u u'.
Proof.
  intros HPQ [evs [Ht HF]]. exists evs. split; [exact Ht |].
  eapply Forall_impl; eassumption.
Qed.

Lemma grows_events_since {St Env} P (u u' : utxoNursery St Env) :
  grows P u u' ->
  trace u' = trace u ++ events_since u u' /\ Forall P (events_since u u').
Proof.
  intros [evs [Ht HF]]. unfold events_since.
  rewrite Ht, drop_app_length. split; [reflexivity | exact HF].
Qed.

Ltac frame_step :=
  first
    [ apply respects_ret; [apply grows_refl]
    | apply respects_fail; [apply grows_refl]
    | apply respects_lift; [apply grows_refl]
    | apply respects_try
    | apply respects_forEach; [apply grows_refl | apply grows_trans | intros ]
    | apply respects_bind; [apply grows_trans | | intros ]
    | apply grows_onStore
    | apply grows_onEnv
    | apply grows_emit
    | apply grows_setCurrentHeight
    | apply grows_getCurrentHeight
    | match goal with
      | |- respects _ (if ?b then _ else _) => destruct b
      | |- respects _ (match ?x with _ => _ end) => destruct x
      end ].

Ltac store_step :=
  first
    [ apply respects_ret; [apply same_store_refl]
    | apply respects_fail; [apply same_store_refl]
    | apply respects_lift; [apply same_store_refl]
    | apply respects_try
    | apply respects_forEach; [apply same_store_refl | apply same_store_trans | intros ]
    | apply respects_bind; [apply same_store_trans | | intros ]
    | apply same_store_onEnv
    | apply same_store_emit
    | match goal with
      | |- respects _ (if ?b then _ else _) => destruct b
      | |- respects _ (match ?x with _ => _ end) => destruct x
      end ].

Section Emissions.

Context {St Env : Type}.
Variable lw : Consts.
Variable btcd : Btcd.
Variable cfg : NurseryConfig St Env.

Lemma addWitnesses_grows {T} `{CsvSpendableOutput T} P (inputs : list T) idx tx :
  (forall ev, sweep_event ev -> P ev) ->
  respects (grows P) (addWitnesses cfg idx inputs tx).
Proof.
  intros HP. revert idx tx.
  induction inputs as [|i inputs IH]; intros idx tx; cbn [addWitnesses].
  - repeat frame_step.
  - frame_step; [frame_step; apply HP; exact I | apply IH].
Qed.

Lemma sweepCsvSpendableOutputsTxn_grows {T} `{CsvSpendableOutput T} P w (inputs : list T) :
  (forall ev, sweep_event ev -> P ev) ->
  respects (grows P) (sweepCsvSpendableOutputsTxn btcd cfg w inputs).
Proof.
  intros HP. unfold sweepCsvSpendableOutputsTxn.
  frame_step; [frame_step; apply HP; exact I |].
  frame_step; [frame_step; apply HP; exact I |].
  frame_step; [frame_step |].
  apply addWitnesses_grows. exact HP.
Qed.

Lemma gatherInputs_grows P kids w inputs :
  (forall ev, sweep_event ev -> P ev) ->
  respects (grows (St:=St) (Env:=Env) P) (gatherInputs lw kids w inputs).
Proof.
  intros HP. revert w inputs.
  induction kids as [|k kids IH]; intros w inputs; cbn [gatherInputs].
  - repeat frame_step.
  - destruct (witnessWeight lw (WitnessType k)).
    + apply IH.
    + frame_step; [frame_step; apply HP; exact I | apply IH].
Qed.

Lemma createSweepTx_grows P kids :
  (forall ev, sweep_event ev -> P ev) ->
  respects (grows P) (createSweepTx lw btcd cfg kids).
Proof.
  intros HP. unfold createSweepTx.
  frame_step; [apply gatherInputs_grows; exact HP |].
  apply sweepCsvSpendableOutputsTxn_grows. exact HP.
Qed.

Lemma publish_grows P by_ tx :
  (forall ev, broadcast_event ev -> P ev) ->
  respects (grows P) (publish cfg by_ tx).
Proof.
  intros HP. unfold publish.
  frame_step; [frame_step; frame_step; apply HP; exact I |].
  repeat frame_step.
Qed.

Lemma sweepGraduatingKinders_grows P h tx kids :
  (forall ev, broadcast_event ev -> P ev) ->
  respects (grows P) (sweepGraduatingKinders btcd cfg h tx kids).
Proof.
  intros HP. unfold sweepGraduatingKinders, go_.
  frame_step; [apply publish_grows; exact HP |].
  frame_step; frame_step; apply HP; exact I.
Qed.

Lemma sweepCribOutput_grows P h baby :
  (forall ev, broadcast_event ev -> P ev) ->
  respects (grows P) (sweepCribOutput cfg h baby).
Proof.
  intros HP. unfold sweepCribOutput, go_.
  frame_step; [apply publish_grows; exact HP |].
  frame_step; frame_step; apply HP; exact I.
Qed.

Lemma graduateClass_sweeps_grows P h :
  (forall ev, ~ purge_event ev -> P ev) ->
  respects (grows P) (graduateClass_sweeps lw btcd cfg h).
Proof.
  intros HP.
  assert (Hs : forall ev, sweep_event ev -> P ev).
  { intros ev Hev. apply HP. destruct ev; cbn in *; tauto. }
  assert (Hb : forall ev, broadcast_event ev -> P ev).
  { intros ev Hev. apply HP. destruct ev; cbn in *; tauto. }
  unfold graduateClass_sweeps.
  frame_step; [frame_step |].
  frame_step; [frame_step; apply HP; cbn; tauto |].
  frame_step; [frame_step; apply HP; cbn; tauto |].
  frame_step.
  - frame_step; [| frame_step ].
    frame_step.
    + frame_step.
      * frame_step; [apply createSweepTx_grows; exact Hs | frame_step].
      * frame_step.
    + frame_step; [frame_step; apply HP; cbn; tauto | frame_step].
  - frame_step.
    + frame_step; [apply sweepGraduatingKinders_grows; exact Hb | frame_step].
    + apply respects_forEach; [apply grows_refl | apply grows_trans |].
      intros b. apply sweepCribOutput_grows. exact Hb.
Qed.

(** The sweep builder never touches the store. *)
Lemma createSweepTx_same_store kids :
  respects same_store (createSweepTx lw btcd cfg kids).
Proof.
  unfold createSweepTx. store_step.
  - generalize (u64_add 0 (4 * BaseSweepTxSize lw + WitnessHeaderSize lw)).
    generalize (@nil kidOutput).
    induction kids as [|k kids IH]; intros inputs w; cbn [gatherInputs].
    + repeat store_step.
    + destruct (witnessWeight lw (WitnessType k)); [apply IH |].
      store_step; [store_step | apply IH].
  - unfold sweepCsvSpendableOutputsTxn.
    do 3 (store_step; [store_step |]).
    generalize 0%nat.
    generalize (addInputs (snd a)
      (AddTxOut (NewMsgTx 2)
         {| Value := i64_sub (totalSum (snd a)) (i64 (u64_mul (fst a) a1));
            PkScript := a0 |})).
    induction (snd a) as [|i l IH]; intros tx idx; cbn [addWitnesses].
    + repeat store_step.
    + store_step; [store_step | apply IH].
Qed.

(** [graduateClass] is its sweeping part followed by its pruning part. *)
Lemma graduateClass_split h u :
  graduateClass lw btcd cfg h u
  = bind (graduateClass_sweeps lw btcd cfg h)
      (fun _ => graduateClass_purge cfg h) u.
Proof.
  unfold graduateClass, graduateClass_sweeps, graduateClass_purge, bind.
  repeat match goal with
         | |- context [match ?c ?s with _ => _ end] =>
             lazymatch c with
             | context [match _ with _ => _ end] => fail
             | _ => destruct (c s) as [[?|?] ?]
             end
         | |- context [if ?b then _ else _] => destruct b
         | |- context [match ?x with Some _ => _ | None => _ end] => destruct x
         end; try reflexivity.
Qed.

End Emissions.

(** ** Pruning *)

Section Pruning.

Context {St Env : Type}.
Variable lw : Consts.
Variable btcd : Btcd.
Variable cfg : NurseryConfig St Env.

Lemma events_since_app (u u' : utxoNursery St Env) evs :
  trace u' = trace u ++ evs -> events_since u u' = evs.
Proof. intros Ht. unfold events_since. rewrite Ht. apply drop_app_length. Qed.

Lemma graduateClass_purge_run h (u1 : utxoNursery St Env) r u' :
  graduateClass_purge cfg h u1 = (r, u') ->
  (h <= PruningDepth cfg /\ r = Ok tt /\ u' = u1) \/
  (PruningDepth cfg < h /\
   trace u' = trace u1 ++ [EvPurgeHeight (u32_sub h (PruningDepth cfg))]).
Proof.
  unfold graduateClass_purge, onStore.
  destruct (Z.geb_spec (PruningDepth cfg) h) as [Hge|Hlt]; intros H.
  - left. inversion H. split; [lia | split; reflexivity].
  - right. split; [lia |].
    destruct (PurgeHeight (Store cfg) _ (store u1)) as [x s'].
    inversion H; subst. reflexivity.
Qed.

(** C7, as the code has it.  [graduateClass(H)] calls
    [Store.PurgeHeight] only when [H] is strictly greater than
    [PruningDepth], and then with the argument [H - PruningDepth] and
    no other; and when [graduateClass(H)] returns [nil] for such an
    [H], the call has been made.  (A step that fails before the last
    lines returns its error and leaves the purge out.) *)
Theorem purge_only_below_depth (classHeight : Z) (u : utxoNursery St Env) :
  is_u32 classHeight -> is_u32 (PruningDepth cfg) ->
  let out := graduateClass lw btcd cfg classHeight u in
  (forall h, In (EvPurgeHeight h) (events_since u (snd out)) ->
     PruningDepth cfg < classHeight /\ h = classHeight - PruningDepth cfg) /\
  (fst out = Ok tt -> PruningDepth cfg < classHeight ->
     In (EvPurgeHeight (classHeight - PruningDepth cfg))
        (events_since u (snd out))).
Proof.
  intros Hh Hp out. subst out. rewrite graduateClass_split. unfold bind.
  assert (Hsub : PruningDepth cfg < classHeight ->
                 u32_sub classHeight (PruningDepth cfg)
                 = classHeight - PruningDepth cfg).
  { intros Hlt. apply u32_id. unfold is_u32 in *. lia. }
  destruct (graduateClass_sweeps lw btcd cfg classHeight u) as [[[]|e] u1] eqn:Hs.
  - apply (graduateClass_sweeps_grows lw btcd cfg (fun ev => ~ purge_event ev))
      in Hs; [| tauto].
    destruct Hs as [evs [Ht Hevs]].
    destruct (graduateClass_purge cfg classHeight u1) as [r u'] eqn:Hpu.
    apply graduateClass_purge_run in Hpu.
    destruct Hpu as [(Hle & -> & ->) | (Hlt & Ht')]; cbn [fst snd].
    + rewrite (events_since_app _ _ _ Ht). split; [| lia].
      intros h Hin. rewrite List.Forall_forall in Hevs.
      exfalso. apply (Hevs _ Hin). exact I.
    + rewrite Ht, <- app_assoc in Ht'.
      rewrite (events_since_app _ _ _ Ht'), (Hsub Hlt). split.
      * intros h Hin. apply in_app_or in Hin. destruct Hin as [Hin|Hin].
        -- rewrite List.Forall_forall in Hevs. exfalso. apply (Hevs _ Hin). exact I.
        -- destruct Hin as [Heq|[]]. inversion Heq. split; [exact Hlt | reflexivity].
      * intros _ _. apply in_or_app. right. left. reflexivity.
  - apply (graduateClass_sweeps_grows lw btcd cfg (fun ev => ~ purge_event ev))
      in Hs; [| tauto].
    destruct Hs as [evs [Ht Hevs]]. cbn [fst snd].
    rewrite (events_since_app _ _ _ Ht). split; [| discriminate].
    intros h Hin. rewrite List.Forall_forall in Hevs.
    exfalso. apply (Hevs _ Hin). exact I.
Qed.

End Pruning.

(** Class 10 with one baby output, pruning depth 6, a broadcaster out of
    reach: the height is above the pruning depth and the store is not
    asked to purge anything. *)
Lemma purge_skipped_on_broadcast_error :
  let u := Demo.nursery (Demo.store_with_crib 10 [Demo.baby 7 5000 10 144])
             (Demo.world 1 [Some Demo.refused] []) in
  let out := graduateClass Demo.lw Demo.btcd (Demo.cfg 1 6) 10 u in
  fst out = Err Demo.refused /\
  ~ ((exists h, In (EvPurgeHeight h) (events_since u (snd out)))
     <-> PruningDepth (Demo.cfg 1 6) < 10).
Proof.
  intros u out. split; [vm_compute; reflexivity |].
  intros [_ Hpurge].
  destruct (Hpurge ltac:(cbn; lia)) as [h Hin].
  vm_compute in Hin.
  repeat (destruct Hin as [Hin|Hin]; [discriminate Hin |]).
  exact Hin.
Qed.

(** The same class with a broadcaster that accepts: height 4 is purged. *)
Lemma purge_only_below_depth_witness :
  let u := Demo.nursery (Demo.store_with_crib 10 [Demo.baby 7 5000 10 144])
             (Demo.world 1 [] []) in
  let out := graduateClass Demo.lw Demo.btcd (Demo.cfg 1 6) 10 u in
  is_u32 10 /\ is_u32 (PruningDepth (Demo.cfg 1 6)) /\
  fst out = Ok tt /\ PruningDepth (Demo.cfg 1 6) < 10 /\
  In (EvPurgeHeight (10 - PruningDepth (Demo.cfg 1 6))) (events_since u (snd out)).
Proof.
  intros u out.
  assert (H10 : is_u32 10) by (unfold is_u32; lia).
  assert (H6 : is_u32 (PruningDepth (Demo.cfg 1 6))) by (unfold is_u32; cbn; lia).
  assert (Hok : fst out = Ok tt) by (vm_compute; reflexivity).
  assert (Hlt : PruningDepth (Demo.cfg 1 6) < 10) by (cbn; lia).
  repeat (split; [assumption |]).
  exact (proj2 (purge_only_below_depth Demo.lw Demo.btcd (Demo.cfg 1 6) 10 u
                  H10 H6) Hok Hlt).
Defined.

(** ** A failed sweep construction *)

Section SweepFailure.

Context {St Env : Type}.
Variable lw : Consts.
Variable btcd : Btcd.
Variable cfg : NurseryConfig St Env.

(** An error of the sweep builder is an error of the wallet's script
    generator, of the sanity check or of the signer: nothing else in it
    can fail. *)
Lemma addWitnesses_error_source {T} `{CsvSpendableOutput T} (inputs : list T)
    idx tx u e u' :
  addWitnesses cfg idx inputs tx u = (Err e, u') ->
  exists wt sd tx' idx' w w', BuildWitness cfg wt sd tx' idx' w = (Err e, w').
Proof.
  revert idx tx u. induction inputs as [|i inputs IH]; intros idx tx u H';
    cbn [addWitnesses] in H'.
  - discriminate H'.
  - unfold bind, onEnv in H'.
    destruct (BuildWitness cfg (WitnessType i) (SignDesc i) tx idx (env u))
      as [[w|x] e1] eqn:Hb.
    + eapply IH. exact H'.
    + inversion H'; subst. eauto 8.
Qed.

Lemma gatherInputs_Ok kids w inputs (u : utxoNursery St Env) :
  exists r u', gatherInputs lw kids w inputs u = (Ok r, u').
Proof.
  revert w inputs u. induction kids as [|k kids IH]; intros w inputs u;
    cbn [gatherInputs].
  - eexists _, _. reflexivity.
  - destruct (witnessWeight lw (WitnessType k)); [apply IH |].
    unfold bind, emit. apply IH.
Qed.

Lemma createSweepTx_error_source kids u e u' :
  createSweepTx lw btcd cfg kids u = (Err e, u') ->
  (exists w w', GenSweepScript cfg w = (Err e, w')) \/
  (exists tx, CheckTransactionSanity btcd tx = Err e) \/
  (exists wt sd tx idx w w', BuildWitness cfg wt sd tx idx w = (Err e, w')).
Proof.
  unfold createSweepTx. intros H.
  destruct (gatherInputs_Ok kids
              (u64_add 0 (4 * BaseSweepTxSize lw + WitnessHeaderSize lw)) [] u)
    as [r [u1 Hg]].
  rewrite (bind_Ok _ _ _ _ _ Hg) in H.
  unfold sweepCsvSpendableOutputsTxn, bind, onEnv, lift in H.
  destruct (GenSweepScript cfg (env u1)) as [[pk|x] e1] eqn:Hgen.
  - cbn [env] in H.
    destruct (EstimateFeePerWeight cfg 1 e1) as [rate e2].
    match type of H with
    | context [CheckTransactionSanity btcd ?tx] =>
        destruct (CheckTransactionSanity btcd tx) as [[]|x] eqn:Hsan
    end.
    + right. right. eapply (addWitnesses_error_source (T:=kidOutput)). exact H.
    + inversion H; subst. right. left. eauto.
  - inversion H; subst. left. eauto.
Qed.

(** C4.  Take a height [H] whose class has kindergarten outputs and
    which is above the last finalized height.  If [createSweepTx] fails
    on them (and it can only fail through the script generator, the
    sanity check or the signer), then [graduateClass(H)] returns that
    very error; [Store.FinalizeKinder] is not called, and the store is
    left as [LastFinalizedHeight] left it, the height not finalized. *)
Theorem sweep_failure_leaves_height_unfinalized (classHeight : Z)
    (u : utxoNursery St Env) finalTx kgtnOutputs cribOutputs s1
    lastFinalizedHeight s2 e u3 :
  FetchClass (Store cfg) classHeight (store u)
    = (Ok (finalTx, kgtnOutputs, cribOutputs), s1) ->
  kgtnOutputs <> [] ->
  LastFinalizedHeight (Store cfg) s1 = (Ok lastFinalizedHeight, s2) ->
  lastFinalizedHeight < classHeight ->
  createSweepTx lw btcd cfg kgtnOutputs
    {| store := s2; env := env u; currentHeight := classHeight;
       trace := trace u ++ [EvFetchClass classHeight; EvLastFinalizedHeight] |}
    = (Err e, u3) ->
  graduateClass lw btcd cfg classHeight u = (Err e, u3) /\
  Forall (fun ev => ~ finalize_event ev) (events_since u u3) /\
  store u3 = s2 /\
  ((exists w w', GenSweepScript cfg w = (Err e, w')) \/
   (exists tx, CheckTransactionSanity btcd tx = Err e) \/
   (exists wt sd tx idx w w', BuildWitness cfg wt sd tx idx w = (Err e, w'))).
Proof.
  intros Hfetch Hkids Hlfh Hlt Hsweep.
  split; [| split; [| split]].
  - unfold graduateClass, bind at 1, setCurrentHeight.
    unfold bind at 1, onStore at 1. cbn [store env currentHeight trace].
    rewrite Hfetch. cbn [fst snd].
    unfold bind at 1, onStore at 1. cbn [store env currentHeight trace].
    rewrite Hlfh.
    apply Z.ltb_lt in Hlt. rewrite Hlt.
    destruct kgtnOutputs as [|k kids]; [contradiction |].
    cbn [length Nat.ltb Nat.leb].
    rewrite <- app_assoc. cbn [app].
    unfold bind at 1. unfold bind at 1. unfold bind at 1.
    rewrite Hsweep. reflexivity.
  - pose proof (createSweepTx_grows lw btcd cfg
                  (fun ev => ~ finalize_event ev) kgtnOutputs
                  ltac:(intros ev; destruct ev; cbn; tauto) _ _ _ Hsweep)
      as [evs [Ht Hevs]].
    cbn [trace] in Ht. rewrite <- app_assoc in Ht.
    rewrite (events_since_app _ _ _ Ht).
    apply Forall_app. split; [| exact Hevs].
    repeat constructor; cbn; tauto.
  - apply (createSweepTx_same_store lw btcd cfg kgtnOutputs _ _ _ Hsweep).
  - eapply createSweepTx_error_source. exact Hsweep.
Qed.

End SweepFailure.

(** Class 244 with one commitment output and a signer that is down. *)
Lemma sweep_failure_leaves_height_unfinalized_witness :
  let k := Demo.kid 1 500000 0 144 100 in
  let s := Demo.store_with_kids 244 [k] in
  let u := Demo.nursery s (Demo.world 1 [] [Some Demo.unsigned]) in
  let out := graduateClass Demo.lw Demo.btcd (Demo.cfg 1 6) 244 u in
  [k] <> [] /\ 0 < 244 /\
  fst out = Err Demo.unsigned /\
  Forall (fun ev => ~ finalize_event ev) (events_since u (snd out)) /\
  store (snd out) = s.
Proof.
  intros k s u out.
  assert (Hk : [k] <> []) by discriminate.
  assert (Hlt : 0 < 244) by lia.
  pose proof (sweep_failure_leaves_height_unfinalized Demo.lw Demo.btcd
                (Demo.cfg 1 6) 244 u None [k] [] s 0 s Demo.unsigned
                (snd (createSweepTx Demo.lw Demo.btcd (Demo.cfg 1 6) [k]
                        {| store := s; env := env u; currentHeight := 244;
                           trace := trace u ++ [EvFetchClass 244; EvLastFinalizedHeight] |}))
                ltac:(vm_compute; reflexivity) Hk ltac:(vm_compute; reflexivity)
                Hlt ltac:(vm_compute; reflexivity))
    as (Hrun & Hfin & Hstore & _).
  subst out. rewrite Hrun. cbn [fst snd].
  repeat (split; [assumption || reflexivity |]). exact Hstore.
Defined.

(** ** [IncubateOutputs] *)

Section Ingress.

Context {St Env : Type}.
Variable lw : Consts.
Variable btcd : Btcd.
Variable cfg : NurseryConfig St Env.

(** The loop over the HTLC resolutions keeps, in order, the baby
    outputs of the resolutions with a positive amount. *)
Lemma buildHtlcOutputs_fold closeSummary rs acc :
  fold_left
    (fun htlcOutputs htlcRes =>
       let htlcOutpoint :=
         {| op_Hash := TxHash btcd (SignedTimeoutTx htlcRes); op_Index := 0 |} in
       let htlcOutput :=
         makeBabyOutput htlcOutpoint (ChanPoint closeSummary)
           (SelfOutputMaturity closeSummary) (HtlcOfferedTimeout lw) htlcRes in
       if 0 <? Amount htlcOutput then htlcOutputs ++ [htlcOutput]
       else htlcOutputs)
    rs acc
  = acc ++ map (babyOf lw btcd closeSummary) (List.filter positive rs).
Proof.
  revert acc. induction rs as [|r rs IH]; intros acc.
  - cbn. now rewrite app_nil_r.
  - cbn [fold_left List.filter]. rewrite IH. unfold positive at 2, babyOf at 2.
    cbn [Amount babyOutput_CsvSpendableOutput kidOutput_CsvSpendableOutput
         makeBabyOutput makeKidOutput makeBreachedOutput baby_kidOutput
         kid_breachedOutput amt].
    destruct (0 <? Value (Output (SweepSignDesc r))); cbn [map].
    + now rewrite <- app_assoc.
    + reflexivity.
Qed.

Lemma buildHtlcOutputs_filter closeSummary :
  buildHtlcOutputs lw btcd closeSummary
  = map (babyOf lw btcd closeSummary)
      (List.filter positive (HtlcResolutions closeSummary)).
Proof. unfold buildHtlcOutputs. apply buildHtlcOutputs_fold. Qed.

Lemma IncubateOutputs_grows P closeSummary :
  P (EvMarkChanFullyClosed (ChanPoint closeSummary)) ->
  P (EvIncubate (buildCommOutput lw closeSummary)
       (buildHtlcOutputs lw btcd closeSummary)) ->
  (forall ev, broadcast_event ev -> P ev) ->
  respects (grows P) (IncubateOutputs lw btcd cfg closeSummary).
Proof.
  intros Hm Hi Hb. unfold IncubateOutputs, go_.
  frame_step; [frame_step; exact Hm |].
  frame_step; [frame_step; exact Hi |].
  frame_step; [| frame_step].
  frame_step; [frame_step |].
  frame_step; frame_step; apply Hb; exact I.
Qed.

(** C6.  [IncubateOutputs] builds the commitment kid output exactly
    when the self-output sign descriptor is not [nil] and its amount is
    strictly positive; it builds one baby output for each HTLC
    resolution whose amount is strictly positive, in their order; and
    when there is neither, all it does is to mark the channel fully
    closed in the channel database and to return what that call
    returned: the nursery store is not written. *)
Theorem incubate_outputs_selection (closeSummary : ForceCloseSummary)
    (u : utxoNursery St Env) :
  (forall k,
     buildCommOutput lw closeSummary = Some k <->
     exists signDesc,
       SelfOutputSignDesc closeSummary = Some signDesc /\
       0 < Value (Output signDesc) /\
       k = makeKidOutput (SelfOutpoint closeSummary) (ChanPoint closeSummary)
             (SelfOutputMaturity closeSummary) (CommitmentTimeLock lw) signDesc) /\
  buildHtlcOutputs lw btcd closeSummary
  = map (babyOf lw btcd closeSummary)
      (List.filter positive (HtlcResolutions closeSummary)) /\
  (buildCommOutput lw closeSummary = None ->
   buildHtlcOutputs lw btcd closeSummary = [] ->
   IncubateOutputs lw btcd cfg closeSummary u
   = (fst (MarkChanFullyClosed cfg (ChanPoint closeSummary) (env u)),
      {| store := store u;
         env := snd (MarkChanFullyClosed cfg (ChanPoint closeSummary) (env u));
         currentHeight := currentHeight u;
         trace := trace u ++ [EvMarkChanFullyClosed (ChanPoint closeSummary)] |})).
Proof.
  split; [| split].
  - intros k. unfold buildCommOutput.
    destruct (SelfOutputSignDesc closeSummary) as [sd|].
    + cbn [Amount kidOutput_CsvSpendableOutput makeKidOutput makeBreachedOutput
           kid_breachedOutput amt].
      destruct (Z.ltb_spec 0 (Value (Output sd))) as [Hpos|Hle]; split.
      * intros Hk. inversion Hk. exists sd. auto.
      * intros [sd' (Hsd & _ & ->)]. inversion Hsd. reflexivity.
      * discriminate.
      * intros [sd' (Hsd & Hpos & _)]. inversion Hsd; subst. lia.
    + split; [discriminate | intros [sd (Hsd & _)]; discriminate Hsd].
  - apply buildHtlcOutputs_filter.
  - intros Hc Hh. unfold IncubateOutputs. rewrite Hc, Hh. cbn [isNil length andb Nat.eqb].
    unfold onEnv.
    destruct (MarkChanFullyClosed cfg (ChanPoint closeSummary) (env u)).
    reflexivity.
Qed.

(** C10.  Every baby output [IncubateOutputs] builds, and hence every
    one it hands to the store, comes from one of the summary's HTLC
    resolutions: it carries that resolution's signed timeout
    transaction, its outpoint is output 0 of that transaction, and its
    blocks-to-maturity is the summary's [SelfOutputMaturity], the CSV
    delay of the commitment output. *)
Theorem baby_outputs_shape (closeSummary : ForceCloseSummary)
    (u : utxoNursery St Env) :
  Forall (from_resolution btcd closeSummary)
    (buildHtlcOutputs lw btcd closeSummary) /\
  forall kid babies,
    In (EvIncubate kid babies)
       (events_since u (snd (IncubateOutputs lw btcd cfg closeSummary u))) ->
    Forall (from_resolution btcd closeSummary) babies.
Proof.
  assert (Hall : Forall (from_resolution btcd closeSummary)
                   (buildHtlcOutputs lw btcd closeSummary)).
  { rewrite buildHtlcOutputs_filter. apply List.Forall_forall.
    intros b Hb. apply in_map_iff in Hb. destruct Hb as [r [<- Hr]].
    apply filter_In in Hr. destruct Hr as [Hr _].
    exists r. repeat split; [exact Hr | reflexivity..]. }
  split; [exact Hall |].
  intros kid babies Hin.
  destruct (IncubateOutputs lw btcd cfg closeSummary u) as [r u'] eqn:Hrun.
  apply (IncubateOutputs_grows
           (fun ev => forall k bs, ev = EvIncubate k bs ->
                                   bs = buildHtlcOutputs lw btcd closeSummary))
    in Hrun.
  - destruct Hrun as [evs [Ht Hevs]]. cbn [snd] in Hin.
    rewrite (events_since_app _ _ _ Ht) in Hin.
    rewrite List.Forall_forall in Hevs.
    rewrite (Hevs _ Hin kid babies eq_refl). exact Hall.
  - discriminate.
  - intros k bs Heq. now inversion Heq.
  - intros ev Hev k bs ->. destruct Hev.
Qed.

End Ingress.

(** A summary with a worthless self output and a worthless HTLC: the
    channel is marked closed at once. *)
Lemma incubate_outputs_selection_witness :
  let u := Demo.nursery SpecStore.empty (Demo.world 1 [] []) in
  buildCommOutput Demo.lw Demo.dust_summary = None /\
  buildHtlcOutputs Demo.lw Demo.btcd Demo.dust_summary = [] /\
  IncubateOutputs Demo.lw Demo.btcd (Demo.cfg 1 6) Demo.dust_summary u
  = (Ok tt,
     {| store := SpecStore.empty;
        env := snd (Demo.MarkChanFullyClosed (Demo.op 99 1) (env u));
        currentHeight := 0;
        trace := [EvMarkChanFullyClosed (Demo.op 99 1)] |}).
Proof.
  intros u.
  assert (Hc : buildCommOutput Demo.lw Demo.dust_summary = None) by reflexivity.
  assert (Hh : buildHtlcOutputs Demo.lw Demo.btcd Demo.dust_summary = [])
    by reflexivity.
  split; [exact Hc | split; [exact Hh |]].
  exact (proj2 (proj2 (incubate_outputs_selection Demo.lw Demo.btcd
                         (Demo.cfg 1 6) Demo.dust_summary u)) Hc Hh).
Defined.

(** The spec's scenario S5: both HTLCs reach the store as baby outputs
    shaped after their resolutions. *)
Lemma baby_outputs_shape_witness :
  let u := Demo.nursery SpecStore.empty (Demo.world 1 [] []) in
  let babies := map (babyOf Demo.lw Demo.btcd Demo.htlc_summary)
                  [Demo.htlc 7 5000 200; Demo.htlc 8 6000 210] in
  In (EvIncubate None babies)
     (events_since u
        (snd (IncubateOutputs Demo.lw Demo.btcd (Demo.cfg 1 6) Demo.htlc_summary u))) /\
  Forall (from_resolution Demo.btcd Demo.htlc_summary) babies.
Proof.
  intros u babies.
  assert (Hin : In (EvIncubate None babies)
                  (events_since u
                     (snd (IncubateOutputs Demo.lw Demo.btcd (Demo.cfg 1 6)
                             Demo.htlc_summary u)))).
  { vm_compute. left. reflexivity. }
  split; [exact Hin |].
  exact (proj2 (baby_outputs_shape Demo.lw Demo.btcd (Demo.cfg 1 6)
                  Demo.htlc_summary u) None babies Hin).
Defined.

(** ** The sweep builder *)

Lemma u64_i64 a : u64 (i64 a) = u64 a.
Proof.
  unfold u64, i64. rewrite Zminus_mod_idemp_l. f_equal. lia.
Qed.

Lemma i64_add_idem a b : i64 (i64 a + b) = i64 (a + b).
Proof.
  apply i64_congr. unfold u64.
  rewrite <- Zplus_mod_idemp_l. fold (u64 (i64 a)). rewrite u64_i64.
  unfold u64. apply Zplus_mod_idemp_l.
Qed.

Lemma i64_sub_idem a b : i64 (i64 a - b) = i64 (a - b).
Proof.
  replace (i64 a - b) with (i64 a + - b) by lia.
  rewrite i64_add_idem. f_equal; lia.
Qed.

Lemma i64_of_u64 a : i64 (u64 a) = i64 a.
Proof. apply i64_congr. unfold u64. apply Zmod_mod. Qed.

Lemma u64_mul_u64 a b : u64_mul (u64 a) b = u64 (a * b).
Proof. unfold u64_mul, u64. apply Zmult_mod_idemp_l. Qed.

Lemma map_insert_same {A B} (f : A -> B) (l : list A) i x y :
  l !! i = Some y -> f x = f y -> map f (<[i := x]> l) = map f l.
Proof.
  revert i. induction l as [|a l IH]; intros i Hl Hf; [discriminate Hl |].
  destruct i as [|i]; cbn in *.
  - inversion Hl; subst. now rewrite Hf.
  - f_equal. apply IH; assumption.
Qed.

Lemma setWitness_shape tx idx w :
  Version (setWitness tx idx w) = Version tx /\
  tx_TxOut (setWitness tx idx w) = tx_TxOut tx /\
  LockTime (setWitness tx idx w) = LockTime tx /\
  map PreviousOutPoint (tx_TxIn (setWitness tx idx w))
  = map PreviousOutPoint (tx_TxIn tx) /\
  map Sequence (tx_TxIn (setWitness tx idx w)) = map Sequence (tx_TxIn tx).
Proof.
  unfold setWitness. cbn [Version tx_TxOut LockTime tx_TxIn].
  destruct (tx_TxIn tx !! idx) as [ti|] eqn:Hti; repeat split;
    eapply map_insert_same; try eassumption; reflexivity.
Qed.

Section SweepBuilder.

Context {St Env : Type}.
Variable lw : Consts.
Variable btcd : Btcd.
Variable cfg : NurseryConfig St Env.

Lemma totalSum_amounts {T} `{CsvSpendableOutput T} (inputs : list T) :
  totalSum inputs = i64 (amounts inputs).
Proof.
  unfold totalSum, amounts.
  change 0 with (i64 0) at 1.
  replace (sumZ (map Amount inputs)) with (0 + sumZ (map Amount inputs)) by lia.
  generalize 0.
  induction inputs as [|o inputs IH]; intros a; cbn [fold_left map sumZ fold_right].
  - f_equal. lia.
  - unfold i64_add at 2. rewrite i64_add_idem, IH. f_equal.
    unfold sumZ. lia.
Qed.

Lemma addInputs_TxIn {T} `{CsvSpendableOutput T} (inputs : list T) tx :
  Version (addInputs inputs tx) = Version tx /\
  tx_TxOut (addInputs inputs tx) = tx_TxOut tx /\
  LockTime (addInputs inputs tx) = LockTime tx /\
  tx_TxIn (addInputs inputs tx)
  = tx_TxIn tx ++
    map (fun input => {| PreviousOutPoint := OutPointOf input;
                         SignatureScript := [];
                         Witness := [];
                         Sequence := BlocksToMaturity input |}) inputs.
Proof.
  unfold addInputs. revert tx.
  induction inputs as [|o inputs IH]; intros tx; cbn [fold_left map].
  - rewrite app_nil_r. auto.
  - destruct (IH (AddTxIn tx
                   {| PreviousOutPoint := OutPointOf o; SignatureScript := [];
                      Witness := []; Sequence := BlocksToMaturity o |}))
      as (Hv & Ho & Hl & Hi).
    rewrite Hv, Ho, Hl, Hi. cbn. rewrite <- app_assoc. auto.
Qed.

Lemma addWitnesses_shape {T} `{CsvSpendableOutput T} (inputs : list T)
    idx tx (u : utxoNursery St Env) tx' u' :
  addWitnesses cfg idx inputs tx u = (Ok tx', u') ->
  Version tx' = Version tx /\
  tx_TxOut tx' = tx_TxOut tx /\
  LockTime tx' = LockTime tx /\
  map PreviousOutPoint (tx_TxIn tx') = map PreviousOutPoint (tx_TxIn tx) /\
  map Sequence (tx_TxIn tx') = map Sequence (tx_TxIn tx).
Proof.
  revert idx tx u. induction inputs as [|o inputs IH]; intros idx tx u Hrun;
    cbn [addWitnesses] in Hrun.
  - inversion Hrun; subst. auto.
  - apply bind_Ok_inv in Hrun. destruct Hrun as (w & u1 & _ & Hrest).
    apply IH in Hrest.
    destruct (setWitness_shape tx idx w) as (Hv & Ho & Hl & Hp & Hs).
    destruct Hrest as (Hv' & Ho' & Hl' & Hp' & Hs').
    repeat split; congruence.
Qed.

Lemma spends_of_maps {T} `{CsvSpendableOutput T} (ins : list TxIn) (inputs : list T) :
  map PreviousOutPoint ins = map OutPointOf inputs ->
  map Sequence ins = map BlocksToMaturity inputs ->
  Forall2 spends ins inputs.
Proof.
  revert inputs. induction ins as [|ti ins IH]; intros [|o inputs] Hp Hs;
    try discriminate; constructor.
  - inversion Hp. inversion Hs. split; assumption.
  - inversion Hp. inversion Hs. apply IH; assumption.
Qed.

(** What a successful run of [sweepCsvSpendableOutputsTxn] returns. *)
Lemma sweepCsvSpendableOutputsTxn_Ok {T} `{CsvSpendableOutput T}
    (txWeight : Z) (inputs : list T) (u : utxoNursery St Env) tx u' :
  sweepCsvSpendableOutputsTxn btcd cfg txWeight inputs u = (Ok tx, u') ->
  exists pkScript e1 feePerWeight e2,
    GenSweepScript cfg (env u) = (Ok pkScript, e1) /\
    EstimateFeePerWeight cfg 1 e1 = (feePerWeight, e2) /\
    Version tx = 2 /\
    LockTime tx = 0 /\
    tx_TxOut tx
    = [{| Value := i64 (amounts inputs - i64 (u64_mul txWeight feePerWeight));
          PkScript := pkScript |}] /\
    Forall2 spends (tx_TxIn tx) inputs.
Proof.
  unfold sweepCsvSpendableOutputsTxn. intros Hrun.
  apply bind_Ok_inv in Hrun. destruct Hrun as (pk & u1 & Hgen & Hrun).
  apply bind_Ok_inv in Hrun. destruct Hrun as (rate & u2 & Hest & Hrun).
  apply bind_Ok_inv in Hrun. destruct Hrun as ([] & u3 & Hsan & Hrun).
  unfold onEnv in Hgen, Hest.
  destruct (GenSweepScript cfg (env u)) as [[pk'|x] e1] eqn:Hg; inversion Hgen; subst.
  cbn [env] in Hest.
  destruct (EstimateFeePerWeight cfg 1 e1) as [rate' e2] eqn:He.
  inversion Hest; subst.
  exists pk, e1, rate, e2.
  split; [first [exact Hg | reflexivity] | split; [first [exact He | reflexivity] |]].
  apply addWitnesses_shape in Hrun.
  destruct Hrun as (Hv & Ho & Hl & Hp & Hs).
  match type of Hv with
  | _ = Version (addInputs _ ?skel) =>
      destruct (addInputs_TxIn inputs skel) as (Hv0 & Ho0 & Hl0 & Hi0)
  end.
  rewrite Hv0 in Hv. rewrite Ho0 in Ho. rewrite Hl0 in Hl.
  rewrite Hi0 in Hp, Hs. cbn in Hv, Ho, Hl, Hp, Hs.
  rewrite map_map in Hp, Hs. cbn in Hp, Hs.
  repeat split; try assumption.
  - rewrite Ho, totalSum_amounts. unfold i64_sub. now rewrite i64_sub_idem.
  - apply spends_of_maps; assumption.
Qed.

End SweepBuilder.

(** The trace is a record of what happened; nothing reads it. *)

Section TraceBlind.

Context {St Env : Type}.
Variable btcd : Btcd.
Variable cfg : NurseryConfig St Env.

Lemma trace_blind_ret {A} (a : A) : trace_blind (St:=St) (Env:=Env) (ret a).
Proof. intros u v Huv. split; [reflexivity | exact Huv]. Qed.

Lemma trace_blind_lift {A} (r : result A) :
  trace_blind (St:=St) (Env:=Env) (lift r).
Proof. intros u v Huv. split; [reflexivity | exact Huv]. Qed.

Lemma trace_blind_bind {A B} (c : M (utxoNursery St Env) A)
    (k : A -> M (utxoNursery St Env) B) :
  trace_blind c -> (forall a, trace_blind (k a)) -> trace_blind (bind c k).
Proof.
  intros Hc Hk u v Huv. unfold bind.
  destruct (Hc u v Huv) as [Hr Hs].
  destruct (c u) as [[a|e] u1], (c v) as [[a'|e'] v1]; cbn in Hr, Hs;
    inversion Hr; subst.
  - apply Hk. exact Hs.
  - split; [reflexivity | exact Hs].
Qed.

Lemma trace_blind_onEnv {A} ev (c : M Env A) :
  trace_blind (St:=St) (onEnv ev c).
Proof.
  intros u v (Hs & He & Hh). unfold onEnv. rewrite He.
  destruct (c (env v)) as [r e']. cbn. repeat split; assumption.
Qed.

Lemma trace_blind_addWitnesses {T} `{CsvSpendableOutput T} (inputs : list T) idx tx :
  trace_blind (addWitnesses cfg idx inputs tx).
Proof.
  revert idx tx. induction inputs as [|o inputs IH]; intros idx tx;
    cbn [addWitnesses].
  - apply trace_blind_ret.
  - apply trace_blind_bind; [apply trace_blind_onEnv | intros w; apply IH].
Qed.

Lemma trace_blind_sweepCsvSpendableOutputsTxn {T} `{CsvSpendableOutput T}
    w (inputs : list T) :
  trace_blind (sweepCsvSpendableOutputsTxn btcd cfg w inputs).
Proof.
  unfold sweepCsvSpendableOutputsTxn.
  apply trace_blind_bind; [apply trace_blind_onEnv | intros pk].
  apply trace_blind_bind; [apply trace_blind_onEnv | intros rate].
  apply trace_blind_bind; [apply trace_blind_lift | intros _].
  apply trace_blind_addWitnesses.
Qed.

End TraceBlind.

Section SweepClaims.

Context {St Env : Type}.
Variable lw : Consts.
Variable btcd : Btcd.
Variable cfg : NurseryConfig St Env.

Lemma witnessWeight_recognized k :
  witnessWeight lw (WitnessType k)
  = if recognized lw k then Some (witness_weight lw (WitnessType k)) else None.
Proof.
  unfold witnessWeight, recognized, witness_weight.
  destruct (WitnessType k =? CommitmentTimeLock lw); [reflexivity |].
  destruct (WitnessType k =? HtlcOfferedTimeout lw); reflexivity.
Qed.

Lemma logged_nil (u : utxoNursery St Env) : logged u [] = u.
Proof. destruct u. unfold logged. cbn. now rewrite app_nil_r. Qed.

Lemma logged_logged (u : utxoNursery St Env) evs evs' :
  logged (logged u evs) evs' = logged u (evs ++ evs').
Proof. unfold logged. cbn. now rewrite app_assoc. Qed.

(** The loop of [createSweepTx]: the recognized outputs are appended in
    order, the weight grows by their share, the others are logged. *)
Lemma gatherInputs_run kids w inputs (u : utxoNursery St Env) :
  gatherInputs lw kids (u64 w) inputs u
  = (Ok (u64 (w + sumZ (map (fun k => 4 * InputSize lw
                                      + witness_weight lw (WitnessType k))
                          (List.filter (recognized lw) kids))),
         inputs ++ List.filter (recognized lw) kids),
     logged u (warnings lw kids)).
Proof.
  revert w inputs u. induction kids as [|k kids IH]; intros w inputs u.
  - cbn. rewrite Z.add_0_r, app_nil_r. fold (logged u []).
    now rewrite logged_nil.
  - cbn [gatherInputs]. rewrite witnessWeight_recognized.
    unfold warnings. cbn [List.filter].
    destruct (recognized lw k) eqn:Hk; cbn [negb map sumZ fold_right].
    + rewrite !u64_add_mod, IH. fold (warnings lw kids).
      rewrite <- app_assoc. cbn [app]. unfold sumZ.
      rewrite <- !Z.add_assoc. reflexivity.
    + unfold bind, emit. fold (logged u [EvWarnf (WitnessType k)]).
      rewrite IH, logged_logged. reflexivity.
Qed.

Lemma recognized_filter_idem kids :
  List.filter (recognized lw) (List.filter (recognized lw) kids)
  = List.filter (recognized lw) kids.
Proof.
  induction kids as [|k kids IH]; [reflexivity |]. cbn [List.filter].
  destruct (recognized lw k) eqn:Hk; [| exact IH].
  cbn [List.filter]. rewrite Hk. now f_equal.
Qed.

Lemma warnings_accepted kids :
  warnings lw (List.filter (recognized lw) kids) = [].
Proof.
  unfold warnings. induction kids as [|k kids IH]; [reflexivity |].
  cbn [List.filter]. destruct (recognized lw k) eqn:Hk; [| exact IH].
  cbn [List.filter]. rewrite Hk. exact IH.
Qed.

Lemma createSweepTx_run kids (u : utxoNursery St Env) :
  createSweepTx lw btcd cfg kids u
  = sweepCsvSpendableOutputsTxn btcd cfg
      (u64 (weightEstimate lw (List.filter (recognized lw) kids)))
      (List.filter (recognized lw) kids)
      (logged u (warnings lw kids)).
Proof.
  unfold createSweepTx, u64_add. rewrite Z.add_0_l.
  erewrite bind_Ok by apply gatherInputs_run.
  reflexivity.
Qed.

(** C3, as the code has it.  An output whose witness type is neither
    [CommitmentTimeLock] nor [HtlcOfferedTimeout] is skipped with a
    warning: [createSweepTx] is the sweep builder run on the recognized
    outputs only, with the weight estimated from them only, one warning
    having been logged for each of the others.  The builder goes on
    with the recognized outputs: its outcome is that of [createSweepTx]
    on them alone (same result, same effect on the collaborators), so
    it returns a sweep transaction for them whenever it does so for
    them alone; and the inputs of a returned transaction are the
    recognized outputs, one for one. *)
Theorem unknown_witness_types_skipped (kgtnOutputs : list kidOutput)
    (u : utxoNursery St Env) :
  let accepted := List.filter (recognized lw) kgtnOutputs in
  createSweepTx lw btcd cfg kgtnOutputs u
  = sweepCsvSpendableOutputsTxn btcd cfg (u64 (weightEstimate lw accepted))
      accepted (logged u (warnings lw kgtnOutputs)) /\
  fst (createSweepTx lw btcd cfg kgtnOutputs u)
  = fst (createSweepTx lw btcd cfg accepted u) /\
  same_but_trace (snd (createSweepTx lw btcd cfg kgtnOutputs u))
    (snd (createSweepTx lw btcd cfg accepted u)) /\
  forall tx u',
    createSweepTx lw btcd cfg kgtnOutputs u = (Ok tx, u') ->
    Forall2 spends (tx_TxIn tx) accepted.
Proof.
  intros accepted. split; [apply createSweepTx_run |].
  assert (Hblind :
    fst (createSweepTx lw btcd cfg kgtnOutputs u)
    = fst (createSweepTx lw btcd cfg accepted u) /\
    same_but_trace (snd (createSweepTx lw btcd cfg kgtnOutputs u))
      (snd (createSweepTx lw btcd cfg accepted u))).
  { rewrite !createSweepTx_run. subst accepted.
    rewrite recognized_filter_idem, warnings_accepted.
    apply trace_blind_sweepCsvSpendableOutputsTxn.
    unfold same_but_trace, logged. cbn. auto. }
  destruct Hblind as [Hr Hs]. split; [exact Hr | split; [exact Hs |]].
  intros tx u' Hrun. rewrite createSweepTx_run in Hrun.
  apply sweepCsvSpendableOutputsTxn_Ok in Hrun.
  destruct Hrun as (pk & e1 & rate & e2 & _ & _ & _ & _ & _ & Hin).
  exact Hin.
Qed.

(** C2, as the code has it.  A transaction returned by
    [sweepCsvSpendableOutputsTxn] has version 2; it has exactly one
    output, which pays to the script [GenSweepScript] generated in this
    call the sum of the input amounts minus the computed fee, taken in
    [int64] arithmetic (reduced modulo [2^64] into the [int64] range),
    hence exactly that difference whenever it fits an [int64]; and it
    has exactly one input per given output, in order, spending that
    output's outpoint with the output's [BlocksToMaturity] as sequence
    number. *)
Theorem sweep_transaction_shape {T} `{CsvSpendableOutput T} (txWeight : Z)
    (inputs : list T) (u : utxoNursery St Env) tx u' :
  sweepCsvSpendableOutputsTxn btcd cfg txWeight inputs u = (Ok tx, u') ->
  exists pkScript e1 feePerWeight e2,
    GenSweepScript cfg (env u) = (Ok pkScript, e1) /\
    EstimateFeePerWeight cfg 1 e1 = (feePerWeight, e2) /\
    let txFee := i64 (u64_mul txWeight feePerWeight) in
    Version tx = 2 /\
    tx_TxOut tx
    = [{| Value := i64 (amounts inputs - txFee); PkScript := pkScript |}] /\
    (is_i64 (amounts inputs - txFee) ->
     tx_TxOut tx
     = [{| Value := amounts inputs - txFee; PkScript := pkScript |}]) /\
    Forall2 spends (tx_TxIn tx) inputs.
Proof.
  intros Hrun. apply sweepCsvSpendableOutputsTxn_Ok in Hrun.
  destruct Hrun as (pk & e1 & rate & e2 & Hg & He & Hv & _ & Ho & Hin).
  exists pk, e1, rate, e2. cbv zeta.
  repeat split; try assumption.
  intros Hfit. rewrite Ho, (i64_id _ Hfit). reflexivity.
Qed.

(** C5, as the code has it.  The weight [createSweepTx] estimates is
    [4 * BaseSweepTxSize + WitnessHeaderSize] plus, for each accepted
    input, [4 * InputSize] plus the witness weight of its type, as a
    [uint64] (reduced modulo [2^64]; exactly that sum when it fits).
    The fee subtracted from the output value is this weight times the
    estimator's rate, the product being taken in [uint64] arithmetic
    and read as an [int64] amount: it is the product reduced modulo
    [2^64] into the [int64] range, hence exactly the product whenever
    that fits an [int64]. *)
Theorem fee_from_weight_estimate (kgtnOutputs : list kidOutput)
    (u : utxoNursery St Env) :
  let accepted := List.filter (recognized lw) kgtnOutputs in
  let weight := weightEstimate lw accepted in
  fst (gatherInputs lw kgtnOutputs
         (u64_add 0 (4 * BaseSweepTxSize lw + WitnessHeaderSize lw)) [] u)
  = Ok (u64 weight, accepted) /\
  (is_u64 weight -> u64 weight = weight) /\
  forall tx u',
    createSweepTx lw btcd cfg kgtnOutputs u = (Ok tx, u') ->
    exists pkScript e1 feePerWeight e2,
      GenSweepScript cfg (env u) = (Ok pkScript, e1) /\
      EstimateFeePerWeight cfg 1 e1 = (feePerWeight, e2) /\
      tx_TxOut tx
      = [{| Value := i64 (amounts accepted - i64 (weight * feePerWeight));
            PkScript := pkScript |}] /\
      (is_i64 (weight * feePerWeight) ->
       tx_TxOut tx
       = [{| Value := i64 (amounts accepted - weight * feePerWeight);
             PkScript := pkScript |}]).
Proof.
  intros accepted weight. split; [| split].
  - unfold u64_add. rewrite Z.add_0_l, gatherInputs_run. reflexivity.
  - apply u64_id.
  - intros tx u' Hrun. rewrite createSweepTx_run in Hrun.
    apply sweepCsvSpendableOutputsTxn_Ok in Hrun.
    destruct Hrun as (pk & e1 & rate & e2 & Hg & He & _ & _ & Ho & _).
    exists pk, e1, rate, e2. fold accepted weight in Ho.
    rewrite u64_mul_u64, i64_of_u64 in Ho.
    repeat split; try assumption.
    intros Hfit. rewrite Ho, (i64_id _ Hfit). reflexivity.
Qed.

End SweepClaims.

(** One recognized output and one of witness type 7: the returned
    transaction spends the recognized one only. *)
Lemma unknown_witness_types_skipped_witness :
  let u := Demo.nursery SpecStore.empty (Demo.world 1 [] []) in
  let out := createSweepTx Demo.lw Demo.btcd (Demo.cfg 1 6) Demo.mixed_kids u in
  out = (Ok (returned out), snd out) /\
  Forall2 spends (tx_TxIn (returned out)) [Demo.kid 1 500000 0 144 100].
Proof.
  intros u out.
  assert (Hout : out = (Ok (returned out), snd out)) by (vm_compute; reflexivity).
  split; [exact Hout |].
  exact (proj2 (proj2 (proj2 (unknown_witness_types_skipped Demo.lw Demo.btcd
                                (Demo.cfg 1 6) Demo.mixed_kids u)))
           (returned out) (snd out) Hout).
Defined.

(** A class whose only output is of witness type 7: the output is
    skipped with a warning, the transaction is left without inputs, and
    the builder returns the error of the sanity check. *)
Lemma only_unknown_outputs_abort :
  let u := Demo.nursery SpecStore.empty (Demo.world 1 [] []) in
  let out := createSweepTx Demo.lw Demo.btcd (Demo.cfg 1 6)
               [Demo.kid 2 1000 7 144 100] u in
  fst out = Err "transaction has no inputs"%string /\
  events_since u (snd out)
  = [EvWarnf 7; EvGenSweepScript; EvEstimateFeePerWeight 1] /\
  ~ exists tx, fst out = Ok tx.
Proof.
  intros u out.
  assert (Herr : fst out = Err "transaction has no inputs"%string)
    by (vm_compute; reflexivity).
  split; [exact Herr | split; [vm_compute; reflexivity |]].
  intros [tx Htx]. rewrite Herr in Htx. discriminate Htx.
Qed.

(** Four outputs worth [2^64 + 500000] in all, weight 1000 at rate 1: the
    transaction passes the sanity check and pays 499000. *)
Lemma sweep_amount_wraps :
  let u := Demo.nursery SpecStore.empty (Demo.world 1 [] []) in
  let out := sweepCsvSpendableOutputsTxn Demo.btcd (Demo.cfg 1 6) 1000
               Demo.huge_kids u in
  exists tx o,
    fst out = Ok tx /\ tx_TxOut tx = [o] /\ Value o = 499000 /\
    amounts Demo.huge_kids - i64 (u64_mul 1000 1) = 2 ^ 64 + 499000 /\
    Value o <> amounts Demo.huge_kids - i64 (u64_mul 1000 1).
Proof.
  intros u out.
  exists (returned out), {| Value := 499000; PkScript := x00 :: x14 :: repeat x01 20 |}.
  split; [vm_compute; reflexivity |].
  split; [vm_compute; reflexivity |].
  split; [reflexivity |].
  split; [vm_compute; reflexivity |].
  vm_compute. discriminate.
Qed.

(** An ordinary output, weight 486 at rate 2. *)
Lemma sweep_transaction_shape_witness :
  let u := Demo.nursery SpecStore.empty (Demo.world 2 [] []) in
  let out := sweepCsvSpendableOutputsTxn Demo.btcd (Demo.cfg 1 6) 486
               Demo.one_kid u in
  out = (Ok (returned out), snd out) /\
  exists pkScript e1 feePerWeight e2,
    Demo.GenSweepScript (env u) = (Ok pkScript, e1) /\
    Demo.EstimateFeePerWeight 1 e1 = (feePerWeight, e2) /\
    let txFee := i64 (u64_mul 486 feePerWeight) in
    Version (returned out) = 2 /\
    tx_TxOut (returned out)
    = [{| Value := i64 (amounts Demo.one_kid - txFee); PkScript := pkScript |}] /\
    (is_i64 (amounts Demo.one_kid - txFee) ->
     tx_TxOut (returned out)
     = [{| Value := amounts Demo.one_kid - txFee; PkScript := pkScript |}]) /\
    Forall2 spends (tx_TxIn (returned out)) Demo.one_kid.
Proof.
  intros u out.
  assert (Hout : out = (Ok (returned out), snd out)) by (vm_compute; reflexivity).
  split; [exact Hout |].
  exact (sweep_transaction_shape Demo.btcd (Demo.cfg 1 6) 486 Demo.one_kid u
           (returned out) (snd out) Hout).
Defined.

(** An ordinary output and an estimator asking [2^63] per weight unit:
    the weight is 486, the fee subtracted is 0. *)
Lemma fee_product_wraps :
  let u := Demo.nursery SpecStore.empty (Demo.world (2 ^ 63) [] []) in
  let out := createSweepTx Demo.lw Demo.btcd (Demo.cfg 1 6) Demo.one_kid u in
  exists tx o,
    fst out = Ok tx /\ tx_TxOut tx = [o] /\
    weightEstimate Demo.lw Demo.one_kid = 486 /\
    amounts Demo.one_kid - Value o = 0 /\
    amounts Demo.one_kid - Value o <> weightEstimate Demo.lw Demo.one_kid * 2 ^ 63.
Proof.
  intros u out.
  exists (returned out), {| Value := 500000; PkScript := x00 :: x14 :: repeat x01 20 |}.
  split; [vm_compute; reflexivity |].
  split; [vm_compute; reflexivity |].
  split; [reflexivity |].
  split; [reflexivity |].
  vm_compute. discriminate.
Qed.

(** The same output at rate 2: weight 486, fee 972. *)
Lemma fee_from_weight_estimate_witness :
  let u := Demo.nursery SpecStore.empty (Demo.world 2 [] []) in
  let out := createSweepTx Demo.lw Demo.btcd (Demo.cfg 1 6) Demo.one_kid u in
  is_u64 (weightEstimate Demo.lw Demo.one_kid) /\
  u64 (weightEstimate Demo.lw Demo.one_kid) = 486 /\
  out = (Ok (returned out), snd out) /\
  exists pkScript e1 feePerWeight e2,
    Demo.GenSweepScript (env u) = (Ok pkScript, e1) /\
    Demo.EstimateFeePerWeight 1 e1 = (feePerWeight, e2) /\
    tx_TxOut (returned out)
    = [{| Value := i64 (amounts Demo.one_kid - i64 (486 * feePerWeight));
          PkScript := pkScript |}] /\
    (is_i64 (486 * feePerWeight) ->
     tx_TxOut (returned out)
     = [{| Value := i64 (amounts Demo.one_kid - 486 * feePerWeight);
           PkScript := pkScript |}]).
Proof.
  intros u out.
  assert (Hw : is_u64 (weightEstimate Demo.lw Demo.one_kid))
    by (vm_compute; split; [discriminate | reflexivity]).
  assert (Hout : out = (Ok (returned out), snd out)) by (vm_compute; reflexivity).
  destruct (fee_from_weight_estimate Demo.lw Demo.btcd (Demo.cfg 1 6)
              Demo.one_kid u) as (_ & Hexact & Hfee).
  split; [exact Hw |].
  split; [exact (Hexact Hw) |].
  split; [exact Hout |].
  exact (Hfee (returned out) (snd out) Hout).
Defined.

(** ** The codec *)

Module wireFacts.

Lemma Write_run p w : Write p w = (Ok tt, w ++ p).
Proof. reflexivity. Qed.

Lemma copy_exact (p bs rest : list byte) :
  length p = length bs -> copy p (bs ++ rest) = bs.
Proof.
  intros Hlen. unfold copy.
  rewrite length_app, Nat.min_l by lia.
  rewrite Hlen, take_app_length, drop_ge by lia.
  apply app_nil_r.
Qed.

Lemma Read_exact (p bs rest : list byte) :
  length p = length bs -> bs <> [] ->
  Read p (bs ++ rest) = (Ok bs, rest).
Proof.
  intros Hlen Hne. unfold Read.
  destruct (bs ++ rest) as [|b l] eqn:Hl.
  - destruct bs; [contradiction | discriminate Hl].
  - rewrite <- Hl, (copy_exact _ _ _ Hlen), Hlen, drop_app_length.
    reflexivity.
Qed.

Lemma ReadFull_exact (bs rest : list byte) :
  ReadFull (length bs) (bs ++ rest) = (Ok bs, rest).
Proof.
  unfold ReadFull.
  assert (Hlt : (length (bs ++ rest) <? length bs)%nat = false).
  { apply Nat.ltb_ge. rewrite length_app. lia. }
  destruct (length bs =? 0)%nat eqn:H0.
  - apply Nat.eqb_eq in H0. destruct bs; [reflexivity | discriminate H0].
  - destruct (bs ++ rest) as [|c l] eqn:Hl.
    + destruct bs; [discriminate H0 | discriminate Hl].
    + rewrite Hlt, <- Hl, take_app_length, drop_app_length. reflexivity.
Qed.

(** A reader that takes exactly [bs] off any stream does so through a
    [LimitReader] wide enough. *)
Lemma LimitReader_exact {A} (n : nat) (f : M Reader A) (bs rest : list byte) a :
  (forall tail, f (bs ++ tail) = (Ok a, tail)) ->
  (length bs <= n)%nat ->
  LimitReader n f (bs ++ rest) = (Ok a, rest).
Proof.
  intros Hf Hn. unfold LimitReader.
  rewrite take_app_ge by exact Hn.
  rewrite Hf, length_app. 
  replace (length bs + length (take (n - length bs) rest)
           - length (take (n - length bs) rest))%nat with (length bs) by lia.
  rewrite drop_app_length. reflexivity.
Qed.

Lemma ReadVarBytes_hash (h : Hash) tail :
  wf_Hash h -> ReadVarBytes 32 (x20 :: h ++ tail) = (Ok h, tail).
Proof.
  intros Hh. unfold ReadVarBytes, ReadVarInt.
  change (x20 :: h ++ tail) with ([x20] ++ (h ++ tail)).
  erewrite bind_Ok.
  2:{ erewrite bind_Ok by (apply (ReadFull_exact [x20])). reflexivity. }
  cbn [Z.ltb Z.compare Pos.compare Pos.compare_cont].
  change (Z.to_nat (at_ [x20] 0)) with 32%nat.
  rewrite <- Hh. apply ReadFull_exact.
Qed.

End wireFacts.

Section CodecFacts.

Import wireFacts.

Variable sd_encode : SignDescriptor -> result (list byte).
Variable ReadSignDescriptor : SignDescriptor -> M Reader SignDescriptor.
Variable tx_encode : MsgTx -> result (list byte).
Variable Deserialize : MsgTx -> M Reader MsgTx.

(** The borrowed serializers are taken to be sound: what the writer
    emitted, the reader reads back, whatever follows in the stream and
    whatever the value it fills held before. *)
Hypothesis sign_descriptor_round_trip :
  forall sd bs, sd_encode sd = Ok bs ->
    forall sd0 rest, ReadSignDescriptor sd0 (bs ++ rest) = (Ok sd, rest).
Hypothesis transaction_round_trip :
  forall tx bs, tx_encode tx = Ok bs ->
    forall tx0 rest, Deserialize tx0 (bs ++ rest) = (Ok tx, rest).

Lemma byte_32 (h : Hash) : wf_Hash h -> byte_of_Z (Z.of_nat (length h)) = x20.
Proof. unfold wf_Hash. intros ->. reflexivity. Qed.

Lemma Uint32_big_endian v : is_u32 v -> Uint32 (big_endian 4 v) = v.
Proof.
  intros Hv. rewrite <- PutUint32_big_endian, Uint32_PutUint32.
  apply u32_id. exact Hv.
Qed.

Lemma Uint16_big_endian v : is_u16 v -> Uint16 (big_endian 2 v) = v.
Proof.
  intros Hv. rewrite <- PutUint16_big_endian, Uint16_PutUint16.
  apply u16_id. exact Hv.
Qed.

Lemma writeOutpoint_run o w :
  wf_OutPoint o -> writeOutpoint o w = (Ok tt, w ++ layout_outpoint o).
Proof.
  intros [Hh _]. unfold writeOutpoint, WriteVarBytes, WriteVarInt, layout_outpoint.
  rewrite (byte_32 _ Hh). unfold wf_Hash in Hh. rewrite Hh.
  change (Z.of_nat 32 <? 253) with true. cbv iota.
  change (byte_of_Z (Z.of_nat 32)) with x20.
  unfold bind, Write. rewrite PutUint32_big_endian, <- !app_assoc.
  reflexivity.
Qed.

Lemma readOutpoint_layout o o0 tail :
  wf_OutPoint o -> wf_Hash (op_Hash o0) ->
  readOutpoint o0 (layout_outpoint o ++ tail) = (Ok o, tail).
Proof.
  intros [Hh Hi] H0. unfold readOutpoint, layout_outpoint.
  rewrite (byte_32 _ Hh). cbn [app]. rewrite <- app_assoc.
  erewrite bind_Ok by (apply ReadVarBytes_hash; exact Hh).
  erewrite bind_Ok.
  2:{ apply Read_exact; [now rewrite big_endian_length | discriminate]. }
  unfold ret. rewrite (Uint32_big_endian _ Hi).
  rewrite <- (app_nil_r (op_Hash o)) at 1.
  rewrite copy_exact by (unfold wf_Hash in *; congruence).
  destruct o. reflexivity.
Qed.

Lemma ReadScratch_exact n scratch bs rest :
  length bs = n -> (n <= length scratch)%nat -> bs <> [] ->
  ReadScratch n scratch (bs ++ rest) = (Ok (bs ++ drop n scratch), rest).
Proof.
  intros Hn Hs Hne. unfold ReadScratch.
  erewrite bind_Ok.
  2:{ apply Read_exact; [rewrite length_take; lia | exact Hne]. }
  reflexivity.
Qed.

Lemma kidOutput_Encode_run k w :
  wf_kidOutput k ->
  kidOutput_Encode sd_encode k w
  = match sd_encode (SignDesc k) with
    | Ok sd => (Ok tt, w ++ layout_kid k sd)
    | Err e =>
        (Err e, w ++ big_endian 8 (u64 (Amount k))
                ++ layout_outpoint (OutPointOf k)
                ++ layout_outpoint (OriginChanPoint k)
                ++ big_endian 4 (BlocksToMaturity k)
                ++ big_endian 4 (ConfHeight k)
                ++ big_endian 2 (WitnessType k))
    end.
Proof.
  intros (Ha & Ho & Hc & Hb & Hh & Hw).
  unfold kidOutput_Encode, layout_kid.
  erewrite bind_Ok by apply Write_run.
  erewrite bind_Ok by (apply writeOutpoint_run; exact Ho).
  erewrite bind_Ok by (apply writeOutpoint_run; exact Hc).
  erewrite bind_Ok by apply Write_run.
  erewrite bind_Ok by apply Write_run.
  erewrite bind_Ok by apply Write_run.
  rewrite PutUint64_big_endian, !PutUint32_big_endian, PutUint16_big_endian.
  rewrite (u16_id _ Hw).
  unfold WriteSignDescriptor.
  destruct (sd_encode (SignDesc k)) as [sd|e]; unfold fail; rewrite ?Write_run;
    rewrite <- !app_assoc; reflexivity.
Qed.

Lemma kidOutput_Decode_layout k sd k0 rest :
  wf_kidOutput k -> sd_encode (SignDesc k) = Ok sd -> wf_receiver k0 ->
  kidOutput_Decode ReadSignDescriptor k0 (layout_kid k sd ++ rest) = (Ok k, rest).
Proof.
  intros (Ha & Ho & Hc & Hb & Hh & Hw) Hsd [H1 H2].
  unfold kidOutput_Decode, layout_kid. rewrite <- !app_assoc.
  erewrite bind_Ok.
  2:{ apply Read_exact; [now rewrite big_endian_length | discriminate]. }
  erewrite bind_Ok.
  2:{ apply LimitReader_exact.
      - intros tail. apply readOutpoint_layout; [exact Ho | exact H1].
      - destruct Ho as [Ho _]. unfold layout_outpoint, wf_Hash in *.
        cbn [length]. rewrite length_app, Ho, big_endian_length. lia. }
  erewrite bind_Ok.
  2:{ apply LimitReader_exact.
      - intros tail. apply readOutpoint_layout; [exact Hc | exact H2].
      - destruct Hc as [Hc _]. unfold layout_outpoint, wf_Hash in *.
        cbn [length]. rewrite length_app, Hc, big_endian_length. lia. }
  erewrite bind_Ok.
  2:{ apply ReadScratch_exact;
        [apply big_endian_length | rewrite big_endian_length; lia | discriminate]. }
  erewrite bind_Ok.
  2:{ apply ReadScratch_exact;
        [apply big_endian_length
        | rewrite length_app, big_endian_length, length_drop, big_endian_length; lia
        | discriminate]. }
  erewrite bind_Ok.
  2:{ apply ReadScratch_exact;
        [apply big_endian_length
        | rewrite length_app, big_endian_length, length_drop, length_app,
            big_endian_length, length_drop, big_endian_length; lia
        | discriminate]. }
  erewrite bind_Ok by (apply sign_descriptor_round_trip; exact Hsd).
  unfold ret.
  rewrite <- PutUint64_big_endian, Uint64_PutUint64.
  change (u64 (u64 (Amount k))) with ((Amount k mod 2 ^ 64) mod 2 ^ 64).
  rewrite Zmod_mod. fold (u64 (Amount k)). rewrite (i64_u64 _ Ha).
  rewrite !(take_app_length' _ _ 4) by (now rewrite big_endian_length).
  rewrite (take_app_length' _ _ 2) by (now rewrite big_endian_length).
  rewrite (Uint32_big_endian _ Hb), (Uint32_big_endian _ Hh),
    (Uint16_big_endian _ Hw).
  destruct k as [[a o wt s] oc b c]. reflexivity.
Qed.

(** C9.  The bytes [Encode] produces for a kid output are the fields in
    the order of the spec's record (amount on 8 bytes, outpoint, origin
    channel point, blocks-to-maturity and confirmation height on 4
    bytes each, witness type on 2 bytes, sign descriptor), every integer
    big-endian; reading them back with [Decode], into any receiver and
    whatever follows in the stream, gives the output again, equal in
    all its fields, and leaves the stream right after the record.  The
    same holds for a baby output, whose record starts with the expiry
    on 4 bytes and the timeout transaction. *)
Theorem codec_round_trip :
  (forall k w w',
     wf_kidOutput k ->
     kidOutput_Encode sd_encode k w = (Ok tt, w') ->
     exists sd,
       sd_encode (SignDesc k) = Ok sd /\
       w' = w ++ layout_kid k sd /\
       forall k0 rest,
         wf_receiver k0 ->
         kidOutput_Decode ReadSignDescriptor k0 (layout_kid k sd ++ rest)
         = (Ok k, rest)) /\
  (forall b w w',
     wf_babyOutput b ->
     babyOutput_Encode sd_encode tx_encode b w = (Ok tt, w') ->
     exists tx sd,
       tx_encode (timeoutTx b) = Ok tx /\
       sd_encode (SignDesc b) = Ok sd /\
       w' = w ++ layout_baby b tx sd /\
       forall b0 rest,
         wf_receiver (baby_kidOutput b0) ->
         babyOutput_Decode ReadSignDescriptor Deserialize b0
           (layout_baby b tx sd ++ rest)
         = (Ok b, rest)).
Proof.
  split.
  - intros k w w' Hk Henc. rewrite (kidOutput_Encode_run _ _ Hk) in Henc.
    destruct (sd_encode (SignDesc k)) as [sd|e] eqn:Hsd; [| discriminate Henc].
    exists sd. inversion Henc. split; [reflexivity | split; [reflexivity |]].
    intros k0 rest Hk0. apply kidOutput_Decode_layout; assumption.
  - intros b w w' [He Hk] Henc. unfold babyOutput_Encode in Henc.
    erewrite bind_Ok in Henc by apply Write_run.
    unfold Serialize, bind at 1 in Henc.
    destruct (tx_encode (timeoutTx b)) as [tx|e] eqn:Htx; [| discriminate Henc].
    rewrite Write_run, (kidOutput_Encode_run _ _ Hk) in Henc.
    destruct (sd_encode (SignDesc (baby_kidOutput b))) as [sd|e] eqn:Hsd;
      [| discriminate Henc].
    exists tx, sd. inversion Henc.
    split; [reflexivity | split; [exact Hsd | split]].
    + unfold layout_baby. rewrite PutUint32_big_endian, <- !app_assoc.
      reflexivity.
    + intros b0 rest Hb0. unfold babyOutput_Decode, layout_baby.
      rewrite <- !app_assoc.
      erewrite bind_Ok.
      2:{ apply Read_exact; [now rewrite big_endian_length | discriminate]. }
      erewrite bind_Ok by (apply transaction_round_trip; exact Htx).
      erewrite bind_Ok by (apply kidOutput_Decode_layout; eassumption).
      unfold ret. rewrite (Uint32_big_endian _ He).
      destruct b. reflexivity.
Qed.

End CodecFacts.

Lemma Demo_sign_descriptor_round_trip sd bs :
  Demo.sd_encode sd = Ok bs ->
  forall sd0 rest, Demo.ReadSignDescriptor sd0 (bs ++ rest) = (Ok sd, rest).
Proof.
  unfold Demo.sd_encode. destruct (decide (sd = Demo.sd 500000)) as [->|];
    intros H; inversion H; subst. intros sd0 rest. reflexivity.
Qed.

Lemma Demo_transaction_round_trip tx bs :
  Demo.tx_encode tx = Ok bs ->
  forall tx0 rest, Demo.Deserialize tx0 (bs ++ rest) = (Ok tx, rest).
Proof.
  unfold Demo.tx_encode. destruct (decide (tx = Demo.timeout 7)) as [->|];
    intros H; inversion H; subst. intros tx0 rest. reflexivity.
Qed.

(** The commitment output of scenario S1 and a baby output, written to
    an empty buffer and read back into zero values. *)
Lemma codec_round_trip_witness :
  let k := Demo.kid 1 500000 0 144 100 in
  let b := babyOf Demo.lw Demo.btcd Demo.htlc_summary (Demo.htlc 7 500000 200) in
  wf_kidOutput k /\ wf_babyOutput b /\
  wf_receiver Demo.zero_kid /\
  (exists sd,
     snd (kidOutput_Encode Demo.sd_encode k []) = [] ++ layout_kid k sd /\
     kidOutput_Decode Demo.ReadSignDescriptor Demo.zero_kid
       (layout_kid k sd ++ [xff]) = (Ok k, [xff])) /\
  (exists tx sd,
     snd (babyOutput_Encode Demo.sd_encode Demo.tx_encode b [])
     = [] ++ layout_baby b tx sd /\
     babyOutput_Decode Demo.ReadSignDescriptor Demo.Deserialize Demo.zero_baby
       (layout_baby b tx sd ++ [xff]) = (Ok b, [xff])).
Proof.
  intros k b.
  assert (Hk : wf_kidOutput k).
  { unfold wf_kidOutput, wf_OutPoint, wf_Hash, is_i64, is_u32, is_u16.
    cbn. repeat split; lia. }
  assert (Hb : wf_babyOutput b).
  { unfold wf_babyOutput, wf_kidOutput, wf_OutPoint, wf_Hash, is_i64, is_u32, is_u16.
    cbn. repeat split; lia. }
  assert (Hz : wf_receiver Demo.zero_kid) by (split; reflexivity).
  split; [exact Hk | split; [exact Hb | split; [exact Hz |]]].
  pose proof (codec_round_trip Demo.sd_encode Demo.ReadSignDescriptor
                Demo.tx_encode Demo.Deserialize
                Demo_sign_descriptor_round_trip
                Demo_transaction_round_trip) as [Hkid Hbaby].
  split.
  - destruct (Hkid k [] (snd (kidOutput_Encode Demo.sd_encode k [])) Hk
                ltac:(vm_compute; reflexivity)) as (sd & _ & Hw & Hdec).
    exists sd. split; [exact Hw | exact (Hdec Demo.zero_kid [xff] Hz)].
  - destruct (Hbaby b [] (snd (babyOutput_Encode Demo.sd_encode Demo.tx_encode b []))
                Hb ltac:(vm_compute; reflexivity)) as (tx & sd & _ & _ & Hw & Hdec).
    exists tx, sd. split; [exact Hw | exact (Hdec Demo.zero_baby [xff] Hz)].
Defined.

(** ** One sweep transaction per class *)

Section HoareRules.

Context {S : Type}.

Lemma hoare_ret {A} (P : S -> Prop) (a : A) (Q : result A -> S -> Prop) :
  (forall s, P s -> Q (Ok a) s) -> hoare P (ret a) Q.
Proof. intros HQ s r s' HP H. inversion H; subst. apply HQ. exact HP. Qed.

Lemma hoare_bind {A B} (P : S -> Prop) (c : M S A) (k : A -> M S B)
    (Q : result A -> S -> Prop) (R : result B -> S -> Prop) :
  hoare P c Q ->
  (forall e s, Q (Err e) s -> R (Err e) s) ->
  (forall a, hoare (Q (Ok a)) (k a) R) ->
  hoare P (bind c k) R.
Proof.
  intros Hc He Hk s r s' HP H. unfold bind in H.
  destruct (c s) as [[a|e] s1] eqn:Hcs.
  - eapply Hk; [eapply Hc; eassumption | exact H].
  - inversion H; subst. apply He. eapply Hc; eassumption.
Qed.

Lemma hoare_weaken {A} (P P' : S -> Prop) (c : M S A)
    (Q Q' : result A -> S -> Prop) :
  hoare P' c Q' ->
  (forall s, P s -> P' s) -> (forall r s, Q' r s -> Q r s) ->
  hoare P c Q.
Proof. intros Hc HP HQ s r s' Hs H. apply HQ. eapply Hc; eauto. Qed.

End HoareRules.

Section StoreContract.

Import SpecStore.

Lemma same_finalization_refl s : same_finalization s s.
Proof. repeat split. Qed.

Lemma same_finalization_with_faults fs s : same_finalization s (with_faults fs s).
Proof. repeat split. Qed.

Lemma same_finalization_trans s1 s2 s3 :
  same_finalization s1 s2 -> same_finalization s2 s3 -> same_finalization s1 s3.
Proof. unfold same_finalization. intros (?&?&?) (?&?&?). repeat split; congruence. Qed.

(** A store transaction fails and changes nothing but the fault
    schedule, or runs its body once. *)
Lemma atomically_run {A} (op : NurseryState -> A * NurseryState) s r s' :
  atomically op s = (r, s') ->
  (exists e, r = Err e /\ same_finalization s s') \/
  (exists s0 a, same_finalization s s0 /\ op s0 = (a, s') /\ r = Ok a).
Proof.
  unfold atomically. destruct (faults s) as [|[e|] fs] eqn:Hf; intros H.
  - right. destruct (op s) as [a s1] eqn:Hop. inversion H; subst.
    exists s, a. split; [apply same_finalization_refl | auto].
  - left. inversion H; subst. exists e.
    split; [reflexivity | apply same_finalization_with_faults].
  - right. destruct (op (with_faults fs s)) as [a s1] eqn:Hop.
    inversion H; subst. exists (with_faults fs s), a.
    split; [apply same_finalization_with_faults | auto].
Qed.

Lemma FetchClass_contract h s r s' :
  FetchClass h s = (r, s') ->
  same_finalization s s' /\
  forall class, r = Ok class -> fst (fst class) = fstx s !! h.
Proof.
  intros H. apply atomically_run in H.
  destruct H as [(e & -> & Hs) | (s0 & a & Hs & Hop & ->)].
  - split; [exact Hs | discriminate].
  - inversion Hop; subst. split; [exact Hs |].
    intros class Hc. inversion Hc; subst. cbn.
    destruct Hs as (-> & _). reflexivity.
Qed.

Lemma LastFinalizedHeight_contract s r s' :
  LastFinalizedHeight s = (r, s') ->
  same_finalization s s' /\ forall x, r = Ok x -> x = lfh s.
Proof.
  intros H. apply atomically_run in H.
  destruct H as [(e & -> & Hs) | (s0 & a & Hs & Hop & ->)].
  - split; [exact Hs | discriminate].
  - inversion Hop; subst. split; [exact Hs |].
    intros x Hx. inversion Hx; subst. destruct Hs as (_ & _ & ->). reflexivity.
Qed.

Lemma FinalizeKinder_contract h tx s r s' :
  FinalizeKinder h tx s = (r, s') ->
  (same_finalization s s' /\
   (forall x, r = Ok x -> h ∈ finalizedHeights s)) \/
  (r = Ok tt /\ (h ∉ finalizedHeights s) /\
   fstx s' !! h = tx /\
   (forall h', h' <> h -> fstx s' !! h' = fstx s !! h') /\
   finalizedHeights s' = {[h]} ∪ finalizedHeights s /\
   lfh s' = Z.max (lfh s) h).
Proof.
  intros H. apply atomically_run in H.
  destruct H as [(e & -> & Hs) | (s0 & a & Hs & Hop & ->)].
  { left. split; [exact Hs | discriminate]. }
  destruct Hs as (Hf & Hh & Hl).
  destruct (decide (h ∈ finalizedHeights s0)) as [Hin|Hnin]; inversion Hop; subst.
  - left. split; [repeat split; assumption |].
    intros _ _. rewrite <- Hh. exact Hin.
  - right. cbn. rewrite <- Hh, <- Hf, <- Hl.
    repeat split; try assumption.
    + destruct tx; [apply lookup_insert_eq | apply lookup_delete_eq].
    + intros h' Hne. destruct tx;
        [apply lookup_insert_ne | apply lookup_delete_ne]; congruence.
Qed.

Lemma PurgeHeight_contract h s r s' :
  PurgeHeight h s = (r, s') ->
  (forall h' t, fstx s' !! h' = Some t -> fstx s !! h' = Some t) /\
  finalizedHeights s' = finalizedHeights s /\ lfh s' = lfh s.
Proof.
  intros H. apply atomically_run in H.
  destruct H as [(e & -> & (Hf & Hh & Hl)) | (s0 & a & (Hf & Hh & Hl) & Hop & ->)].
  - repeat split; try assumption. intros h' t. now rewrite Hf.
  - inversion Hop; subst. cbn. repeat split; try assumption.
    intros h' t Hl'. rewrite <- Hf.
    destruct (decide (h = h')) as [->|Hne].
    + rewrite lookup_delete_eq in Hl'. discriminate Hl'.
    + rewrite lookup_delete_ne in Hl' by exact Hne. exact Hl'.
Qed.

End StoreContract.

Section BroadcastFrames.

Context {St Env : Type}.
Variable btcd : Btcd.
Variable cfg : NurseryConfig St Env.

Lemma publish_emits P by_ tx :
  P (EvPublishTransaction by_ tx) -> respects (grows P) (publish cfg by_ tx).
Proof.
  intros HP. unfold publish.
  frame_step; [frame_step; frame_step; exact HP |].
  repeat frame_step.
Qed.

Lemma sweepGraduatingKinders_emits P h tx kids :
  P (EvPublishTransaction (graduating_kinders h) tx) ->
  (forall txid n hint, P (EvRegisterConfirmationsNtfn txid n hint)) ->
  (forall t, P (EvGo t)) ->
  respects (grows P) (sweepGraduatingKinders btcd cfg h tx kids).
Proof.
  intros Hp Hr Hg. unfold sweepGraduatingKinders, go_.
  frame_step; [apply publish_emits; exact Hp |].
  frame_step; frame_step; [apply Hr | apply Hg].
Qed.

Lemma sweepCribOutput_emits P h baby :
  P (EvPublishTransaction (crib_output h) (timeoutTx baby)) ->
  (forall txid n hint, P (EvRegisterConfirmationsNtfn txid n hint)) ->
  (forall t, P (EvGo t)) ->
  respects (grows P) (sweepCribOutput cfg h baby).
Proof.
  intros Hp Hr Hg. unfold sweepCribOutput, go_.
  frame_step; [apply publish_emits; exact Hp |].
  frame_step; frame_step; [apply Hr | apply Hg].
Qed.

Lemma publish_same_store by_ tx : respects same_store (publish cfg by_ tx).
Proof. unfold publish. repeat store_step. Qed.

Lemma sweepGraduatingKinders_same_store h tx kids :
  respects same_store (sweepGraduatingKinders btcd cfg h tx kids).
Proof.
  unfold sweepGraduatingKinders, go_.
  store_step; [apply publish_same_store |]. repeat store_step.
Qed.

Lemma sweepCribOutput_same_store h baby :
  respects same_store (sweepCribOutput cfg h baby).
Proof.
  unfold sweepCribOutput, go_.
  store_step; [apply publish_same_store |]. repeat store_step.
Qed.

End BroadcastFrames.

Section SingleTxid.

Context {Env : Type}.
Variable lw : Consts.
Variable btcd : Btcd.
Variable cfg : NurseryConfig SpecStore.NurseryState Env.
Hypothesis cfg_store : Store cfg = SpecStore.ops.

Lemma graduateClass_steps classHeight :
  graduateClass lw btcd cfg classHeight
  = (setCurrentHeight classHeight ;;
     class <- onStore (EvFetchClass classHeight)
                (FetchClass (Store cfg) classHeight) ;;
     lastFinalizedHeight <- onStore EvLastFinalizedHeight
                              (LastFinalizedHeight (Store cfg)) ;;
     finalTx <- finalizeStep lw btcd cfg classHeight (fst (fst class))
                  (snd (fst class)) lastFinalizedHeight ;;
     sweepStep btcd cfg classHeight finalTx (snd (fst class)) ;;
     forEach (snd class) (sweepCribOutput cfg classHeight) ;;
     graduateClass_purge cfg classHeight)%go.
Proof. reflexivity. Qed.

(** Events that are justified on an untouched finalization keep the
    invariant. *)
Lemma pinned_after (u u' : utxoNursery SpecStore.NurseryState Env) :
  pinned u ->
  same_finalization (store u) (store u') ->
  grows (justified (store u)) u u' ->
  pinned u'.
Proof.
  intros (Hok & Hfin & Hheld & Hone) (Hf & Hh & Hl) [evs [Ht Hevs]].
  rewrite List.Forall_forall in Hevs.
  assert (Hcase : forall h tx, sweep_broadcast (trace u') h tx ->
            sweep_broadcast (trace u) h tx \/
            SpecStore.fstx (store u) !! h = Some tx).
  { intros h tx Hin. unfold sweep_broadcast in *. rewrite Ht in Hin.
    apply in_app_or in Hin. destruct Hin as [Hin|Hin]; [left; exact Hin |].
    right. apply (Hevs _ Hin). reflexivity. }
  unfold pinned. split; [| split; [| split]].
  - intros h. destruct (Hok h) as [H1 H2]. rewrite Hf, Hh, Hl.
    split; assumption.
  - intros h tx Hin. rewrite Hh. destruct (Hcase h tx Hin) as [Hold|Hnew].
    + eapply Hfin. exact Hold.
    + apply (Hok h). rewrite Hnew. eexists. reflexivity.
  - intros h tx t Hin Ht'. rewrite Hf in Ht'.
    destruct (Hcase h tx Hin) as [Hold|Hnew].
    + eapply Hheld; eassumption.
    + congruence.
  - intros h tx tx' Hin Hin'.
    destruct (Hcase h tx Hin) as [Hold|Hnew],
             (Hcase h tx' Hin') as [Hold'|Hnew'].
    + eapply Hone; eassumption.
    + symmetry. eapply Hheld; eassumption.
    + eapply Hheld; eassumption.
    + congruence.
Qed.

Lemma justified_other s ev :
  (forall h tx, ev <> EvPublishTransaction (graduating_kinders h) tx) ->
  justified s ev.
Proof. intros Hne h tx Heq. exfalso. eapply Hne. exact Heq. Qed.

(** A routine that leaves the store alone and broadcasts no sweep but
    justified ones keeps the invariant, and any fact about the store. *)
Lemma pinned_frame {A} (c : M (utxoNursery SpecStore.NurseryState Env) A)
    (P : Event -> Prop) (u : utxoNursery SpecStore.NurseryState Env) r u' :
  respects same_store c -> respects (grows P) c ->
  (forall ev, P ev -> justified (store u) ev) ->
  pinned u -> c u = (r, u') ->
  pinned u' /\ store u' = store u.
Proof.
  intros Hs Hg HP Hpin Hrun.
  pose proof (Hs _ _ _ Hrun) as Hss. unfold same_store in Hss.
  split; [| exact Hss].
  eapply pinned_after; [exact Hpin | rewrite Hss; apply same_finalization_refl |].
  eapply grows_weaken; [exact HP | eapply Hg; exact Hrun].
Qed.

(** A store transaction that leaves the finalization alone. *)
Lemma pinned_onStore {A} ev (op : M SpecStore.NurseryState A)
    (u : utxoNursery SpecStore.NurseryState Env) r u' :
  (forall h tx, ev <> EvPublishTransaction (graduating_kinders h) tx) ->
  (forall s x s', op s = (x, s') -> same_finalization s s') ->
  pinned u -> onStore ev op u = (r, u') ->
  pinned u' /\ same_finalization (store u) (store u').
Proof.
  intros Hev Hop Hpin Hrun. unfold onStore in Hrun.
  destruct (op (store u)) as [x s'] eqn:Hx. inversion Hrun; subst.
  pose proof (Hop _ _ _ Hx) as Hsame. split; [| exact Hsame].
  eapply pinned_after; [exact Hpin | exact Hsame |].
  exists [ev]. split; [reflexivity |].
  repeat constructor. apply justified_other. exact Hev.
Qed.

Lemma bind_run {S A B} (c : M S A) (k : A -> M S B) s :
  bind c k s = match c s with
               | (Ok a, s') => k a s'
               | (Err e, s') => (Err e, s')
               end.
Proof. reflexivity. Qed.

Lemma sweep_broadcast_snoc tr ev h tx :
  (forall h' tx', ev <> EvPublishTransaction (graduating_kinders h') tx') ->
  sweep_broadcast (tr ++ [ev]) h tx <-> sweep_broadcast tr h tx.
Proof.
  intros Hne. unfold sweep_broadcast. rewrite in_app_iff. cbn.
  split; [| auto]. intros [H | [H | []]]; [exact H |].
  exfalso. eapply Hne. exact H.
Qed.

Lemma class_event_other s0 h ev :
  ~ finalize_event ev -> ~ sweep_event ev ->
  (forall h' tx, ev <> EvPublishTransaction (graduating_kinders h') tx) ->
  class_event s0 h ev.
Proof.
  intros Hf Hs Hp. repeat split.
  - tauto.
  - intros h' tx ->. exfalso. apply Hf. exact I.
  - exfalso. eapply Hp. eassumption.
  - exfalso. eapply Hp. eassumption.
Qed.

Lemma grows_one P (u u' : utxoNursery SpecStore.NurseryState Env) ev :
  trace u' = trace u ++ [ev] -> P ev -> grows P u u'.
Proof. intros Ht HP. exists [ev]. split; [exact Ht | repeat constructor; exact HP]. Qed.

(** The steps of [graduateClass], one by one: each keeps the invariant
    and adds only events [class_event] allows. *)

Lemma step_fetch s0 h (u : utxoNursery SpecStore.NurseryState Env) r u' :
  pinned u -> same_finalization s0 (store u) ->
  onStore (EvFetchClass h) (FetchClass (Store cfg) h) u = (r, u') ->
  pinned u' /\ same_finalization s0 (store u') /\
  grows (class_event s0 h) u u' /\
  forall class, r = Ok class -> fst (fst class) = SpecStore.fstx s0 !! h.
Proof.
  rewrite cfg_store. cbn [FetchClass SpecStore.ops]. intros Hpin Hs0 Hrun.
  destruct (pinned_onStore (EvFetchClass h) (SpecStore.FetchClass h) u r u')
    as [Hp Hs]; try assumption.
  { discriminate. }
  { intros s x s' Hx. apply (FetchClass_contract _ _ _ _ Hx). }
  unfold onStore in Hrun.
  destruct (SpecStore.FetchClass h (store u)) as [x s'] eqn:Hx.
  inversion Hrun; subst. split; [exact Hp |].
  split; [eapply same_finalization_trans; eassumption |].
  split.
  - eapply grows_one; [reflexivity |].
    apply class_event_other; [cbn; tauto | cbn; tauto | discriminate].
  - intros class Hc. destruct (FetchClass_contract _ _ _ _ Hx) as [_ Hfetch].
    rewrite (Hfetch _ Hc). destruct Hs0 as (-> & _). reflexivity.
Qed.

Lemma step_lfh s0 h (u : utxoNursery SpecStore.NurseryState Env) r u' :
  pinned u -> same_finalization s0 (store u) ->
  onStore EvLastFinalizedHeight (LastFinalizedHeight (Store cfg)) u = (r, u') ->
  pinned u' /\ same_finalization s0 (store u') /\
  grows (class_event s0 h) u u' /\
  forall x, r = Ok x -> x = SpecStore.lfh s0.
Proof.
  rewrite cfg_store. cbn [LastFinalizedHeight SpecStore.ops]. intros Hpin Hs0 Hrun.
  destruct (pinned_onStore EvLastFinalizedHeight SpecStore.LastFinalizedHeight u r u')
    as [Hp Hs]; try assumption.
  { discriminate. }
  { intros s x s' Hx. apply (LastFinalizedHeight_contract _ _ _ Hx). }
  unfold onStore in Hrun.
  destruct (SpecStore.LastFinalizedHeight (store u)) as [x s'] eqn:Hx.
  inversion Hrun; subst. split; [exact Hp |].
  split; [eapply same_finalization_trans; eassumption |].
  split.
  - eapply grows_one; [reflexivity |].
    apply class_event_other; [cbn; tauto | cbn; tauto | discriminate].
  - intros y Hy. destruct (LastFinalizedHeight_contract _ _ _ Hx) as [_ Hl].
    rewrite (Hl _ Hy). destruct Hs0 as (_ & _ & ->). reflexivity.
Qed.

Lemma pinned_finalized (u u' : utxoNursery SpecStore.NurseryState Env) h tx :
  pinned u ->
  h ∉ SpecStore.finalizedHeights (store u) ->
  SpecStore.fstx (store u') !! h = tx ->
  (forall h', h' <> h ->
     SpecStore.fstx (store u') !! h' = SpecStore.fstx (store u) !! h') ->
  SpecStore.finalizedHeights (store u')
  = {[h]} ∪ SpecStore.finalizedHeights (store u) ->
  SpecStore.lfh (store u') = Z.max (SpecStore.lfh (store u)) h ->
  trace u' = trace u ++ [EvFinalizeKinder h tx] ->
  pinned u'.
Proof.
  intros (Hok & Hfin & Hheld & Hone) Hnin Hh Hother HFH Hlfh Ht.
  assert (Hsw : forall h0 t, sweep_broadcast (trace u') h0 t <->
                             sweep_broadcast (trace u) h0 t).
  { intros h0 t. rewrite Ht. apply sweep_broadcast_snoc. discriminate. }
  unfold pinned. split; [| split; [| split]].
  - intros h0. destruct (Hok h0) as [H1 H2]. rewrite HFH, Hlfh. split.
    + intros Hsome. destruct (decide (h0 = h)) as [->|Hne].
      * apply elem_of_union_l, elem_of_singleton. reflexivity.
      * rewrite (Hother _ Hne) in Hsome. apply elem_of_union_r, H1, Hsome.
    + intros Hin. apply elem_of_union in Hin. destruct Hin as [Hin|Hin].
      * apply elem_of_singleton in Hin. lia.
      * specialize (H2 Hin). lia.
  - intros h0 t Hin. apply Hsw in Hin. rewrite HFH.
    apply elem_of_union_r. eapply Hfin. exact Hin.
  - intros h0 t t' Hin Hl. apply Hsw in Hin.
    assert (Hne : h0 <> h).
    { intros ->. apply Hnin. eapply Hfin. exact Hin. }
    rewrite (Hother _ Hne) in Hl. eapply Hheld; eassumption.
  - intros h0 t t' Hin Hin'. apply Hsw in Hin. apply Hsw in Hin'.
    eapply Hone; eassumption.
Qed.

Lemma step_finalize s0 h ftx kids lfhv
    (u : utxoNursery SpecStore.NurseryState Env) r u' :
  pinned u -> same_finalization s0 (store u) ->
  ftx = SpecStore.fstx s0 !! h -> lfhv = SpecStore.lfh s0 ->
  finalizeStep lw btcd cfg h ftx kids lfhv u = (r, u') ->
  pinned u' /\
  grows (class_event s0 h) u u' /\
  forall ftx', r = Ok ftx' ->
    ftx' = SpecStore.fstx (store u') !! h /\
    (h <= SpecStore.lfh s0 -> ftx' = SpecStore.fstx s0 !! h).
Proof.
  intros Hpin Hs0 Hftx Hlfh. unfold finalizeStep.
  destruct (Z.ltb_spec lfhv h) as [Hlt|Hge].
  - assert (Hnin : h ∉ SpecStore.finalizedHeights (store u)).
    { intros Hin. destruct Hpin as (Hok & _). destruct (Hok h) as [_ H2].
      specialize (H2 Hin). destruct Hs0 as (_ & _ & Hl). lia. }
    assert (Hsweepev : forall ev, sweep_event ev -> class_event s0 h ev).
    { intros ev Hev. repeat split.
      - intros _. lia.
      - intros h' tx ->. destruct Hev.
      - lia.
      - lia. }
    rewrite bind_run.
    match goal with
    | |- context [match ?c u with _ => _ end] => set (inner := c)
    end.
    assert (Hinner_store : respects same_store inner).
    { subst inner. destruct (0 <? length kids)%nat.
      - store_step; [apply createSweepTx_same_store | store_step].
      - store_step. }
    assert (Hinner_grows : respects (grows sweep_event) inner).
    { subst inner. destruct (0 <? length kids)%nat.
      - frame_step; [apply createSweepTx_grows; auto | frame_step].
      - frame_step. }
    destruct (inner u) as [[ftx1|e] u1] eqn:Hin.
    + destruct (pinned_frame inner sweep_event u (Ok ftx1) u1
                  Hinner_store Hinner_grows) as [Hp1 Hst1]; try assumption.
      { intros ev Hev. apply justified_other. intros h' tx ->. destruct Hev. }
      pose proof (grows_weaken _ _ _ _ Hsweepev (Hinner_grows _ _ _ Hin)) as Hg1.
      rewrite bind_run. unfold onStore at 1. rewrite cfg_store.
      cbn [FinalizeKinder SpecStore.ops].
      destruct (SpecStore.FinalizeKinder h ftx1 (store u1)) as [x s2] eqn:HFK.
      apply FinalizeKinder_contract in HFK. rewrite Hst1 in HFK.
      assert (Hfev : class_event s0 h (EvFinalizeKinder h ftx1)).
      { repeat split.
        - intros _. lia.
        - intros h' tx Heq. now inversion Heq.
        - lia.
        - lia. }
      destruct HFK as [(Hsame & Hok') | (-> & _ & Hh & Hother & HFH & Hl)].
      * destruct x as [[]|e]; [exfalso; apply Hnin; eapply Hok'; reflexivity |].
        intros H; inversion H; subst. split; [| split; [| discriminate]].
        -- eapply pinned_after; [exact Hp1 | rewrite Hst1; exact Hsame |].
           eapply grows_one; [reflexivity |]. apply justified_other. discriminate.
        -- eapply grows_trans; [exact Hg1 |].
           eapply grows_one; [reflexivity | exact Hfev].
      * unfold ret. intros H; inversion H; subst. split; [| split].
        -- eapply (pinned_finalized u1); try rewrite Hst1; cbn [store trace];
             try eassumption; reflexivity.
        -- eapply grows_trans; [exact Hg1 |].
           eapply grows_one; [reflexivity | exact Hfev].
        -- intros ftx' Heq. inversion Heq; subst. cbn [store].
           split; [reflexivity | lia].
    + intros H; inversion H; subst.
      destruct (pinned_frame inner sweep_event u (Err e) u'
                  Hinner_store Hinner_grows) as [Hp1 Hst1]; try assumption.
      { intros ev Hev. apply justified_other. intros h' tx ->. destruct Hev. }
      split; [exact Hp1 | split; [| discriminate]].
      eapply grows_weaken; [exact Hsweepev | eapply Hinner_grows; exact Hin].
  - unfold ret. intros H; inversion H; subst.
    split; [exact Hpin | split; [apply grows_refl |]].
    intros ftx' Heq. inversion Heq; subst.
    destruct Hs0 as (-> & _). split; reflexivity.
Qed.

Lemma class_event_broadcast s0 h ev :
  broadcast_event ev ->
  (SpecStore.lfh s0 < h \/
   forall h' tx, ev = EvPublishTransaction (graduating_kinders h') tx ->
     h' = h /\ SpecStore.fstx s0 !! h = Some tx) ->
  class_event s0 h ev.
Proof.
  intros Hb Hp. split; [| split].
  - intros [Hf|Hs]; destruct ev; cbn in *; tauto.
  - intros h' tx ->. destruct Hb.
  - intros Hle h' tx Heq. destruct Hp as [Hlt|Hp]; [lia |].
    apply Hp. exact Heq.
Qed.

Lemma step_sweep s0 h ftx kids
    (u : utxoNursery SpecStore.NurseryState Env) r u' :
  pinned u ->
  ftx = SpecStore.fstx (store u) !! h ->
  (h <= SpecStore.lfh s0 -> ftx = SpecStore.fstx s0 !! h) ->
  sweepStep btcd cfg h ftx kids u = (r, u') ->
  pinned u' /\ grows (class_event s0 h) u u'.
Proof.
  intros Hpin Hftx Hreuse. unfold sweepStep.
  destruct ftx as [tx|].
  - intros Hrun.
    set (P := fun ev =>
                broadcast_event ev /\
                forall h' tx',
                  ev = EvPublishTransaction (graduating_kinders h') tx' ->
                  h' = h /\ tx' = tx).
    assert (Hg : respects (grows P)
                   (sweepGraduatingKinders btcd cfg h tx kids)).
    { apply sweepGraduatingKinders_emits; subst P; cbn.
      - split; [exact I |]. intros h' tx' Heq. now inversion Heq.
      - intros txid n hint. split; [exact I | discriminate].
      - intros t. split; [exact I | discriminate]. }
    pose proof (Hg _ _ _ Hrun) as Hgu.
    split.
    + eapply (pinned_frame _ P u r u'); try eassumption.
      * apply sweepGraduatingKinders_same_store.
      * intros ev [_ Hev] h' tx' ->. destruct (Hev _ _ eq_refl) as [-> ->].
        symmetry. exact Hftx.
    + eapply grows_weaken; [| exact Hgu].
      intros ev [Hb Hev]. apply class_event_broadcast; [exact Hb |].
      destruct (Z_lt_le_dec (SpecStore.lfh s0) h) as [Hlt|Hle];
        [left; exact Hlt | right].
      intros h' tx' Heq. destruct (Hev _ _ Heq) as [-> ->].
      split; [reflexivity | symmetry; apply Hreuse; exact Hle].
  - unfold ret. intros H; inversion H; subst.
    split; [exact Hpin | apply grows_refl].
Qed.

Lemma step_cribs s0 h cribs
    (u : utxoNursery SpecStore.NurseryState Env) r u' :
  pinned u ->
  forEach cribs (sweepCribOutput cfg h) u = (r, u') ->
  pinned u' /\ grows (class_event s0 h) u u'.
Proof.
  intros Hpin Hrun.
  set (P := fun ev =>
              broadcast_event ev /\
              forall h' tx',
                ev <> EvPublishTransaction (graduating_kinders h') tx').
  assert (Hg : respects (grows P) (forEach cribs (sweepCribOutput cfg h))).
  { apply respects_forEach; [apply grows_refl | apply grows_trans |].
    intros b. apply sweepCribOutput_emits; subst P; cbn;
      intros; (split; [exact I | discriminate]). }
  assert (Hs : respects same_store (forEach cribs (sweepCribOutput cfg h))).
  { apply respects_forEach; [apply same_store_refl | apply same_store_trans |].
    intros b. apply sweepCribOutput_same_store. }
  pose proof (Hg _ _ _ Hrun) as Hgu. split.
  - eapply (pinned_frame _ P u r u'); try eassumption.
    intros ev [_ Hev]. apply justified_other. exact Hev.
  - eapply grows_weaken; [| exact Hgu].
    intros ev [Hb Hev]. apply class_event_broadcast; [exact Hb | right].
    intros h' tx' Heq. exfalso. eapply Hev. exact Heq.
Qed.

Lemma step_purge s0 h (u : utxoNursery SpecStore.NurseryState Env) r u' :
  pinned u ->
  graduateClass_purge cfg h u = (r, u') ->
  pinned u' /\ grows (class_event s0 h) u u'.
Proof.
  intros Hpin. unfold graduateClass_purge.
  destruct (PruningDepth cfg >=? h).
  - unfold ret. intros H; inversion H; subst.
    split; [exact Hpin | apply grows_refl].
  - unfold onStore. rewrite cfg_store. cbn [PurgeHeight SpecStore.ops].
    destruct (SpecStore.PurgeHeight _ (store u)) as [x s'] eqn:Hx.
    intros H; inversion H; subst.
    apply PurgeHeight_contract in Hx. destruct Hx as (Hsub & HFH & Hl).
    destruct Hpin as (Hok & Hfin & Hheld & Hone).
    assert (Hsw : forall h0 t ev,
              ev = EvPurgeHeight (u32_sub h (PruningDepth cfg)) ->
              sweep_broadcast (trace u ++ [ev]) h0 t <->
              sweep_broadcast (trace u) h0 t).
    { intros h0 t ev ->. apply sweep_broadcast_snoc. discriminate. }
    split.
    + unfold pinned. cbn [store trace]. split; [| split; [| split]].
      * intros h0. destruct (Hok h0) as [H1 H2]. rewrite HFH, Hl. split.
        -- intros [t Ht]. apply H1. exists t. apply Hsub. exact Ht.
        -- exact H2.
      * intros h0 t Hin. rewrite HFH. eapply Hfin.
        eapply Hsw; [reflexivity | exact Hin].
      * intros h0 t t' Hin Hlk. eapply Hheld.
        -- eapply Hsw; [reflexivity | exact Hin].
        -- apply Hsub. exact Hlk.
      * intros h0 t t' Hin Hin'.
        eapply Hone; (eapply Hsw; [reflexivity | eassumption]).
    + eapply grows_one; [reflexivity |].
      apply class_event_other; [cbn; tauto | cbn; tauto | discriminate].
Qed.

(** [graduateClass] keeps the invariant, and adds only what
    [class_event] allows. *)
Lemma graduateClass_run h (u : utxoNursery SpecStore.NurseryState Env) :
  pinned u ->
  pinned (snd (graduateClass lw btcd cfg h u)) /\
  grows (class_event (store u) h) u (snd (graduateClass lw btcd cfg h u)).
Proof.
  intros Hpin. rewrite graduateClass_steps.
  set (s0 := store u).
  rewrite bind_run. cbn [setCurrentHeight].
  match goal with
  | |- context [bind _ _ ?x] => set (u0 := x)
  end.
  assert (Hp0 : pinned u0) by exact Hpin.
  assert (Hs0 : same_finalization s0 (store u0)) by apply same_finalization_refl.
  assert (Hg0 : grows (class_event s0 h) u u0).
  { exists []. split; [cbn; now rewrite app_nil_r | constructor]. }
  clearbody u0. rewrite bind_run.
  destruct (onStore (EvFetchClass h) (FetchClass (Store cfg) h) u0)
    as [[class|e] u1] eqn:H1;
    destruct (step_fetch s0 h _ _ _ Hp0 Hs0 H1) as (Hp1 & Hs1 & Hg1 & Hc1);
    pose proof (grows_trans _ _ _ _ Hg0 Hg1) as Hg01;
    [| cbn [snd]; split; assumption].
  specialize (Hc1 _ eq_refl). rewrite bind_run.
  destruct (onStore EvLastFinalizedHeight (LastFinalizedHeight (Store cfg)) u1)
    as [[lfhv|e] u2] eqn:H2;
    destruct (step_lfh s0 h _ _ _ Hp1 Hs1 H2) as (Hp2 & Hs2 & Hg2 & Hl2);
    pose proof (grows_trans _ _ _ _ Hg01 Hg2) as Hg02;
    [| cbn [snd]; split; assumption].
  specialize (Hl2 _ eq_refl). rewrite bind_run.
  destruct (finalizeStep lw btcd cfg h (fst (fst class)) (snd (fst class)) lfhv u2)
    as [[ftx|e] u3] eqn:H3;
    destruct (step_finalize s0 h _ _ _ _ _ _ Hp2 Hs2 Hc1 Hl2 H3)
      as (Hp3 & Hg3 & Hf3);
    pose proof (grows_trans _ _ _ _ Hg02 Hg3) as Hg03;
    [| cbn [snd]; split; assumption].
  destruct (Hf3 _ eq_refl) as [Hheld3 Hreuse3]. rewrite bind_run.
  destruct (sweepStep btcd cfg h ftx (snd (fst class)) u3)
    as [[[]|e] u4] eqn:H4;
    destruct (step_sweep s0 h _ _ _ _ _ Hp3 Hheld3 Hreuse3 H4) as (Hp4 & Hg4);
    pose proof (grows_trans _ _ _ _ Hg03 Hg4) as Hg04;
    [| cbn [snd]; split; assumption].
  rewrite bind_run.
  destruct (forEach (snd class) (sweepCribOutput cfg h) u4)
    as [[[]|e] u5] eqn:H5;
    destruct (step_cribs s0 h _ _ _ _ Hp4 H5) as (Hp5 & Hg5);
    pose proof (grows_trans _ _ _ _ Hg04 Hg5) as Hg05;
    [| cbn [snd]; split; assumption].
  destruct (graduateClass_purge cfg h u5) as [r6 u6] eqn:H6.
  destruct (step_purge s0 h _ _ _ Hp5 H6) as (Hp6 & Hg6).
  cbn [snd]. split; [exact Hp6 |].
  eapply grows_trans; eassumption.
Qed.

Lemma reachable_pinned (u : utxoNursery SpecStore.NurseryState Env) :
  reachable lw btcd cfg u -> pinned u.
Proof.
  induction 1 as [s e h Hok | u h Hr IH | u s' e' h' Hr IH Hsame].
  - unfold pinned, sweep_broadcast. cbn. repeat split; try assumption;
      try (intros; contradiction).
    + apply Hok.
    + apply Hok.
  - apply graduateClass_run. exact IH.
  - eapply (pinned_after u); [exact IH | exact Hsame |].
    exists []. split; [cbn; now rewrite app_nil_r | constructor].
Qed.

Lemma sweeps_of_spec tr h tx :
  In tx (sweeps_of tr h) <-> sweep_broadcast tr h tx.
Proof.
  unfold sweeps_of, sweep_broadcast. rewrite in_flat_map. split.
  - intros [ev [Hin Htx]]. destruct ev; try contradiction.
    destruct by_ as [h'|h']; [| contradiction].
    destruct (Z.eqb_spec h' h) as [->|Hne]; [| contradiction].
    destruct Htx as [->|[]]. exact Hin.
  - intros Hin. eexists. split; [exact Hin |]. cbn.
    rewrite Z.eqb_refl. left. reflexivity.
Qed.

(** C1.  On a store that keeps its contract, in any state the nursery
    can reach: a call [graduateClass(H)] calls [FinalizeKinder] only
    for [H] and only when [H] is strictly greater than the last
    finalized height; when [H] is at most the last finalized height it
    builds no sweep transaction, and a sweep it broadcasts is the
    transaction the store holds for [H], the one [FetchClass(H)]
    returns.  Hence, however many times [graduateClass] has run and
    whatever happened in between, two transactions broadcast as the
    sweep of the same class are the same transaction, with the same
    txid. *)
Theorem one_sweep_per_class (u : utxoNursery SpecStore.NurseryState Env) :
  reachable lw btcd cfg u ->
  (forall classHeight,
     let evs := events_since u (snd (graduateClass lw btcd cfg classHeight u)) in
     (forall h tx, In (EvFinalizeKinder h tx) evs ->
        h = classHeight /\ SpecStore.lfh (store u) < classHeight) /\
     (classHeight <= SpecStore.lfh (store u) ->
      Forall (fun ev =>
                ~ finalize_event ev /\ ~ sweep_event ev /\
                forall h tx,
                  ev = EvPublishTransaction (graduating_kinders h) tx ->
                  h = classHeight /\
                  SpecStore.fstx (store u) !! classHeight = Some tx)
        evs)) /\
  (forall h tx tx',
     In tx (sweeps_of (trace u) h) -> In tx' (sweeps_of (trace u) h) ->
     tx = tx' /\ TxHash btcd tx = TxHash btcd tx').
Proof.
  intros Hreach. pose proof (reachable_pinned u Hreach) as Hpin. split.
  - intros h evs.
    destruct (graduateClass_run h u Hpin) as [_ Hg].
    apply grows_events_since in Hg. destruct Hg as [_ Hevs]. fold evs in Hevs.
    rewrite List.Forall_forall in Hevs. split.
    + intros h' tx Hin. destruct (Hevs _ Hin) as (Hlt & Hh & _).
      split; [eapply Hh; reflexivity | apply Hlt; left; exact I].
    + intros Hle. apply List.Forall_forall. intros ev Hin.
      destruct (Hevs _ Hin) as (Hlt & _ & Hp).
      split; [| split].
      * intros Hf. specialize (Hlt (or_introl Hf)). lia.
      * intros Hs. specialize (Hlt (or_intror Hs)). lia.
      * exact (Hp Hle).
  - intros h tx tx' Hin Hin'. apply sweeps_of_spec in Hin, Hin'.
    destruct Hpin as (_ & _ & _ & Hone).
    assert (tx = tx') as -> by (eapply Hone; eassumption).
    split; reflexivity.
Qed.

End SingleTxid.

(** The spec's scenarios S1 and S2: class 244 holds one commitment
    output; [graduateClass(244)] runs, and runs again (a replay after a
    restart).  The wallet would hand out another script the second
    time; both broadcasts are of the transaction finalized the first
    time. *)
Lemma one_sweep_per_class_witness :
  let u0 := Demo.nursery (Demo.store_with_kids 244 Demo.one_kid)
              (Demo.world 1 [] []) in
  let run h u := snd (graduateClass Demo.lw Demo.btcd (Demo.cfg 1 6) h u) in
  let u := run 244 (run 244 u0) in
  Store (Demo.cfg 1 6) = SpecStore.ops /\
  reachable Demo.lw Demo.btcd (Demo.cfg 1 6) u /\
  length (sweeps_of (trace u) 244) = 2%nat /\
  forall tx tx',
    In tx (sweeps_of (trace u) 244) -> In tx' (sweeps_of (trace u) 244) ->
    tx = tx' /\ Demo.TxHash tx = Demo.TxHash tx'.
Proof.
  intros u0 run u.
  assert (Hstore : Store (Demo.cfg 1 6) = SpecStore.ops) by reflexivity.
  assert (Hreach : reachable Demo.lw Demo.btcd (Demo.cfg 1 6) u).
  { subst u run. do 2 apply reach_graduateClass. apply reach_start.
    intros h. cbn. split.
    - intros [t Ht]. rewrite lookup_empty in Ht. discriminate Ht.
    - intros Hin. apply elem_of_empty in Hin. contradiction. }
  split; [exact Hstore | split; [exact Hreach | split]].
  - vm_compute. reflexivity.
  - exact (proj2 (one_sweep_per_class Demo.lw Demo.btcd (Demo.cfg 1 6) Hstore
                    u Hreach) 244).
Defined.

(** ** Variable length integers *)

Module varintFacts.

Import wireFacts.

Lemma WriteVarInt_run n w : WriteVarInt n w = (Ok tt, w ++ varint n).
Proof.
  unfold varint, WriteVarInt.
  destruct (n <? 253); [reflexivity |].
  destruct (n <=? 65535); [reflexivity |].
  destruct (n <=? 4294967295); reflexivity.
Qed.

Lemma Uint16LE_PutUint16LE v : Uint16LE (PutUint16LE v) = u16 v.
Proof. unfold Uint16LE, PutUint16LE. rewrite rev_involutive. apply Uint16_PutUint16. Qed.

Lemma Uint32LE_PutUint32LE v : Uint32LE (PutUint32LE v) = u32 v.
Proof. unfold Uint32LE, PutUint32LE. rewrite rev_involutive. apply Uint32_PutUint32. Qed.

Lemma Uint64LE_PutUint64LE v : Uint64LE (PutUint64LE v) = u64 v.
Proof. unfold Uint64LE, PutUint64LE. rewrite rev_involutive. apply Uint64_PutUint64. Qed.

Lemma ReadFull_cons b (bs rest : list byte) n :
  length (b :: bs) = n ->
  ReadFull n (b :: bs ++ rest) = (Ok (b :: bs), rest).
Proof. intros <-. apply (ReadFull_exact (b :: bs)). Qed.

(** Reading back a count written canonically. *)
Lemma ReadVarInt_varint n rest :
  0 <= n < 2 ^ 64 -> ReadVarInt (varint n ++ rest) = (Ok n, rest).
Proof.
  intros Hn. unfold varint, WriteVarInt, ReadVarInt.
  destruct (n <? 253) eqn:H1.
  - apply Z.ltb_lt in H1. cbn [Write snd app].
    erewrite bind_Ok by (apply (ReadFull_exact [byte_of_Z n])).
    unfold at_. cbn [nth]. rewrite Z_of_byte_of_Z, Z.mod_small by lia.
    destruct (n =? 255) eqn:E1; [apply Z.eqb_eq in E1; lia |].
    destruct (n =? 254) eqn:E2; [apply Z.eqb_eq in E2; lia |].
    destruct (n =? 253) eqn:E3; [apply Z.eqb_eq in E3; lia |].
    reflexivity.
  - apply Z.ltb_ge in H1.
    destruct (n <=? 65535) eqn:H2.
    + apply Z.leb_le in H2. cbn [Write snd app].
      erewrite bind_Ok by (apply (ReadFull_exact [xfd])).
      change (at_ [xfd] 0 =? 255) with false.
      change (at_ [xfd] 0 =? 254) with false.
      change (at_ [xfd] 0 =? 253) with true. cbv iota.
      erewrite bind_Ok by (apply (ReadFull_exact (PutUint16LE n))).
      rewrite Uint16LE_PutUint16LE. unfold u16. rewrite Z.mod_small by lia.
      destruct (n <? 253) eqn:E; [apply Z.ltb_lt in E; lia | reflexivity].
    + apply Z.leb_gt in H2.
      destruct (n <=? 4294967295) eqn:H3.
      * apply Z.leb_le in H3. cbn [Write snd app].
        erewrite bind_Ok by (apply (ReadFull_exact [xfe])).
        change (at_ [xfe] 0 =? 255) with false.
        change (at_ [xfe] 0 =? 254) with true. cbv iota.
        erewrite bind_Ok by (apply (ReadFull_exact (PutUint32LE n))).
        rewrite Uint32LE_PutUint32LE. unfold u32. rewrite Z.mod_small by lia.
        destruct (n <? 65536) eqn:E; [apply Z.ltb_lt in E; lia | reflexivity].
      * apply Z.leb_gt in H3. cbn [Write snd app].
        erewrite bind_Ok by (apply (ReadFull_exact [xff])).
        change (at_ [xff] 0 =? 255) with true. cbv iota.
        erewrite bind_Ok by (apply (ReadFull_exact (PutUint64LE n))).
        rewrite Uint64LE_PutUint64LE. unfold u64. rewrite Z.mod_small by lia.
        destruct (n <? 4294967296) eqn:E; [apply Z.ltb_lt in E; lia | reflexivity].
Qed.

Lemma WriteVarBytes_run bs w : WriteVarBytes bs w = (Ok tt, w ++ varbytes bs).
Proof.
  unfold WriteVarBytes, varbytes.
  erewrite bind_Ok by apply WriteVarInt_run.
  rewrite Write_run, <- app_assoc. reflexivity.
Qed.

Lemma ReadVarBytes_varbytes maxAllowed bs rest :
  Z.of_nat (length bs) < 2 ^ 64 ->
  ReadVarBytes maxAllowed (varbytes bs ++ rest)
  = if maxAllowed <? Z.of_nat (length bs) then (Err errVarBytesTooLarge, bs ++ rest)
    else (Ok bs, rest).
Proof.
  intros Hlen. unfold ReadVarBytes, varbytes. rewrite <- app_assoc.
  erewrite bind_Ok by (apply ReadVarInt_varint; lia).
  destruct (maxAllowed <? Z.of_nat (length bs)); [reflexivity |].
  rewrite Nat2Z.id. apply ReadFull_exact.
Qed.

Lemma varint_small n : 0 <= n < 253 -> varint n = [byte_of_Z n].
Proof.
  intros Hn. unfold varint, WriteVarInt.
  destruct (n <? 253) eqn:E; [reflexivity | apply Z.ltb_ge in E; lia].
Qed.

End varintFacts.

(** ** [writeTxOut] and [readTxOut] *)

Section TxOutCodec.

Import wireFacts varintFacts.

Lemma writeTxOut_run txo w :
  writeTxOut txo w
  = (Ok tt, w ++ big_endian 8 (u64 (Value txo)) ++ varbytes (PkScript txo)).
Proof.
  unfold writeTxOut.
  erewrite bind_Ok by apply Write_run.
  rewrite WriteVarBytes_run, PutUint64_big_endian, <- app_assoc.
  reflexivity.
Qed.

Lemma readTxOut_run txo0 v script rest :
  is_u64 v -> Z.of_nat (length script) < 2 ^ 64 ->
  readTxOut txo0 (big_endian 8 v ++ varbytes script ++ rest)
  = if 80 <? Z.of_nat (length script)
    then (Err errVarBytesTooLarge, script ++ rest)
    else (Ok {| Value := i64 v; PkScript := script |}, rest).
Proof.
  intros Hv Hlen. unfold readTxOut.
  erewrite bind_Ok.
  2:{ apply Read_exact; [now rewrite big_endian_length | discriminate]. }
  rewrite <- PutUint64_big_endian, Uint64_PutUint64, (u64_id _ Hv).
  unfold bind at 1. rewrite (ReadVarBytes_varbytes _ _ _ Hlen).
  destruct (80 <? Z.of_nat (length script)); reflexivity.
Qed.

(** X1.  A transaction output whose script has at most 80 bytes survives
    [writeTxOut] followed by [readTxOut]: the value (an [int64], negative
    ones included) and the script come back, whatever the receiver held
    and whatever follows in the stream, and the reader stops right after
    the record.  The record is the value on 8 bytes, big-endian, the
    length of the script on one byte, and the script. *)
Theorem txout_round_trip (txo txo0 : TxOut) (w : Buffer) (rest : list byte) :
  is_i64 (Value txo) -> (length (PkScript txo) <= 80)%nat ->
  let record := big_endian 8 (u64 (Value txo))
                ++ byte_of_Z (Z.of_nat (length (PkScript txo))) :: PkScript txo in
  writeTxOut txo w = (Ok tt, w ++ record) /\
  readTxOut txo0 (record ++ rest) = (Ok txo, rest).
Proof.
  intros Hv Hlen record.
  assert (Hrec : record = big_endian 8 (u64 (Value txo)) ++ varbytes (PkScript txo)).
  { unfold record, varbytes. rewrite varint_small by lia. reflexivity. }
  rewrite Hrec. split; [apply writeTxOut_run |].
  rewrite <- app_assoc, readTxOut_run by (try apply u64_range; lia).
  destruct (80 <? Z.of_nat (length (PkScript txo))) eqn:E;
    [apply Z.ltb_lt in E; lia |].
  rewrite (i64_u64 _ Hv). destruct txo. reflexivity.
Qed.

(** X2.  [writeTxOut] writes a script of any length, but [readTxOut]
    reads at most 80 bytes of script: the record of an output whose script
    is longer is refused with the error of [wire.ReadVarBytes], the reader
    being left in front of the script. *)
Theorem txout_long_script_unreadable (txo txo0 : TxOut) (w : Buffer)
    (rest : list byte) :
  (80 < length (PkScript txo))%nat -> Z.of_nat (length (PkScript txo)) < 2 ^ 64 ->
  exists record,
    writeTxOut txo w = (Ok tt, w ++ record) /\
    readTxOut txo0 (record ++ rest)
    = (Err errVarBytesTooLarge, PkScript txo ++ rest).
Proof.
  intros Hlong Hlen.
  exists (big_endian 8 (u64 (Value txo)) ++ varbytes (PkScript txo)).
  split; [apply writeTxOut_run |].
  rewrite <- app_assoc, readTxOut_run by (try apply u64_range; lia).
  destruct (80 <? Z.of_nat (length (PkScript txo))) eqn:E;
    [reflexivity | apply Z.ltb_ge in E; lia].
Qed.

End TxOutCodec.

Lemma txout_round_trip_witness :
  let txo := {| Value := -5; PkScript := [x00; x14; x2a] |} in
  is_i64 (Value txo) /\
  readTxOut {| Value := 0; PkScript := [] |}
    (snd (writeTxOut txo []) ++ [xff]) = (Ok txo, [xff]).
Proof.
  intros txo.
  assert (Hv : is_i64 (Value txo)) by (unfold is_i64; cbn; lia).
  split; [exact Hv |].
  destruct (txout_round_trip txo {| Value := 0; PkScript := [] |} [] [xff] Hv
              ltac:(cbn; lia)) as [Hw Hr].
  rewrite Hw. exact Hr.
Defined.

Lemma txout_long_script_unreadable_witness :
  let txo := {| Value := 7000; PkScript := repeat x51 81 |} in
  exists record,
    writeTxOut txo [] = (Ok tt, [] ++ record) /\
    readTxOut {| Value := 0; PkScript := [] |} (record ++ [])
    = (Err errVarBytesTooLarge, PkScript txo ++ []).
Proof.
  intros txo.
  apply (txout_long_script_unreadable txo {| Value := 0; PkScript := [] |} [] []).
  - cbn. lia.
  - cbn. lia.
Defined.

(** ** The edges of the outpoint and output readers *)

Section ReaderEdges.

Import wireFacts varintFacts.

Variable sd_encode : SignDescriptor -> result (list byte).
Variable ReadSignDescriptor : SignDescriptor -> M Reader SignDescriptor.
Variable tx_encode : MsgTx -> result (list byte).
Variable Deserialize : MsgTx -> M Reader MsgTx.

Lemma copy_short (dst src : list byte) :
  (length src <= length dst)%nat -> copy dst src = src ++ drop (length src) dst.
Proof.
  intros H. unfold copy. rewrite Nat.min_r by exact H.
  rewrite firstn_all. reflexivity.
Qed.

Lemma readOutpoint_hash o txid tail :
  wf_Hash (op_Hash o) -> (length txid <= 32)%nat ->
  readOutpoint o (byte_of_Z (Z.of_nat (length txid)) :: txid ++ tail)
  = (scratch <- Read [x00; x00; x00; x00] ;;
     ret {| op_Hash := txid ++ drop (length txid) (op_Hash o);
            op_Index := Uint32 scratch |}) tail.
Proof.
  intros Ho Hlen. unfold readOutpoint.
  change (byte_of_Z (Z.of_nat (length txid)) :: txid ++ tail)
    with ([byte_of_Z (Z.of_nat (length txid))] ++ txid ++ tail).
  rewrite <- varint_small by lia.
  rewrite app_assoc. fold (varbytes txid).
  unfold bind at 1. rewrite ReadVarBytes_varbytes by lia.
  destruct (32 <? Z.of_nat (length txid)) eqn:E; [apply Z.ltb_lt in E; lia |].
  rewrite copy_short by (unfold wf_Hash in Ho; lia).
  reflexivity.
Qed.

(** X3.  [readOutpoint] takes a hash of up to 32 bytes.  A shorter one
    overwrites the first bytes of the receiver's hash only and leaves the
    others as they were; the index is the next four bytes, big-endian,
    and the reader stops behind them. *)
Theorem readOutpoint_short_hash (o : OutPoint) (txid idx rest : list byte) :
  wf_Hash (op_Hash o) -> (length txid <= 32)%nat -> length idx = 4%nat ->
  readOutpoint o (byte_of_Z (Z.of_nat (length txid)) :: txid ++ idx ++ rest)
  = (Ok {| op_Hash := txid ++ drop (length txid) (op_Hash o);
           op_Index := Uint32 idx |}, rest).
Proof.
  intros Ho Hlen Hidx. rewrite readOutpoint_hash by assumption.
  erewrite bind_Ok.
  2:{ apply Read_exact; [now rewrite Hidx | destruct idx; [discriminate Hidx | discriminate]]. }
  reflexivity.
Qed.

(** X4.  [readOutpoint] notices a missing index only when no byte of it
    is left: on a stream that ends one to three bytes into the index it
    reports no error, and the bytes that are missing count as zero. *)
Theorem readOutpoint_truncated_index (o : OutPoint) (txid tail : list byte) :
  wf_Hash (op_Hash o) -> (length txid <= 32)%nat -> (length tail < 4)%nat ->
  readOutpoint o (byte_of_Z (Z.of_nat (length txid)) :: txid ++ tail)
  = match tail with
    | [] => (Err io_EOF, [])
    | _ :: _ =>
        (Ok {| op_Hash := txid ++ drop (length txid) (op_Hash o);
               op_Index := Uint32 (tail ++ repeat x00 (4 - length tail)) |}, [])
    end.
Proof.
  intros Ho Hlen Htail. rewrite readOutpoint_hash by assumption.
  destruct tail as [|b tail]; [reflexivity |].
  unfold bind, Read, ret.
  assert (Hl : (length (b :: tail) <= length [x00; x00; x00; x00])%nat)
    by (cbn [length] in *; lia).
  rewrite (copy_short _ _ Hl).
  rewrite (drop_ge (b :: tail)) by exact Hl.
  do 2 f_equal. f_equal. f_equal.
  destruct tail as [|b1 [|b2 [|b3 tail]]]; cbn [length] in *; try reflexivity; lia.
Qed.

(** X5.  A kid record that ends within its first eight bytes, or right
    after them, is refused with [io.EOF] (not [io.ErrUnexpectedEOF]),
    whatever the receiver; so is an empty baby record. *)
Theorem decode_short_input :
  (forall (k : kidOutput) (r : Reader),
     (length r <= 8)%nat ->
     kidOutput_Decode ReadSignDescriptor k r = (Err io_EOF, [])) /\
  (forall b : babyOutput,
     babyOutput_Decode ReadSignDescriptor Deserialize b [] = (Err io_EOF, [])).
Proof.
  split; [| reflexivity].
  intros k r Hr. unfold kidOutput_Decode.
  destruct r as [|b r]; [reflexivity |].
  unfold bind at 1, Read.
  rewrite drop_ge by (cbn [length] in *; lia).
  reflexivity.
Qed.

(** X6.  [Encode] is not all-or-nothing.  For a kid output it fails
    exactly when the writer of the sign descriptor does, with that
    error, and the writer has then received the 92 bytes of the fields
    in front of the sign descriptor; for a baby output whose timeout
    transaction cannot be serialized it has received the expiry. *)
Theorem encode_failure_is_partial :
  (forall (k : kidOutput) (w : Buffer),
     wf_kidOutput k ->
     exists fields,
       length fields = 92%nat /\
       kidOutput_Encode sd_encode k w
       = match sd_encode (SignDesc k) with
         | Ok sd => (Ok tt, w ++ fields ++ sd)
         | Err e => (Err e, w ++ fields)
         end) /\
  (forall (b : babyOutput) (w : Buffer) e,
     tx_encode (timeoutTx b) = Err e ->
     babyOutput_Encode sd_encode tx_encode b w
     = (Err e, w ++ big_endian 4 (expiry b))).
Proof.
  split.
  - intros k w Hk. exists (layout_kid k []). split.
    + destruct Hk as (_ & [Ho _] & [Hc _] & _).
      unfold layout_kid, layout_outpoint, wf_Hash in *.
      repeat (rewrite ?length_app, ?big_endian_length; cbn [length]).
      rewrite Ho, Hc. reflexivity.
    + rewrite (kidOutput_Encode_run _ _ _ Hk).
      destruct (sd_encode (SignDesc k)); unfold layout_kid;
        rewrite <- ?app_assoc, ?app_nil_r; reflexivity.
  - intros b w e He. unfold babyOutput_Encode.
    erewrite bind_Ok by apply Write_run.
    unfold Serialize, bind. rewrite He, PutUint32_big_endian. reflexivity.
Qed.

End ReaderEdges.

Lemma readOutpoint_short_hash_witness :
  readOutpoint {| op_Hash := repeat xff 32; op_Index := 9 |}
    ([x02; xaa; xbb] ++ [x00; x00; x01; x00] ++ [x07])
  = (Ok {| op_Hash := [xaa; xbb] ++ repeat xff 30; op_Index := 256 |}, [x07]).
Proof.
  exact (readOutpoint_short_hash {| op_Hash := repeat xff 32; op_Index := 9 |}
           [xaa; xbb] [x00; x00; x01; x00] [x07]
           ltac:(reflexivity) ltac:(cbn; lia) ltac:(reflexivity)).
Defined.

Lemma readOutpoint_truncated_index_witness :
  readOutpoint {| op_Hash := repeat x00 32; op_Index := 0 |}
    (x20 :: Demo.hash 5 ++ [x01])
  = (Ok {| op_Hash := Demo.hash 5; op_Index := 16777216 |}, []).
Proof.
  exact (readOutpoint_truncated_index {| op_Hash := repeat x00 32; op_Index := 0 |}
           (Demo.hash 5) [x01]
           ltac:(reflexivity) ltac:(cbn; lia) ltac:(cbn; lia)).
Defined.

Lemma decode_short_input_witness :
  kidOutput_Decode Demo.ReadSignDescriptor Demo.zero_kid [x00; x00; x07]
  = (Err io_EOF, []).
Proof.
  exact (proj1 (decode_short_input Demo.ReadSignDescriptor Demo.Deserialize)
           Demo.zero_kid [x00; x00; x07] ltac:(cbn; lia)).
Defined.

Lemma encode_failure_is_partial_witness :
  let k := Demo.kid 1 7 0 144 100 in
  wf_kidOutput k /\
  exists fields,
    length fields = 92%nat /\
    kidOutput_Encode Demo.sd_encode k [] = (Err Demo.unknown, [] ++ fields).
Proof.
  intros k.
  assert (Hk : wf_kidOutput k).
  { unfold wf_kidOutput, wf_OutPoint, wf_Hash, is_i64, is_u32, is_u16.
    cbn. repeat split; lia. }
  split; [exact Hk |].
  destruct (proj1 (encode_failure_is_partial Demo.sd_encode Demo.tx_encode) k [] Hk)
    as (fields & Hlen & Henc).
  exists fields. split; [exact Hlen | exact Henc].
Defined.

(** ** The height the nursery remembers *)

Lemma same_height_refl {St Env} (u : utxoNursery St Env) : same_height u u.
Proof. reflexivity. Qed.

Lemma same_height_trans {St Env} (u v w : utxoNursery St Env) :
  same_height u v -> same_height v w -> same_height u w.
Proof. unfold same_height. congruence. Qed.

Lemma same_height_emit {St Env} ev : respects same_height (@emit St Env ev).
Proof. intros u r u' H. inversion H; subst. reflexivity. Qed.

Lemma same_height_onStore {St Env A} ev (c : M St A) :
  respects same_height (@onStore St Env A ev c).
Proof.
  intros u r u' H. unfold onStore in H.
  destruct (c (store u)) as [x s']. inversion H; subst. reflexivity.
Qed.

Lemma same_height_onEnv {St Env A} ev (c : M Env A) :
  respects same_height (@onEnv St Env A ev c).
Proof.
  intros u r u' H. unfold onEnv in H.
  destruct (c (env u)) as [x s']. inversion H; subst. reflexivity.
Qed.

Lemma same_height_getCurrentHeight {St Env} :
  respects same_height (@getCurrentHeight St Env).
Proof. intros u r u' H. inversion H; subst. reflexivity. Qed.

Ltac height_step :=
  first
    [ apply respects_ret; [apply same_height_refl]
    | apply respects_fail; [apply same_height_refl]
    | apply respects_lift; [apply same_height_refl]
    | apply respects_try
    | apply respects_bind; [apply same_height_trans | | intros ]
    | apply same_height_onStore
    | apply same_height_onEnv
    | apply same_height_emit
    | apply same_height_getCurrentHeight
    | match goal with
      | |- respects _ (if ?b then _ else _) => destruct b
      | |- respects _ (match ?x with _ => _ end) => destruct x
      end ].

Section Height.

Context {St Env : Type}.
Variable lw : Consts.
Variable btcd : Btcd.
Variable cfg : NurseryConfig St Env.

Lemma addWitnesses_same_height {T} `{CsvSpendableOutput T} (inputs : list T) idx tx :
  respects same_height (addWitnesses cfg idx inputs tx).
Proof.
  revert idx tx. induction inputs as [|i inputs IH]; intros idx tx; cbn [addWitnesses].
  - height_step.
  - height_step; [height_step | apply IH].
Qed.

Lemma gatherInputs_same_height kids w inputs :
  respects (same_height (St:=St) (Env:=Env)) (gatherInputs lw kids w inputs).
Proof.
  revert w inputs. induction kids as [|k kids IH]; intros w inputs; cbn [gatherInputs].
  - height_step.
  - destruct (witnessWeight lw (WitnessType k)); [apply IH |].
    height_step; [height_step | apply IH].
Qed.

Lemma createSweepTx_same_height kids :
  respects same_height (createSweepTx lw btcd cfg kids).
Proof.
  unfold createSweepTx, sweepCsvSpendableOutputsTxn.
  height_step; [apply gatherInputs_same_height |].
  do 3 (height_step; [height_step |]).
  apply addWitnesses_same_height.
Qed.

Lemma publish_same_height by_ tx : respects same_height (publish cfg by_ tx).
Proof. unfold publish. repeat height_step. Qed.

Lemma sweepGraduatingKinders_same_height h tx kids :
  respects same_height (sweepGraduatingKinders btcd cfg h tx kids).
Proof.
  unfold sweepGraduatingKinders, go_.
  height_step; [apply publish_same_height |]. repeat height_step.
Qed.

Lemma sweepCribOutput_same_height h baby :
  respects same_height (sweepCribOutput cfg h baby).
Proof.
  unfold sweepCribOutput, go_.
  height_step; [apply publish_same_height |]. repeat height_step.
Qed.

(** X7.  [graduateClass(H)] leaves [H] as the nursery's current height
    whatever happens afterwards, a failure of the store, of the sweep
    builder or of a broadcast included; and [IncubateOutputs], which
    hands that height to the notifier as its hint, does not move it. *)
Theorem graduateClass_records_height (classHeight : Z)
    (closeSummary : ForceCloseSummary) (u : utxoNursery St Env) :
  currentHeight (snd (graduateClass lw btcd cfg classHeight u)) = classHeight /\
  currentHeight (snd (IncubateOutputs lw btcd cfg closeSummary u))
  = currentHeight u.
Proof.
  split.
  - unfold graduateClass. unfold bind at 1, setCurrentHeight.
    match goal with
    | |- currentHeight (snd (?c ?u1)) = _ =>
        assert (Hr : respects same_height c); [| destruct (c u1) as [r u'] eqn:Hrun;
          apply Hr in Hrun; exact Hrun]
    end.
    repeat first
      [ apply createSweepTx_same_height
      | apply sweepGraduatingKinders_same_height
      | apply respects_forEach;
          [apply same_height_refl | apply same_height_trans
          | intros; apply sweepCribOutput_same_height]
      | height_step ].
  - destruct (IncubateOutputs lw btcd cfg closeSummary u) as [r u'] eqn:Hrun.
    revert Hrun. generalize u r u'. change (respects same_height (IncubateOutputs lw btcd cfg closeSummary)).
    unfold IncubateOutputs, go_. repeat height_step.
Qed.

End Height.

(** ** More on ingress and on the crib broadcast *)

Section IngressWatch.

Context {St Env : Type}.
Variable lw : Consts.
Variable btcd : Btcd.
Variable cfg : NurseryConfig St Env.

(** X8.  When a force-close summary has something to incubate,
    [IncubateOutputs] first hands the outputs to the store, in one call.
    If that call fails its error is returned and no confirmation watch
    is registered.  Otherwise a watch is registered for the commitment
    output alone, if there is one: on the hash of the summary's
    [SelfOutpoint], hinted at the nursery's current height, with the
    goroutine [waitForPromotion] behind it.  The HTLC outputs get no
    watch at this point. *)
Theorem incubate_persists_then_watches (closeSummary : ForceCloseSummary)
    (u : utxoNursery St Env) :
  let commOutput := buildCommOutput lw closeSummary in
  let htlcOutputs := buildHtlcOutputs lw btcd closeSummary in
  commOutput <> None \/ htlcOutputs <> [] ->
  let out := IncubateOutputs lw btcd cfg closeSummary u in
  let persisted := Incubate (Store cfg) commOutput htlcOutputs (store u) in
  let stored :=
    {| store := snd persisted; env := env u; currentHeight := currentHeight u;
       trace := trace u ++ [EvIncubate commOutput htlcOutputs] |} in
  match fst persisted, commOutput with
  | Err e, _ => out = (Err e, stored)
  | Ok _, None => out = (Ok tt, stored)
  | Ok _, Some k =>
      watches_from cfg stored (op_Hash (SelfOutpoint closeSummary))
        (currentHeight u) (waitForPromotion k) out
  end.
Proof.
  intros commOutput htlcOutputs Hsome out persisted stored.
  assert (Hif : isNil commOutput && (length htlcOutputs =? 0)%nat = false).
  { destruct Hsome as [Hc|Hh].
    - destruct commOutput; [reflexivity | contradiction].
    - destruct htlcOutputs; [contradiction |]. apply andb_false_r. }
  assert (Hk : forall k, commOutput = Some k ->
               op_Hash (OutPointOf k) = op_Hash (SelfOutpoint closeSummary)).
  { subst commOutput. unfold buildCommOutput.
    destruct (SelfOutputSignDesc closeSummary) as [sd|]; [| discriminate].
    match goal with |- context [if ?b then _ else _] => destruct b end;
      [| discriminate].
    intros k Hk. inversion Hk. reflexivity. }
  subst out stored persisted. unfold IncubateOutputs.
  fold commOutput htlcOutputs. rewrite Hif.
  destruct (Incubate (Store cfg) commOutput htlcOutputs (store u))
    as [[[]|e] s'] eqn:Hp; cbn [fst snd].
  - destruct commOutput as [k|].
    + rewrite <- (Hk k eq_refl).
      unfold bind at 1, onStore. rewrite Hp.
      unfold bind at 1, getCurrentHeight.
      apply watches_from_run.
    + unfold bind, onStore. rewrite Hp. reflexivity.
  - destruct commOutput; unfold bind, onStore; rewrite Hp; reflexivity.
Qed.

(** X9.  A baby output as [IncubateOutputs] builds it is watched under
    the hash of the very transaction [sweepCribOutput] broadcasts for
    it: the routine first publishes the resolution's signed timeout
    transaction, and any watch it then registers is for the hash of
    that transaction, at the configured depth and hinted at the class
    height; when the routine returns [nil] the watch is registered and
    the goroutine [waitForEnrollment] started. *)
Theorem crib_watch_follows_timeout_tx (closeSummary : ForceCloseSummary)
    (htlcRes : OutgoingHtlcResolution) (classHeight : Z)
    (u : utxoNursery St Env) :
  let baby := babyOf lw btcd closeSummary htlcRes in
  let tx := SignedTimeoutTx htlcRes in
  let out := sweepCribOutput cfg classHeight baby u in
  exists evs,
    events_since u (snd out)
    = EvPublishTransaction (crib_output classHeight) tx :: evs /\
    (forall txid numConfs heightHint,
       In (EvRegisterConfirmationsNtfn txid numConfs heightHint) evs ->
       txid = TxHash btcd tx /\ numConfs = ConfDepth cfg /\
       heightHint = classHeight) /\
    (fst out = Ok tt ->
     exists confChan,
       evs = [EvRegisterConfirmationsNtfn (TxHash btcd tx) (ConfDepth cfg)
                classHeight;
              EvGo (waitForEnrollment baby confChan)]).
Proof.
  intros baby tx out.
  assert (Hrun : out = sweepCribOutput cfg classHeight baby u) by reflexivity.
  clearbody out. unfold sweepCribOutput in Hrun.
  change (timeoutTx baby) with tx in Hrun.
  change (op_Hash (OutPointOf baby)) with (TxHash btcd tx) in Hrun.
  unfold publish, try_, onEnv, go_, emit, bind in Hrun. cbv beta in Hrun.
  destruct (PublishTransaction cfg tx (env u)) as [[[]|err] e1];
    cbn [ret fail env trace store currentHeight] in Hrun.
  2: destruct (negb (strings.Contains err "TX rejected:"));
    cbn [ret fail env trace store currentHeight] in Hrun.
  2:{ subst out. exists []. cbn [snd fst]. split; [| split].
      - apply events_since_app. reflexivity.
      - intros ? ? ? [].
      - intros Hok. discriminate Hok. }
  all: destruct (RegisterConfirmationsNtfn cfg (TxHash btcd tx) (ConfDepth cfg)
                   classHeight e1) as [[confChan|x] e2];
    cbn [ret fail env trace store currentHeight] in Hrun; subst out;
    cbn [fst snd].
  all: eexists; split;
    [ apply events_since_app; cbn [trace]; rewrite <- ?app_assoc; reflexivity |].
  all: split;
    [ intros txid n hint Hin; cbn in Hin;
      repeat (destruct Hin as [Hin|Hin]; [inversion Hin; auto | ]);
      try contradiction
    | intros Hok; try discriminate Hok; eexists; reflexivity ].
Qed.

End IngressWatch.

(** A summary with a commitment output worth 500000 and one HTLC. *)
Lemma incubate_persists_then_watches_witness :
  let u := Demo.nursery SpecStore.empty (Demo.world 1 [] []) in
  let summary :=
    {| ChanPoint := Demo.op 99 1; SelfOutpoint := Demo.op 1 0;
       SelfOutputMaturity := 144; SelfOutputSignDesc := Some (Demo.sd 500000);
       HtlcResolutions := [Demo.htlc 7 5000 200] |} in
  let k := makeKidOutput (Demo.op 1 0) (Demo.op 99 1) 144 0 (Demo.sd 500000) in
  buildCommOutput Demo.lw summary = Some k /\
  events_since u (snd (IncubateOutputs Demo.lw Demo.btcd (Demo.cfg 1 6) summary u))
  = [EvIncubate (Some k) (buildHtlcOutputs Demo.lw Demo.btcd summary);
     EvRegisterConfirmationsNtfn (Demo.hash 1) 1 0;
     EvGo (waitForPromotion k 0%nat)].
Proof.
  intros u summary k.
  assert (Hk : buildCommOutput Demo.lw summary = Some k) by reflexivity.
  split; [exact Hk |].
  pose proof (incubate_persists_then_watches Demo.lw Demo.btcd (Demo.cfg 1 6)
                summary u
                ltac:(left; rewrite Hk; discriminate)) as Hw.
  cbv zeta in Hw. rewrite Hk in Hw.
  change (fst (Incubate (Store (Demo.cfg 1 6)) (Some k)
                 (buildHtlcOutputs Demo.lw Demo.btcd summary) (store u)))
    with (@Ok unit tt) in Hw.
  cbv iota in Hw. unfold watches_from in Hw.
  change (RegisterConfirmationsNtfn (Demo.cfg 1 6)) with Demo.RegisterConfirmationsNtfn in Hw.
  unfold Demo.RegisterConfirmationsNtfn in Hw. cbv iota beta in Hw.
  rewrite Hw. reflexivity.
Defined.

(** ** A class without kindergarten outputs *)

Section EmptyClass.

Context {St Env : Type}.
Variable lw : Consts.
Variable btcd : Btcd.
Variable cfg : NurseryConfig St Env.

Lemma not_sweep_broadcast ev : broadcast_event ev -> ~ sweep_event ev.
Proof. destruct ev; cbn; tauto. Qed.

(** X10.  For a class without kindergarten outputs [graduateClass]
    builds no sweep: it asks for no sweep script, no fee estimate and no
    signature, whatever else the class holds.  If the class lies above
    the last finalized height it is finalized all the same, with the
    transaction [FetchClass] returned for it ([nil], normally), right
    after the two reads of the store. *)
Theorem empty_class_is_finalized_unswept (classHeight : Z)
    (u : utxoNursery St Env) (finalTx : option MsgTx)
    (cribOutputs : list babyOutput) (s1 : St) :
  FetchClass (Store cfg) classHeight (store u)
  = (Ok (finalTx, [], cribOutputs), s1) ->
  let out := graduateClass lw btcd cfg classHeight u in
  Forall (fun ev => ~ sweep_event ev) (events_since u (snd out)) /\
  (forall lastFinalizedHeight s2,
     LastFinalizedHeight (Store cfg) s1 = (Ok lastFinalizedHeight, s2) ->
     lastFinalizedHeight < classHeight ->
     exists evs,
       events_since u (snd out)
       = [EvFetchClass classHeight; EvLastFinalizedHeight;
          EvFinalizeKinder classHeight finalTx] ++ evs).
Proof.
  intros Hfetch out.
  assert (Hrun : out = graduateClass lw btcd cfg classHeight u) by reflexivity.
  clearbody out. unfold graduateClass in Hrun.
  unfold bind at 1, setCurrentHeight, bind at 1, onStore at 1 in Hrun.
  cbn [store env trace currentHeight] in Hrun. rewrite Hfetch in Hrun.
  cbn [fst snd length Nat.ltb Nat.leb] in Hrun.
  unfold bind at 1, onStore at 1 in Hrun.
  cbn [store env trace currentHeight] in Hrun.
  set (P := fun ev : Event => ~ sweep_event ev).
  assert (Hb : forall ev, broadcast_event ev -> P ev)
    by (intros ev; apply not_sweep_broadcast).
  assert (Htail : forall ftx,
            respects (grows P)
              (match ftx with
               | Some finalTx0 =>
                   sweepGraduatingKinders btcd cfg classHeight finalTx0 []
               | None => ret tt
               end ;;
               forEach cribOutputs (sweepCribOutput cfg classHeight) ;;
               (if PruningDepth cfg >=? classHeight then ret tt
                else onStore (EvPurgeHeight (u32_sub classHeight (PruningDepth cfg)))
                       (PurgeHeight (Store cfg)
                          (u32_sub classHeight (PruningDepth cfg)))))).
  { intros ftx. frame_step.
    - destruct ftx; [apply sweepGraduatingKinders_grows; exact Hb | frame_step].
    - frame_step.
      + apply respects_forEach; [apply grows_refl | apply grows_trans |].
        intros b. apply sweepCribOutput_grows. exact Hb.
      + frame_step; [frame_step |]. frame_step. unfold P. cbn. tauto. }
  destruct (LastFinalizedHeight (Store cfg) s1) as [[l|e] s2] eqn:Hl.
  2:{ subst out. cbn [snd]. split; [| intros ? ? Heq; discriminate Heq].
      rewrite (events_since_app _ _ [EvFetchClass classHeight; EvLastFinalizedHeight])
        by (cbn [trace]; rewrite <- app_assoc; reflexivity).
      repeat constructor; unfold P; cbn; tauto. }
  destruct (Z.ltb_spec l classHeight) as [Hlt|Hge].
  - unfold bind at 1, bind at 1, bind at 1, ret at 1, onStore at 1 in Hrun.
    cbn [store env trace currentHeight] in Hrun.
    destruct (FinalizeKinder (Store cfg) classHeight finalTx s2) as [[[]|e] s3].
    + unfold ret at 1 in Hrun.
      match type of Hrun with
      | out = ?c ?u3 =>
          destruct (c u3) as [r u'] eqn:Hc;
          apply (Htail finalTx) in Hc; destruct Hc as [evs [Ht Hevs]]
      end.
      subst out. cbn [snd trace] in *.
      rewrite <- !app_assoc in Ht. cbn [app] in Ht.
      rewrite (events_since_app _ _ _ Ht). split.
      * repeat (constructor; [unfold P; cbn; tauto |]). exact Hevs.
      * intros l' s2' Heq _. exists evs. reflexivity.
    + subst out. cbn [snd].
      rewrite (events_since_app _ _ [EvFetchClass classHeight; EvLastFinalizedHeight;
                                     EvFinalizeKinder classHeight finalTx])
        by (cbn [trace]; rewrite <- !app_assoc; reflexivity).
      split; [repeat constructor; unfold P; cbn; tauto |].
      intros l' s2' Heq _. exists []. reflexivity.
  - unfold bind at 1, ret at 1 in Hrun.
    match type of Hrun with
    | out = ?c ?u3 =>
        destruct (c u3) as [r u'] eqn:Hc;
        apply (Htail finalTx) in Hc; destruct Hc as [evs [Ht Hevs]]
    end.
    subst out. cbn [snd trace] in *.
    rewrite <- !app_assoc in Ht. cbn [app] in Ht.
    rewrite (events_since_app _ _ _ Ht). split.
    + repeat (constructor; [unfold P; cbn; tauto |]). exact Hevs.
    + intros l' s2' Heq Hlt. inversion Heq; subst. lia.
Qed.

End EmptyClass.

(** Height 7 of an empty store, above the last finalized height 0 and
    above the pruning depth 6. *)
Lemma empty_class_is_finalized_unswept_witness :
  let u := Demo.nursery SpecStore.empty (Demo.world 1 [] []) in
  events_since u (snd (graduateClass Demo.lw Demo.btcd (Demo.cfg 1 6) 7 u))
  = [EvFetchClass 7; EvLastFinalizedHeight; EvFinalizeKinder 7 None;
     EvPurgeHeight 1].
Proof.
  intros u.
  destruct (empty_class_is_finalized_unswept Demo.lw Demo.btcd (Demo.cfg 1 6)
              7 u None [] SpecStore.empty ltac:(reflexivity))
    as [_ Hfin].
  destruct (Hfin 0 SpecStore.empty ltac:(reflexivity) ltac:(lia)) as [evs Hevs].
  cbv zeta in Hevs. rewrite Hevs.
  assert (Hc : events_since u (snd (graduateClass Demo.lw Demo.btcd (Demo.cfg 1 6) 7 u))
               = [EvFetchClass 7; EvLastFinalizedHeight; EvFinalizeKinder 7 None;
                  EvPurgeHeight 1]) by (vm_compute; reflexivity).
  rewrite Hc in Hevs. inversion Hevs. reflexivity.
Defined.

(** ** Who signs what *)

Section Signing.

Context {St Env : Type}.
Variable btcd : Btcd.
Variable cfg : NurseryConfig St Env.

Lemma setWitness_lookup tx idx w j :
  tx_TxIn (setWitness tx idx w) !! j
  = if decide (j = idx)
    then (fun ti => {| PreviousOutPoint := PreviousOutPoint ti;
                       SignatureScript := SignatureScript ti;
                       Witness := w; Sequence := Sequence ti |})
           <$> tx_TxIn tx !! idx
    else tx_TxIn tx !! j.
Proof.
  unfold setWitness. cbn [tx_TxIn].
  destruct (tx_TxIn tx !! idx) as [ti|] eqn:Hti.
  - destruct (decide (j = idx)) as [->|Hne].
    + rewrite list_lookup_insert_eq by (eapply lookup_lt_Some; eassumption).
      reflexivity.
    + rewrite list_lookup_insert_ne by congruence. reflexivity.
  - destruct (decide (j = idx)) as [->|Hne]; [rewrite Hti |]; reflexivity.
Qed.

Lemma setWitness_length tx idx w :
  length (tx_TxIn (setWitness tx idx w)) = length (tx_TxIn tx).
Proof.
  unfold setWitness. cbn [tx_TxIn].
  destruct (tx_TxIn tx !! idx); [apply length_insert | reflexivity].
Qed.

(** The signing loop: the inputs below [idx] are left alone, and each
    input from [idx] on ends up with the witness the signer returned
    when asked for it. *)
Lemma addWitnesses_signed {T} `{CsvSpendableOutput T} (inputs : list T) idx tx
    (u : utxoNursery St Env) tx' u' :
  addWitnesses cfg idx inputs tx u = (Ok tx', u') ->
  (idx + length inputs <= length (tx_TxIn tx))%nat ->
  length (tx_TxIn tx') = length (tx_TxIn tx) /\
  (forall j, (j < idx)%nat -> tx_TxIn tx' !! j = tx_TxIn tx !! j) /\
  (forall i input ti,
     inputs !! i = Some input -> tx_TxIn tx' !! (idx + i)%nat = Some ti ->
     exists partial e e',
       BuildWitness cfg (WitnessType input) (SignDesc input) partial
         (idx + i)%nat e = (Ok (Witness ti), e') /\
       In (EvBuildWitness partial (idx + i)%nat) (events_since u u')).
Proof.
  revert idx tx u. induction inputs as [|o inputs IH]; intros idx tx u Hrun Hlen;
    cbn [addWitnesses] in Hrun.
  - inversion Hrun; subst. split; [reflexivity | split; [reflexivity |]].
    intros i input ti Hi. discriminate Hi.
  - apply bind_Ok_inv in Hrun. destruct Hrun as (w & u1 & Hsign & Hrest).
    unfold onEnv in Hsign.
    destruct (BuildWitness cfg (WitnessType o) (SignDesc o) tx idx (env u))
      as [r e1] eqn:Hb.
    inversion Hsign; subst r u1. clear Hsign.
    pose proof Hrest as Hgrow.
    apply (addWitnesses_grows cfg (fun _ => True)) in Hgrow; [| tauto].
    destruct Hgrow as [evs [Ht _]]. cbn [trace] in Ht.
    rewrite <- app_assoc in Ht.
    pose proof (events_since_app _ _ _ Ht) as Hsince.
    cbn [length] in Hlen.
    apply IH in Hrest; [| rewrite setWitness_length; lia].
    destruct Hrest as (Hl & Hlow & Hhigh).
    rewrite setWitness_length in Hl.
    split; [exact Hl | split].
    + intros j Hj. rewrite Hlow by lia.
      rewrite setWitness_lookup.
      destruct (decide (j = idx)); [lia | reflexivity].
    + intros [|i] input ti Hi Hti.
      * inversion Hi; subst input. rewrite Nat.add_0_r in *.
        rewrite Hlow in Hti by lia.
        rewrite setWitness_lookup in Hti.
        destruct (decide (idx = idx)); [| contradiction].
        destruct (tx_TxIn tx !! idx) as [ti0|]; [| discriminate Hti].
        inversion Hti; subst ti. cbn [Witness].
        exists tx, (env u), e1. split; [exact Hb |].
        rewrite Hsince. left. reflexivity.
      * cbn [lookup] in Hi.
        replace (idx + S i)%nat with (S idx + i)%nat in * by lia.
        destruct (Hhigh i input ti Hi Hti) as (partial & e & e' & Hsig & Hin).
        exists partial, e, e'. split; [exact Hsig |].
        rewrite Hsince. right.
        unfold events_since in Hin. cbn [trace] in Hin.
        rewrite Ht in Hin.
        rewrite app_assoc, drop_app_length' in Hin
          by (rewrite length_app; reflexivity).
        exact Hin.
Qed.

(** X11.  In the transaction [sweepCsvSpendableOutputsTxn] returns,
    input [i] carries a witness that the signer produced for output
    [i]: the signer was called with that output's witness type and sign
    descriptor and with the index [i], on the transaction as it stood
    then (the inputs before [i] signed, the others not yet), and what it
    returned is the witness of input [i]. *)
Theorem sweep_witnesses_come_from_signer {T} `{CsvSpendableOutput T}
    (txWeight : Z) (inputs : list T) (u : utxoNursery St Env)
    (tx : MsgTx) (u' : utxoNursery St Env) :
  sweepCsvSpendableOutputsTxn btcd cfg txWeight inputs u = (Ok tx, u') ->
  length (tx_TxIn tx) = length inputs /\
  forall i input ti,
    inputs !! i = Some input -> tx_TxIn tx !! i = Some ti ->
    exists partial e e',
      BuildWitness cfg (WitnessType input) (SignDesc input) partial i e
      = (Ok (Witness ti), e') /\
      In (EvBuildWitness partial i) (events_since u u').
Proof.
  unfold sweepCsvSpendableOutputsTxn. intros Hrun.
  apply bind_Ok_inv in Hrun. destruct Hrun as (pk & u1 & Hgen & Hrun).
  apply bind_Ok_inv in Hrun. destruct Hrun as (rate & u2 & Hest & Hrun).
  apply bind_Ok_inv in Hrun. destruct Hrun as ([] & u3 & Hsan & Hrun).
  inversion Hsan; subst u3. clear Hsan.
  assert (Ht1 : exists evs, trace u2 = trace u ++ evs).
  { unfold onEnv in Hgen, Hest.
    destruct (GenSweepScript cfg (env u)) as [r e1]. inversion Hgen; subst.
    cbn [env trace] in Hest.
    destruct (EstimateFeePerWeight cfg 1 e1) as [r' e2]. inversion Hest; subst.
    cbn [trace]. rewrite <- app_assoc. eexists. reflexivity. }
  destruct Ht1 as [evs0 Ht1].
  match type of Hrun with
  | addWitnesses _ _ _ (addInputs _ ?skel) _ = _ =>
      destruct (addInputs_TxIn inputs skel) as (_ & _ & _ & Hin)
  end.
  cbn [tx_TxIn NewMsgTx AddTxOut app] in Hin.
  pose proof Hrun as Hgrow.
  apply (addWitnesses_grows cfg (fun _ => True)) in Hgrow; [| tauto].
  destruct Hgrow as [evs [Ht _]].
  apply addWitnesses_signed in Hrun; [| rewrite Hin, length_map; cbn; lia].
  destruct Hrun as (Hl & _ & Hsigned).
  rewrite Hin, length_map in Hl. split; [exact Hl |].
  intros i input ti Hi Hti.
  destruct (Hsigned i input ti Hi Hti) as (partial & e & e' & Hsig & Hev).
  exists partial, e, e'. split; [exact Hsig |].
  unfold events_since in *. rewrite Ht in Hev. rewrite Ht, Ht1.
  rewrite drop_app_length in Hev.
  rewrite <- app_assoc, drop_app_length. apply in_or_app. right. exact Hev.
Qed.

End Signing.

(** The sweep of one commitment output: its only input carries what the
    signer of the examples returns, the sign descriptor's data. *)
Lemma sweep_witnesses_come_from_signer_witness :
  let u := Demo.nursery SpecStore.empty (Demo.world 1 [] []) in
  let out := sweepCsvSpendableOutputsTxn Demo.btcd (Demo.cfg 1 6) 486
               Demo.one_kid u in
  exists tx, out = (Ok tx, snd out) /\
    map Witness (tx_TxIn tx) = [[[x2a]]] /\
    length (tx_TxIn tx) = length Demo.one_kid.
Proof.
  intros u out.
  assert (Hout : out = (Ok (returned out), snd out)) by (vm_compute; reflexivity).
  exists (returned out). split; [exact Hout |].
  split; [vm_compute; reflexivity |].
  exact (proj1 (sweep_witnesses_come_from_signer Demo.btcd (Demo.cfg 1 6) 486
                  Demo.one_kid u (returned out) (snd out) Hout)).
Defined.

(** ** Start-up, the block loop and the reactors: frames *)

Section RestFrames.

Context {St Env : Type}.

Lemma keeps_ret {S A} (R : S -> S -> Prop) (a : A) :
  (forall s, R s s) -> keeps R (ret a).
Proof. intros Hrefl s r s' H. inversion H. apply Hrefl. Qed.

Lemma keeps_fail {S A} (R : S -> S -> Prop) e :
  (forall s, R s s) -> keeps R (@fail S A e).
Proof. intros Hrefl s r s' H. inversion H. apply Hrefl. Qed.

Lemma keeps_bind {S A B} (R : S -> S -> Prop) (c : M S A) (k : A -> M S B) :
  (forall s t v, R s t -> R t v -> R s v) ->
  keeps R c -> (forall a, keeps R (k a)) -> keeps R (bind c k).
Proof.
  intros Htrans Hc Hk s r s' H. unfold bind in H.
  destruct (c s) as [[a|e] s1] eqn:Hcs.
  - eapply Htrans; [eapply Hc; eassumption | eapply Hk; eassumption].
  - inversion H; subst. eapply Hc; eassumption.
Qed.

Lemma keeps_try {S A} (R : S -> S -> Prop) (c : M S A) :
  keeps R c -> keeps R (try_ c).
Proof.
  intros Hc s r s' H. unfold try_ in H.
  destruct (c s) as [x s1] eqn:Hcs. inversion H; subst.
  eapply Hc; eassumption.
Qed.

Lemma keeps_range {S A} (R : S -> S -> Prop) (l : list A) body :
  (forall s, R s s) -> (forall s t v, R s t -> R t v -> R s v) ->
  (forall x, keeps R (body x)) -> keeps R (utxn.range l body).
Proof.
  intros Hrefl Htrans Hb. induction l as [|x l IH]; cbn [utxn.range].
  - apply keeps_ret. exact Hrefl.
  - apply keeps_bind; [exact Htrans | apply Hb | intros _; exact IH].
Qed.

Lemma keeps_orReturn {S A} (R : S -> S -> Prop) (c : M S A) k :
  (forall s, R s s) -> (forall s t v, R s t -> R t v -> R s v) ->
  keeps R c -> (forall a, keeps R (k a)) -> keeps R (utxn.orReturn c k).
Proof.
  intros Hrefl Htrans Hc Hk. unfold utxn.orReturn.
  apply keeps_bind; [exact Htrans | apply keeps_try; exact Hc |].
  intros [a|e]; [apply Hk | apply keeps_ret; exact Hrefl].
Qed.

Lemma journal_grows_refl P (n : utxn.Nursery St Env) : journal_grows P n n.
Proof. exists []. split; [now rewrite app_nil_r | constructor]. Qed.

Lemma journal_grows_trans P (n m k : utxn.Nursery St Env) :
  journal_grows P n m -> journal_grows P m k -> journal_grows P n k.
Proof.
  intros [s1 [H1 F1]] [s2 [H2 F2]]. exists (s1 ++ s2). split.
  - rewrite H2, H1, app_assoc. reflexivity.
  - apply Forall_app. split; assumption.
Qed.

Lemma journal_grows_weaken (P Q : utxn.Step -> Prop) (n n' : utxn.Nursery St Env) :
  (forall st, P st -> Q st) -> journal_grows P n n' -> journal_grows Q n n'.
Proof.
  intros HPQ [steps [Hj HF]]. exists steps. split; [exact Hj |].
  eapply Forall_impl; eassumption.
Qed.

Lemma steps_since_app (n n' : utxn.Nursery St Env) steps :
  utxn.journal n' = utxn.journal n ++ steps -> utxn.steps_since n n' = steps.
Proof. intros Hj. unfold utxn.steps_since. rewrite Hj. apply drop_app_length. Qed.

Lemma journal_grows_steps_since P (n n' : utxn.Nursery St Env) :
  journal_grows P n n' ->
  utxn.journal n' = utxn.journal n ++ utxn.steps_since n n' /\
  Forall P (utxn.steps_since n n').
Proof.
  intros [steps [Hj HF]]. rewrite (steps_since_app _ _ _ Hj).
  split; assumption.
Qed.

Lemma same_flags_refl (n : utxn.Nursery St Env) : same_flags n n.
Proof. repeat split. Qed.

Lemma same_flags_trans (n m k : utxn.Nursery St Env) :
  same_flags n m -> same_flags m k -> same_flags n k.
Proof. unfold same_flags. intros (?&?&?) (?&?&?). repeat split; congruence. Qed.

Lemma same_switches_refl (n : utxn.Nursery St Env) : same_switches n n.
Proof. repeat split. Qed.

Lemma same_switches_trans (n m k : utxn.Nursery St Env) :
  same_switches n m -> same_switches m k -> same_switches n k.
Proof. unfold same_switches. intros (?&?) (?&?). split; congruence. Qed.

(** The primitives. *)

Lemma viaStore_run {A} st (c : M St A) (n : utxn.Nursery St Env) :
  utxn.viaStore st c n
  = (fst (c (store (utxn.this n))), stored n (snd (c (store (utxn.this n)))) st).
Proof. unfold utxn.viaStore. destruct (c (store (utxn.this n))). reflexivity. Qed.

Lemma viaEnv_run {A} st (c : M Env A) (n : utxn.Nursery St Env) :
  utxn.viaEnv st c n
  = (fst (c (env (utxn.this n))), answered n (snd (c (env (utxn.this n)))) st).
Proof. unfold utxn.viaEnv. destruct (c (env (utxn.this n))). reflexivity. Qed.

Lemma core_run {A} (c : M (utxoNursery St Env) A) (n : utxn.Nursery St Env) r u' evs :
  c (utxn.this n) = (r, u') -> trace u' = trace (utxn.this n) ++ evs ->
  utxn.core c n
  = (r, {| utxn.started := utxn.started n; utxn.stopped := utxn.stopped n;
           utxn.quit := utxn.quit n; utxn.this := u';
           utxn.journal := utxn.journal n ++ map utxn.Did evs |}).
Proof.
  intros Hc Ht. unfold utxn.core. rewrite Hc.
  rewrite (events_since_app _ _ _ Ht). reflexivity.
Qed.

Lemma core_onEnv {A} ev (c : M Env A) (n : utxn.Nursery St Env) :
  utxn.core (onEnv ev c) n
  = (fst (c (env (utxn.this n))),
     {| utxn.started := utxn.started n; utxn.stopped := utxn.stopped n;
        utxn.quit := utxn.quit n;
        utxn.this := {| store := store (utxn.this n);
                        env := snd (c (env (utxn.this n)));
                        currentHeight := currentHeight (utxn.this n);
                        trace := trace (utxn.this n) ++ [ev] |};
        utxn.journal := utxn.journal n ++ [utxn.Did ev] |}).
Proof.
  erewrite core_run with (evs := [ev]).
  - reflexivity.
  - unfold onEnv. destruct (c (env (utxn.this n))). reflexivity.
  - reflexivity.
Qed.

Lemma core_emit ev (n : utxn.Nursery St Env) :
  utxn.core (emit ev) n
  = (Ok tt,
     {| utxn.started := utxn.started n; utxn.stopped := utxn.stopped n;
        utxn.quit := utxn.quit n;
        utxn.this := {| store := store (utxn.this n); env := env (utxn.this n);
                        currentHeight := currentHeight (utxn.this n);
                        trace := trace (utxn.this n) ++ [ev] |};
        utxn.journal := utxn.journal n ++ [utxn.Did ev] |}).
Proof. erewrite core_run with (evs := [ev]); reflexivity. Qed.

Lemma journal_grows_core {A} (P : Event -> Prop) (Q : utxn.Step -> Prop)
    (c : M (utxoNursery St Env) A) :
  (forall ev, P ev -> Q (utxn.Did ev)) ->
  respects (grows P) c -> keeps (journal_grows Q) (utxn.core c).
Proof.
  intros HPQ Hc n r n' H. unfold utxn.core in H.
  destruct (c (utxn.this n)) as [x u'] eqn:Hcu. inversion H; subst.
  apply Hc in Hcu. apply grows_events_since in Hcu. destruct Hcu as [_ HF].
  eexists. split; [reflexivity |]. cbn [utxn.journal].
  apply Forall_map. eapply Forall_impl; [exact HF | exact HPQ].
Qed.

Lemma journal_grows_viaStore {A} (Q : utxn.Step -> Prop) st (c : M St A) :
  Q st -> keeps (journal_grows (St:=St) (Env:=Env) Q) (utxn.viaStore st c).
Proof.
  intros HQ n r n' H. rewrite viaStore_run in H. inversion H; subst.
  exists [st]. split; [reflexivity | repeat constructor; exact HQ].
Qed.

Lemma journal_grows_viaEnv {A} (Q : utxn.Step -> Prop) st (c : M Env A) :
  Q st -> keeps (journal_grows (St:=St) (Env:=Env) Q) (utxn.viaEnv st c).
Proof.
  intros HQ n r n' H. rewrite viaEnv_run in H. inversion H; subst.
  exists [st]. split; [reflexivity | repeat constructor; exact HQ].
Qed.

Lemma journal_grows_record (Q : utxn.Step -> Prop) st :
  Q st -> keeps (journal_grows (St:=St) (Env:=Env) Q) (utxn.record st).
Proof.
  intros HQ n r n' H. inversion H; subst.
  exists [st]. split; [reflexivity | repeat constructor; exact HQ].
Qed.

Lemma journal_grows_closeQuit (Q : utxn.Step -> Prop) :
  Q utxn.StepCloseQuit ->
  keeps (journal_grows (St:=St) (Env:=Env) Q) utxn.closeQuit.
Proof.
  intros HQ n r n' H. unfold utxn.closeQuit in H.
  destruct (utxn.quit n); inversion H; subst.
  - apply journal_grows_refl.
  - exists [utxn.StepCloseQuit]. split; [reflexivity | repeat constructor; exact HQ].
Qed.

Lemma same_flags_core {A} (c : M (utxoNursery St Env) A) :
  keeps same_flags (utxn.core c).
Proof.
  intros n r n' H. unfold utxn.core in H.
  destruct (c (utxn.this n)). inversion H; subst. repeat split.
Qed.

Lemma same_flags_viaStore {A} st (c : M St A) :
  keeps (same_flags (St:=St) (Env:=Env)) (utxn.viaStore st c).
Proof. intros n r n' H. rewrite viaStore_run in H. inversion H; subst. repeat split. Qed.

Lemma same_flags_viaEnv {A} st (c : M Env A) :
  keeps (same_flags (St:=St) (Env:=Env)) (utxn.viaEnv st c).
Proof. intros n r n' H. rewrite viaEnv_run in H. inversion H; subst. repeat split. Qed.

Lemma same_flags_record st :
  keeps (same_flags (St:=St) (Env:=Env)) (utxn.record st).
Proof. intros n r n' H. inversion H; subst. repeat split. Qed.

Lemma same_flags_switches (n n' : utxn.Nursery St Env) :
  same_flags n n' -> same_switches n n'.
Proof. intros (?&?&?). split; assumption. Qed.

Lemma keeps_weaken {S A} (R R' : S -> S -> Prop) (c : M S A) :
  (forall s s', R s s' -> R' s s') -> keeps R c -> keeps R' c.
Proof. intros HR Hc s r s' H. apply HR. eapply Hc. eassumption. Qed.

Lemma same_switches_closeQuit :
  keeps (same_switches (St:=St) (Env:=Env)) utxn.closeQuit.
Proof.
  intros n r n' H. unfold utxn.closeQuit in H.
  destruct (utxn.quit n); inversion H; subst; repeat split.
Qed.

End RestFrames.

(** ** [closeAndRemoveIfMature] *)

Section CloseAndRemove.

Context {St Env : Type}.
Variable cfg : NurseryConfig St Env.
Variable more : utxn.NurseryConfigRest St Env.

Lemma closeAndRemoveIfMature_run chanPoint (n : utxn.Nursery St Env) :
  let asked := utxn.IsMatureChannel (utxn.StoreRest more) chanPoint
                 (store (utxn.this n)) in
  let n1 := stored n (snd asked) (utxn.StepIsMatureChannel chanPoint) in
  utxn.closeAndRemoveIfMature cfg more chanPoint n
  = match fst asked with
    | Err err =>
        (if String.eqb err utxn.ErrContractNotFound then Ok tt else Err err, n1)
    | Ok false => (Ok tt, n1)
    | Ok true =>
        let closed := MarkChanFullyClosed cfg chanPoint (env (utxn.this n)) in
        let n2 := marked n1 chanPoint (snd closed) in
        match fst closed with
        | Err err => (Err err, n2)
        | Ok _ =>
            let removed := utxn.RemoveChannel (utxn.StoreRest more) chanPoint
                             (snd asked) in
            (fst removed, stored n2 (snd removed) (utxn.StepRemoveChannel chanPoint))
        end
    end.
Proof.
  intros asked n1. unfold utxn.closeAndRemoveIfMature.
  unfold bind at 1, try_. rewrite viaStore_run. fold asked. fold n1.
  destruct (fst asked) as [[|]|err].
  - cbn [negb]. unfold bind. rewrite core_onEnv.
    cbn [fst snd utxn.this env n1 stored].
    destruct (MarkChanFullyClosed cfg chanPoint (env (utxn.this n))) as [[[]|e] e'];
      cbn [fst snd]; [| reflexivity].
    rewrite viaStore_run. reflexivity.
  - reflexivity.
  - destruct (String.eqb err utxn.ErrContractNotFound); reflexivity.
Qed.

(** X12.  [closeAndRemoveIfMature] treats a channel the store does not
    know, or one that still has outputs to graduate, as nothing to do:
    it returns [nil] having asked the store and nothing else.  It marks
    a channel fully closed in the channel database only after the store
    reported it mature, removes it from the store only after the
    channel database accepted the mark, and when it returns [nil] for a
    mature channel both have been done. *)
Theorem close_and_remove_only_if_mature (chanPoint : OutPoint)
    (n : utxn.Nursery St Env) :
  let out := utxn.closeAndRemoveIfMature cfg more chanPoint n in
  let asked := utxn.IsMatureChannel (utxn.StoreRest more) chanPoint
                 (store (utxn.this n)) in
  let steps := utxn.steps_since n (snd out) in
  (fst asked = Ok false \/ fst asked = Err utxn.ErrContractNotFound ->
   out = (Ok tt, stored n (snd asked) (utxn.StepIsMatureChannel chanPoint))) /\
  (forall cp, In (utxn.Did (EvMarkChanFullyClosed cp)) steps ->
     cp = chanPoint /\ fst asked = Ok true) /\
  (forall cp, In (utxn.StepRemoveChannel cp) steps ->
     cp = chanPoint /\ fst asked = Ok true /\
     fst (MarkChanFullyClosed cfg chanPoint (env (utxn.this n))) = Ok tt) /\
  (fst asked = Ok true -> fst out = Ok tt ->
   steps = [utxn.StepIsMatureChannel chanPoint;
            utxn.Did (EvMarkChanFullyClosed chanPoint);
            utxn.StepRemoveChannel chanPoint]).
Proof.
  intros out asked steps. subst out steps.
  rewrite closeAndRemoveIfMature_run. fold asked.
  destruct (fst asked) as [[|]|err].
  - cbv zeta.
    destruct (MarkChanFullyClosed cfg chanPoint (env (utxn.this n))) as [[[]|e] e'];
      cbn [fst snd].
    + rewrite (steps_since_app _ _
                 [utxn.StepIsMatureChannel chanPoint;
                  utxn.Did (EvMarkChanFullyClosed chanPoint);
                  utxn.StepRemoveChannel chanPoint])
        by (cbn [utxn.journal stored marked]; rewrite <- !app_assoc; reflexivity).
      split; [intros [H|H]; discriminate H |].
      split; [| split].
      * intros cp [H|[H|[H|[]]]]; inversion H. auto.
      * intros cp [H|[H|[H|[]]]]; inversion H. auto.
      * reflexivity.
    + rewrite (steps_since_app _ _
                 [utxn.StepIsMatureChannel chanPoint;
                  utxn.Did (EvMarkChanFullyClosed chanPoint)])
        by (cbn [utxn.journal stored marked]; rewrite <- !app_assoc; reflexivity).
      split; [intros [H|H]; discriminate H |].
      split; [| split].
      * intros cp [H|[H|[]]]; inversion H. auto.
      * intros cp [H|[H|[]]]; inversion H.
      * intros _ H. discriminate H.
  - rewrite (steps_since_app _ _ [utxn.StepIsMatureChannel chanPoint])
      by reflexivity.
    split; [reflexivity |].
    split; [| split].
    + intros cp [H|[]]; inversion H.
    + intros cp [H|[]]; inversion H.
    + intros H. discriminate H.
  - cbn [snd].
    rewrite (steps_since_app _ _ [utxn.StepIsMatureChannel chanPoint])
      by reflexivity.
    split.
    + intros [H|H]; [discriminate H |]. inversion H; subst. reflexivity.
    + split; [| split].
      * intros cp [H|[]]; inversion H.
      * intros cp [H|[]]; inversion H.
      * intros H. discriminate H.
Qed.

End CloseAndRemove.

(** ** [reloadPreschool] *)

Section ReloadPreschool.

Context {St Env : Type}.
Variable cfg : NurseryConfig St Env.
Variable more : utxn.NurseryConfigRest St Env.

(** The loop of [reloadPreschool] over the outputs that are left. *)
Lemma reloadPreschool_loop heightHint kids (n : utxn.Nursery St Env) r n' :
  utxn.range kids
    (fun kid =>
       let txID := op_Hash (OutPointOf kid) in
       confChan <- utxn.core (onEnv (EvRegisterConfirmationsNtfn txID (ConfDepth cfg)
                                       heightHint)
                                (RegisterConfirmationsNtfn cfg txID (ConfDepth cfg)
                                   heightHint)) ;;
       utxn.core (go_ (waitForPromotion kid confChan))) n = (r, n') ->
  store (utxn.this n') = store (utxn.this n) /\
  exists steps,
    utxn.journal n' = utxn.journal n ++ steps /\
    (exists done_, promotions steps = take done_ kids) /\
    (exists tried,
       watches steps
       = map (fun kid => (op_Hash (OutPointOf kid), ConfDepth cfg, heightHint))
           (take tried kids)) /\
    (r = Ok tt ->
     promotions steps = kids /\ length (watches steps) = length kids).
Proof.
  revert n. induction kids as [|kid kids IH]; intros n Hrun; cbn [utxn.range] in Hrun.
  - inversion Hrun; subst. split; [reflexivity |].
    exists []. rewrite app_nil_r. split; [reflexivity |].
    split; [exists 0%nat; reflexivity |].
    split; [exists 0%nat; reflexivity |]. intros _. split; reflexivity.
  - unfold bind at 1, bind at 1 in Hrun. rewrite core_onEnv in Hrun.
    cbn [fst snd] in Hrun.
    destruct (RegisterConfirmationsNtfn cfg (op_Hash (OutPointOf kid)) (ConfDepth cfg)
                heightHint (env (utxn.this n))) as [[confChan|e] e'];
      cbn [fst snd] in Hrun.
    + unfold go_ in Hrun. rewrite core_emit in Hrun.
      apply IH in Hrun. cbn [utxn.this utxn.journal store] in Hrun.
      destruct Hrun as (Hs & steps & Hj & [done_ Hp] & [tried Hw] & Hok).
      split; [exact Hs |].
      eexists. split; [rewrite Hj, <- !app_assoc; reflexivity |].
      cbn [app promotions watches flat_map]. fold (promotions steps). fold (watches steps).
      split; [exists (S done_); cbn; now rewrite Hp |].
      split; [exists (S tried); cbn; now rewrite Hw |].
      intros Hr. destruct (Hok Hr) as [Hp' Hl]. cbn. split; congruence.
    + inversion Hrun; subst. split; [reflexivity |].
      eexists. split; [reflexivity |].
      split; [exists 0%nat; reflexivity |].
      split; [exists 1%nat; reflexivity |].
      intros Hr. discriminate Hr.
Qed.

(** X13.  [reloadPreschool] reads the preschool outputs and, going
    through them in order, registers for each a confirmation watch on
    the hash of its outpoint, at the configured depth and with the
    height hint it was given, and starts [waitForPromotion] for it.  It
    stops at the first registration that fails: the outputs before it
    keep their goroutines, the others get none.  When it returns [nil]
    every preschool output has its goroutine.  The store is only
    read. *)
Theorem reloadPreschool_rewatches_in_order (heightHint : Z)
    (n : utxn.Nursery St Env) (psclOutputs : list kidOutput) (s1 : St) :
  utxn.FetchPreschools (utxn.StoreRest more) (store (utxn.this n))
  = (Ok psclOutputs, s1) ->
  let out := utxn.reloadPreschool cfg more heightHint n in
  store (utxn.this (snd out)) = s1 /\
  exists steps,
    utxn.steps_since n (snd out) = utxn.StepFetchPreschools :: steps /\
    (exists done_, promotions steps = take done_ psclOutputs) /\
    (exists tried,
       watches steps
       = map (fun kid => (op_Hash (OutPointOf kid), ConfDepth cfg, heightHint))
           (take tried psclOutputs)) /\
    (fst out = Ok tt ->
     promotions steps = psclOutputs /\
     length (watches steps) = length psclOutputs).
Proof.
  intros Hfetch out.
  assert (Hrun : out = utxn.reloadPreschool cfg more heightHint n) by reflexivity.
  clearbody out. unfold utxn.reloadPreschool in Hrun.
  unfold bind at 1 in Hrun. rewrite viaStore_run, Hfetch in Hrun.
  cbn [fst snd] in Hrun.
  match type of Hrun with
  | out = utxn.range ?l ?b ?m => destruct (utxn.range l b m) as [r n'] eqn:Hloop
  end.
  apply reloadPreschool_loop in Hloop.
  destruct Hloop as (Hs & steps & Hj & Hp & Hw & Hok). subst out. cbn [fst snd].
  split; [rewrite Hs; reflexivity |].
  exists steps. split.
  - apply steps_since_app. rewrite Hj. cbn [utxn.journal stored].
    rewrite <- app_assoc. reflexivity.
  - split; [exact Hp | split; [exact Hw | exact Hok]].
Qed.

End ReloadPreschool.

(** ** [reloadClasses] *)

Lemma bind_assoc {S A B C} (c : M S A) (k1 : A -> M S B) (k2 : B -> M S C) s :
  bind (bind c k1) k2 s = bind c (fun a => bind (k1 a) k2) s.
Proof. unfold bind. destruct (c s) as [[a|e] s1]; reflexivity. Qed.

Section ReloadClasses.

Context {St Env : Type}.
Variable lw : Consts.
Variable btcd : Btcd.
Variable cfg : NurseryConfig St Env.
Variable more : utxn.NurseryConfigRest St Env.

(** X14.  [reloadClasses] replays nothing when the store was never
    purged (last purged height 0) or was purged at the best height:
    whatever the store holds, it returns [nil] having only asked the
    chain for its best block. *)
Theorem reloadClasses_skips_replay (fuel : nat) (lastPrunedHeight : Z)
    (n : utxn.Nursery St Env) (blockHash : Hash) (bestHeight : Z) (e1 : Env) :
  utxn.GetBestBlock more (env (utxn.this n)) = (Ok (blockHash, bestHeight), e1) ->
  lastPrunedHeight = 0 \/ u32 bestHeight = lastPrunedHeight ->
  utxn.reloadClasses lw btcd cfg more fuel lastPrunedHeight n
  = (Ok (utxn.Returned tt), answered n e1 utxn.StepGetBestBlock).
Proof.
  intros Hbest Hskip. unfold utxn.reloadClasses.
  unfold bind at 1. rewrite viaEnv_run, Hbest. cbn [fst snd].
  destruct Hskip as [-> | <-].
  - reflexivity.
  - rewrite Z.eqb_refl, orb_true_r. reflexivity.
Qed.

(** The loop, given fuel for every height from [curHeight] to
    [bestHeight], is the replay of those heights in increasing order. *)
Lemma replay_enough_fuel fuel curHeight bestHeight (n : utxn.Nursery St Env) :
  0 <= curHeight -> bestHeight < 2 ^ 32 - 1 ->
  (Z.to_nat (bestHeight - curHeight + 1) <= fuel)%nat ->
  utxn.replay lw btcd cfg fuel curHeight bestHeight n
  = (utxn.range (seqZ curHeight (bestHeight - curHeight + 1))
       (fun h => utxn.core (graduateClass lw btcd cfg h)) ;;
     ret (utxn.Returned tt)) n.
Proof.
  revert curHeight n. induction fuel as [|fuel IH]; intros cur n Hcur Hbest Hfuel.
  - assert (Hgt : bestHeight < cur) by lia.
    cbn [utxn.replay].
    destruct (Z.leb_spec cur bestHeight) as [Hle|_]; [lia |].
    rewrite seqZ_nil by lia. reflexivity.
  - cbn [utxn.replay].
    destruct (Z.leb_spec cur bestHeight) as [Hle|Hgt].
    + rewrite seqZ_cons by lia. cbn [utxn.range]. rewrite bind_assoc.
      destruct (utxn.core (graduateClass lw btcd cfg cur) n) as [[[]|e] n1] eqn:Hg.
      2:{ erewrite !bind_Err by exact Hg. reflexivity. }
      erewrite !bind_Ok by exact Hg.
      assert (Hnext : u32 (cur + 1) = cur + 1)
        by (apply u32_id; unfold is_u32; lia).
      rewrite Hnext, IH by lia.
      replace (Z.succ cur) with (cur + 1) by lia.
      replace (Z.pred (bestHeight - cur + 1)) with (bestHeight - (cur + 1) + 1) by lia.
      reflexivity.
    + rewrite seqZ_nil by lia. reflexivity.
Qed.

(** X15.  Otherwise [reloadClasses] replays the missed heights: from
    the height after the last purged one up to the best height, in
    increasing order, one [graduateClass] each, stopping at the first
    that fails and returning its error.  The loop counter is a
    [uint32], so the replay comes to an end whenever the best height is
    below [2^32 - 1]: fuel for each missed height is fuel enough. *)
Theorem reloadClasses_replays_in_order (fuel : nat) (lastPrunedHeight : Z)
    (n : utxn.Nursery St Env) (blockHash : Hash) (bestHeight : Z) (e1 : Env) :
  utxn.GetBestBlock more (env (utxn.this n)) = (Ok (blockHash, bestHeight), e1) ->
  lastPrunedHeight <> 0 -> u32 bestHeight <> lastPrunedHeight ->
  is_u32 lastPrunedHeight -> u32 bestHeight < 2 ^ 32 - 1 ->
  let first := u32 (lastPrunedHeight + 1) in
  let missed := seqZ first (u32 bestHeight - first + 1) in
  (length missed <= fuel)%nat ->
  utxn.reloadClasses lw btcd cfg more fuel lastPrunedHeight n
  = (utxn.range missed (fun h => utxn.core (graduateClass lw btcd cfg h)) ;;
     ret (utxn.Returned tt)) (answered n e1 utxn.StepGetBestBlock).
Proof.
  intros Hbest Hne0 Hne Hlph Hmax first missed Hfuel.
  unfold utxn.reloadClasses.
  unfold bind at 1. rewrite viaEnv_run, Hbest. cbn [fst snd].
  destruct (Z.eqb_spec lastPrunedHeight 0) as [|_]; [contradiction |].
  destruct (Z.eqb_spec (u32 bestHeight) lastPrunedHeight) as [|_]; [contradiction |].
  cbn [orb]. fold first.
  apply replay_enough_fuel.
  - apply u32_range.
  - exact Hmax.
  - subst missed. rewrite length_seqZ in Hfuel. exact Hfuel.
Qed.

(** Which heights [graduateClass] purges (the first half of the pruning
    rule, for use in the replay). *)
Lemma graduateClass_purges classHeight (u : utxoNursery St Env) h :
  is_u32 classHeight -> is_u32 (PruningDepth cfg) ->
  In (EvPurgeHeight h)
     (events_since u (snd (graduateClass lw btcd cfg classHeight u))) ->
  PruningDepth cfg < classHeight /\ h = classHeight - PruningDepth cfg.
Proof.
  intros Hh Hp. rewrite graduateClass_split. unfold bind.
  destruct (graduateClass_sweeps lw btcd cfg classHeight u) as [[[]|e] u1] eqn:Hs.
  - apply (graduateClass_sweeps_grows lw btcd cfg (fun ev => ~ purge_event ev))
      in Hs; [| tauto].
    destruct Hs as [evs [Ht Hevs]].
    destruct (graduateClass_purge cfg classHeight u1) as [r u'] eqn:Hpu.
    apply graduateClass_purge_run in Hpu.
    destruct Hpu as [(Hle & -> & ->) | (Hlt & Ht')]; cbn [fst snd].
    + rewrite (events_since_app _ _ _ Ht). intros Hin.
      rewrite List.Forall_forall in Hevs. exfalso. apply (Hevs _ Hin). exact I.
    + rewrite Ht, <- app_assoc in Ht'. rewrite (events_since_app _ _ _ Ht').
      intros Hin. apply in_app_or in Hin. destruct Hin as [Hin|[Hin|[]]].
      * rewrite List.Forall_forall in Hevs. exfalso. apply (Hevs _ Hin). exact I.
      * inversion Hin. split; [exact Hlt |].
        apply u32_id. unfold is_u32 in *. lia.
  - apply (graduateClass_sweeps_grows lw btcd cfg (fun ev => ~ purge_event ev))
      in Hs; [| tauto].
    destruct Hs as [evs [Ht Hevs]]. cbn [snd].
    rewrite (events_since_app _ _ _ Ht). intros Hin.
    rewrite List.Forall_forall in Hevs. exfalso. apply (Hevs _ Hin). exact I.
Qed.

Lemma replay_journal fuel curHeight bestHeight (n : utxn.Nursery St Env) r n' :
  utxn.replay lw btcd cfg fuel curHeight bestHeight n = (r, n') ->
  exists steps, utxn.journal n' = utxn.journal n ++ steps.
Proof.
  revert curHeight n. induction fuel as [|fuel IHf]; intros z m Hr;
    cbn [utxn.replay] in Hr.
  - destruct (z <=? bestHeight); inversion Hr; exists []; now rewrite app_nil_r.
  - destruct (z <=? bestHeight); [| inversion Hr; exists []; now rewrite app_nil_r].
    unfold bind, utxn.core in Hr.
    destruct (graduateClass lw btcd cfg z (utxn.this m)) as [[[]|e] u1].
    + apply IHf in Hr. destruct Hr as [steps Hs]. cbn [utxn.journal] in Hs.
      eexists. rewrite Hs, <- app_assoc. reflexivity.
    + inversion Hr. eexists. reflexivity.
Qed.

Lemma replay_purges fuel curHeight bestHeight (n : utxn.Nursery St Env) h :
  is_u32 curHeight -> is_u32 (PruningDepth cfg) ->
  In (utxn.Did (EvPurgeHeight h))
     (utxn.steps_since n
        (snd (utxn.replay lw btcd cfg fuel curHeight bestHeight n))) ->
  0 < h <= bestHeight - PruningDepth cfg.
Proof.
  revert curHeight n. induction fuel as [|fuel IH]; intros cur n Hcur Hp;
    cbn [utxn.replay].
  - destruct (cur <=? bestHeight); cbn [snd ret];
      unfold utxn.steps_since; rewrite drop_all; intros [].
  - destruct (Z.leb_spec cur bestHeight) as [Hle|Hgt].
    2:{ cbn [snd ret]. unfold utxn.steps_since. rewrite drop_all. intros []. }
    unfold bind, utxn.core.
    destruct (graduateClass lw btcd cfg cur (utxn.this n)) as [r u'] eqn:Hg.
    pose proof (graduateClass_purges cur (utxn.this n) h Hcur Hp) as Hone.
    rewrite Hg in Hone. cbn [snd] in Hone.
    destruct r as [[]|e].
    + match goal with
      | |- In _ (utxn.steps_since n (snd (utxn.replay _ _ _ _ ?c _ ?m))) -> _ =>
          specialize (IH c m (u32_range _) Hp);
          destruct (utxn.replay lw btcd cfg fuel c bestHeight m) as [r' n'] eqn:Hr;
          pose proof (replay_journal _ _ _ _ _ _ Hr) as Hj
      end.
      destruct Hj as [steps Hj]. cbn [snd utxn.journal] in *.
      unfold utxn.steps_since in *. rewrite Hj in *.
      rewrite drop_app_length in IH.
      rewrite <- app_assoc, drop_app_length.
      intros Hin. apply in_app_or in Hin. destruct Hin as [Hin|Hin].
      * apply in_map_iff in Hin. destruct Hin as [ev [Hev Hin]].
        inversion Hev; subst ev. destruct (Hone Hin) as [Hlt ->].
        unfold is_u32 in *. lia.
      * apply IH. exact Hin.
    + cbn [snd utxn.journal]. unfold utxn.steps_since. cbn [utxn.journal].
      rewrite drop_app_length. intros Hin.
      apply in_map_iff in Hin. destruct Hin as [ev [Hev Hin]].
      inversion Hev; subst ev. destruct (Hone Hin) as [Hlt ->].
      unfold is_u32 in *. lia.
Qed.

(** X16.  Pruning stays behind during the replay: every height
    [reloadClasses] has the store purge lies at least [PruningDepth]
    below the best height of the chain (and above 0), however much fuel
    the replay is given. *)
Theorem reloadClasses_prunes_below_best (fuel : nat) (lastPrunedHeight : Z)
    (n : utxn.Nursery St Env) (blockHash : Hash) (bestHeight : Z) (e1 : Env)
    (h : Z) :
  is_u32 (PruningDepth cfg) ->
  utxn.GetBestBlock more (env (utxn.this n)) = (Ok (blockHash, bestHeight), e1) ->
  In (utxn.Did (EvPurgeHeight h))
     (utxn.steps_since n
        (snd (utxn.reloadClasses lw btcd cfg more fuel lastPrunedHeight n))) ->
  0 < h <= u32 bestHeight - PruningDepth cfg.
Proof.
  intros Hp Hbest. unfold utxn.reloadClasses.
  unfold bind at 1. rewrite viaEnv_run, Hbest. cbn [fst snd].
  destruct ((lastPrunedHeight =? 0) || (u32 bestHeight =? lastPrunedHeight)).
  - cbn [snd ret]. rewrite (steps_since_app _ _ [utxn.StepGetBestBlock]) by reflexivity.
    intros [Hin|[]]. discriminate Hin.
  - destruct (utxn.replay lw btcd cfg fuel (u32 (lastPrunedHeight + 1)) (u32 bestHeight)
                (answered n e1 utxn.StepGetBestBlock)) as [r n'] eqn:Hr.
    pose proof (replay_purges fuel (u32 (lastPrunedHeight + 1)) (u32 bestHeight)
                  (answered n e1 utxn.StepGetBestBlock) h (u32_range _) Hp) as Hin.
    rewrite Hr in Hin. cbn [snd] in *.
    destruct (replay_journal _ _ _ _ _ _ Hr) as [steps Hj].
    rewrite (steps_since_app _ _ _ Hj) in Hin.
    cbn [utxn.journal answered] in Hj. rewrite <- app_assoc in Hj.
    rewrite (steps_since_app _ _ _ Hj).
    intros [Hg|Hs]; [discriminate Hg | exact (Hin Hs)].
Qed.

End ReloadClasses.

(** ** One sweep per class, through the replay and the block loop *)

Section ReplayKeepsOneSweep.

Context {Env : Type}.
Variable lw : Consts.
Variable btcd : Btcd.
Variable cfg : NurseryConfig SpecStore.NurseryState Env.
Variable more : utxn.NurseryConfigRest SpecStore.NurseryState Env.
Hypothesis cfg_store : Store cfg = SpecStore.ops.

Lemma core_graduateClass_this h (n : utxn.Nursery SpecStore.NurseryState Env) :
  utxn.this (snd (utxn.core (graduateClass lw btcd cfg h) n))
  = snd (graduateClass lw btcd cfg h (utxn.this n)).
Proof.
  unfold utxn.core. destruct (graduateClass lw btcd cfg h (utxn.this n)).
  reflexivity.
Qed.

Lemma replay_reachable fuel curHeight bestHeight
    (n : utxn.Nursery SpecStore.NurseryState Env) :
  reachable lw btcd cfg (utxn.this n) ->
  reachable lw btcd cfg
    (utxn.this (snd (utxn.replay lw btcd cfg fuel curHeight bestHeight n))).
Proof.
  revert curHeight n. induction fuel as [|fuel IH]; intros cur n Hr;
    cbn [utxn.replay].
  - destruct (cur <=? bestHeight); exact Hr.
  - destruct (cur <=? bestHeight); [| exact Hr].
    pose proof (reach_graduateClass lw btcd cfg _ cur Hr) as Hr1.
    rewrite <- core_graduateClass_this in Hr1.
    rewrite bind_run.
    destruct (utxn.core (graduateClass lw btcd cfg cur) n) as [[[]|e] n1];
      cbn [snd] in *; [apply IH; exact Hr1 | exact Hr1].
Qed.

Lemma reloadClasses_reachable fuel lastPrunedHeight
    (n : utxn.Nursery SpecStore.NurseryState Env) :
  reachable lw btcd cfg (utxn.this n) ->
  reachable lw btcd cfg
    (utxn.this (snd (utxn.reloadClasses lw btcd cfg more fuel lastPrunedHeight n))).
Proof.
  intros Hr. unfold utxn.reloadClasses. rewrite bind_run, viaEnv_run.
  assert (Hr1 : forall e1 st, reachable lw btcd cfg (utxn.this (answered n e1 st))).
  { intros e1 st. cbn [utxn.this answered].
    apply (reach_elsewhere lw btcd cfg (utxn.this n)); [exact Hr |].
    apply same_finalization_refl. }
  destruct (utxn.GetBestBlock more (env (utxn.this n))) as [[best|e] e1];
    cbn [fst snd]; [| apply Hr1].
  destruct ((lastPrunedHeight =? 0) || (u32 (snd best) =? lastPrunedHeight));
    [apply Hr1 |].
  apply replay_reachable, Hr1.
Qed.

Lemma incubator_reachable newBlockChan selected
    (n : utxn.Nursery SpecStore.NurseryState Env) :
  reachable lw btcd cfg (utxn.this n) ->
  reachable lw btcd cfg
    (utxn.this (snd (utxn.incubator lw btcd cfg newBlockChan selected n))).
Proof.
  revert n. induction selected as [|[epoch| |] later IH]; intros n Hr;
    cbn [utxn.incubator]; try exact Hr.
  rewrite bind_run. unfold try_.
  pose proof (reach_graduateClass lw btcd cfg _ (u32 (utxn.epoch_Height epoch)) Hr)
    as Hr1.
  rewrite <- core_graduateClass_this in Hr1.
  destruct (utxn.core (graduateClass lw btcd cfg (u32 (utxn.epoch_Height epoch))) n)
    as [r n1].
  apply IH. exact Hr1.
Qed.

(** X17.  The single-txid guarantee holds across a restart and through
    the block loop: from any state the nursery can reach, the replay of
    [reloadClasses] and a run of the [incubator] on any sequence of
    blocks lead to states it can reach, in which two transactions
    broadcast as the sweep of one class are one and the same.  (On a
    store that keeps its contract, as for the guarantee itself.) *)
Theorem replay_and_block_loop_keep_one_sweep
    (n : utxn.Nursery SpecStore.NurseryState Env) :
  reachable lw btcd cfg (utxn.this n) ->
  let one_sweep (n' : utxn.Nursery SpecStore.NurseryState Env) :=
    reachable lw btcd cfg (utxn.this n') /\
    forall h tx tx',
      sweep_broadcast (trace (utxn.this n')) h tx ->
      sweep_broadcast (trace (utxn.this n')) h tx' -> tx = tx' in
  (forall fuel lastPrunedHeight,
     one_sweep (snd (utxn.reloadClasses lw btcd cfg more fuel lastPrunedHeight n))) /\
  (forall newBlockChan selected,
     one_sweep (snd (utxn.incubator lw btcd cfg newBlockChan selected n))).
Proof.
  intros Hr one_sweep.
  assert (Hone : forall n', reachable lw btcd cfg (utxn.this n') -> one_sweep n').
  { intros n' Hr'. split; [exact Hr' |].
    destruct (reachable_pinned lw btcd cfg cfg_store _ Hr') as (_ & _ & _ & H).
    exact H. }
  split.
  - intros fuel lph. apply Hone, reloadClasses_reachable, Hr.
  - intros ch selected. apply Hone, incubator_reachable, Hr.
Qed.

End ReplayKeepsOneSweep.

(** ** [Start] and [Stop] *)

Lemma quietly_refl {St Env} P (n : utxn.Nursery St Env) : quietly P n n.
Proof. split; [apply same_flags_refl | apply journal_grows_refl]. Qed.

Lemma quietly_trans {St Env} P (n m k : utxn.Nursery St Env) :
  quietly P n m -> quietly P m k -> quietly P n k.
Proof.
  intros [F1 J1] [F2 J2]. split;
    [eapply same_flags_trans | eapply journal_grows_trans]; eassumption.
Qed.

Lemma quietly_core {St Env A} (P : utxn.Step -> Prop)
    (c : M (utxoNursery St Env) A) :
  (forall ev, P (utxn.Did ev)) -> keeps (quietly P) (utxn.core c).
Proof.
  intros HP n r n' H. split; [eapply same_flags_core; eassumption |].
  unfold utxn.core in H. destruct (c (utxn.this n)) as [x u'].
  inversion H; subst. eexists. split; [reflexivity |].
  apply Forall_map, List.Forall_forall. intros ev _. apply HP.
Qed.

Lemma quietly_viaStore {St Env A} (P : utxn.Step -> Prop) st (c : M St A) :
  P st -> keeps (quietly (St:=St) (Env:=Env) P) (utxn.viaStore st c).
Proof.
  intros HP n r n' H. split;
    [eapply same_flags_viaStore | eapply journal_grows_viaStore]; eassumption.
Qed.

Lemma quietly_viaEnv {St Env A} (P : utxn.Step -> Prop) st (c : M Env A) :
  P st -> keeps (quietly (St:=St) (Env:=Env) P) (utxn.viaEnv st c).
Proof.
  intros HP n r n' H. split;
    [eapply same_flags_viaEnv | eapply journal_grows_viaEnv]; eassumption.
Qed.

Lemma quietly_record {St Env} (P : utxn.Step -> Prop) st :
  P st -> keeps (quietly (St:=St) (Env:=Env) P) (utxn.record st).
Proof.
  intros HP n r n' H. split;
    [eapply same_flags_record | eapply journal_grows_record]; eassumption.
Qed.

Ltac quiet_step :=
  first
    [ apply keeps_ret; [apply quietly_refl]
    | apply keeps_fail; [apply quietly_refl]
    | apply keeps_try
    | apply keeps_range; [apply quietly_refl | apply quietly_trans | intros ]
    | apply keeps_orReturn; [apply quietly_refl | apply quietly_trans | | intros ]
    | apply keeps_bind; [apply quietly_trans | | intros ]
    | apply quietly_core
    | apply quietly_viaStore
    | apply quietly_viaEnv
    | apply quietly_record
    | match goal with
      | |- keeps _ (if ?b then _ else _) => destruct b
      | |- keeps _ (match ?x with _ => _ end) => destruct x
      end ].

Section StartStop.

Context {St Env : Type}.
Variable lw : Consts.
Variable btcd : Btcd.
Variable cfg : NurseryConfig St Env.
Variable more : utxn.NurseryConfigRest St Env.

Lemma closeAndRemoveIfMature_quietly P chanPoint :
  (forall ev, P (utxn.Did ev)) ->
  P (utxn.StepIsMatureChannel chanPoint) -> P (utxn.StepRemoveChannel chanPoint) ->
  keeps (quietly P) (utxn.closeAndRemoveIfMature cfg more chanPoint).
Proof.
  intros Hd Hi Hr. unfold utxn.closeAndRemoveIfMature.
  quiet_step; [quiet_step; quiet_step; exact Hi |].
  quiet_step.
  - quiet_step; [quiet_step |].
    quiet_step; [quiet_step; exact Hd | quiet_step; exact Hr].
  - quiet_step; quiet_step.
Qed.

Lemma reloadPreschool_quietly P heightHint :
  (forall ev, P (utxn.Did ev)) -> P utxn.StepFetchPreschools ->
  keeps (quietly P) (utxn.reloadPreschool cfg more heightHint).
Proof.
  intros Hd Hf. unfold utxn.reloadPreschool.
  quiet_step; [quiet_step; exact Hf |].
  quiet_step. quiet_step; [quiet_step; exact Hd |]. quiet_step. exact Hd.
Qed.

Lemma replay_quietly P fuel curHeight bestHeight :
  (forall ev, P (utxn.Did ev)) ->
  keeps (quietly P) (utxn.replay lw btcd cfg fuel curHeight bestHeight).
Proof.
  intros Hd. revert curHeight.
  induction fuel as [|fuel IH]; intros cur; cbn [utxn.replay].
  - destruct (cur <=? bestHeight); quiet_step.
  - destruct (cur <=? bestHeight); [| quiet_step].
    quiet_step; [quiet_step; exact Hd | apply IH].
Qed.

Lemma reloadClasses_quietly P fuel lastPrunedHeight :
  (forall ev, P (utxn.Did ev)) -> P utxn.StepGetBestBlock ->
  keeps (quietly P) (utxn.reloadClasses lw btcd cfg more fuel lastPrunedHeight).
Proof.
  intros Hd Hg. unfold utxn.reloadClasses.
  quiet_step; [quiet_step; exact Hg |].
  quiet_step; [quiet_step |]. apply replay_quietly. exact Hd.
Qed.

(** The first step of [reloadPreschool] is to fetch the preschool
    outputs, whatever comes of it. *)
Lemma reloadPreschool_first_step heightHint (n : utxn.Nursery St Env) r n' :
  utxn.reloadPreschool cfg more heightHint n = (r, n') ->
  same_flags n n' /\
  exists steps, utxn.journal n' = utxn.journal n ++ utxn.StepFetchPreschools :: steps.
Proof.
  intros Hrun.
  pose proof (reloadPreschool_quietly (fun _ => True) heightHint
                (fun _ => I) I n r n' Hrun) as [Hf _].
  split; [exact Hf |]. unfold utxn.reloadPreschool in Hrun.
  rewrite bind_run, viaStore_run in Hrun.
  destruct (utxn.FetchPreschools (utxn.StoreRest more) (store (utxn.this n)))
    as [[kids|e] s1]; cbn [fst snd] in Hrun.
  - match type of Hrun with
    | utxn.range ?l ?b ?m = _ =>
        assert (Hq : keeps (quietly (fun _ => True)) (utxn.range l b))
    end.
    { quiet_step. quiet_step; [quiet_step; auto | quiet_step; auto]. }
    apply Hq in Hrun. destruct Hrun as [_ [steps [Hj _]]].
    exists steps. rewrite Hj. cbn [utxn.journal stored].
    rewrite <- app_assoc. reflexivity.
  - inversion Hrun; subst. exists []. reflexivity.
Qed.

(** [orClose] on a function that leaves [u.quit] alone, the channel
    being open: a failure closes it and is returned. *)
Lemma orClose_run {A} (c : M (utxn.Nursery St Env) A) (n : utxn.Nursery St Env) :
  keeps same_flags c -> utxn.quit n = false ->
  utxn.orClose c n
  = match c n with
    | (Ok a, n1) => (Ok a, n1)
    | (Err e, n1) => (Err e, shut n1)
    end.
Proof.
  intros Hc Hq. unfold utxn.orClose, bind, try_.
  destruct (c n) as [[a|e] n1] eqn:Hcn; [reflexivity |].
  apply Hc in Hcn. destruct Hcn as (_ & _ & Hq1).
  unfold utxn.closeQuit. rewrite Hq1, Hq. reflexivity.
Qed.

Lemma same_switches_orClose {A} (c : M (utxn.Nursery St Env) A) :
  keeps same_switches c -> keeps same_switches (utxn.orClose c).
Proof.
  intros Hc. unfold utxn.orClose.
  apply keeps_bind; [apply same_switches_trans | apply keeps_try; exact Hc |].
  intros [a|e].
  - apply keeps_ret. apply same_switches_refl.
  - apply keeps_bind; [apply same_switches_trans | apply same_switches_closeQuit |].
    intros _. apply keeps_fail. apply same_switches_refl.
Qed.

Lemma quietly_switches {A} P (c : M (utxn.Nursery St Env) A) :
  keeps (quietly P) c -> keeps same_switches c.
Proof.
  apply keeps_weaken. intros n n' [Hf _]. apply same_flags_switches. exact Hf.
Qed.

Lemma quietly_flags {A} P (c : M (utxn.Nursery St Env) A) :
  keeps (quietly P) c -> keeps same_flags c.
Proof. apply keeps_weaken. intros n n' [Hf _]. exact Hf. Qed.

(** What comes after the compare-and-swap in [Start]. *)
Lemma Start_unfold fuel (n : utxn.Nursery St Env) :
  utxn.started n = 0 ->
  utxn.Start lw btcd cfg more fuel n
  = (pendingCloseChans <- utxn.viaEnv (utxn.StepFetchClosedChannels true)
                            (utxn.FetchClosedChannels more true) ;;
     utxn.range pendingCloseChans
       (fun pendingClose =>
          utxn.closeAndRemoveIfMature cfg more (utxn.closed_ChanPoint pendingClose)) ;;
     lastPrunedHeight <- utxn.viaStore utxn.StepLastPurgedHeight
                           (utxn.LastPurgedHeight (utxn.StoreRest more)) ;;
     utxn.orClose (utxn.reloadPreschool cfg more lastPrunedHeight) ;;
     replayed <- utxn.orClose (utxn.reloadClasses lw btcd cfg more fuel lastPrunedHeight) ;;
     match replayed with
     | utxn.StillRunning => ret utxn.StillRunning
     | utxn.Returned _ =>
         newBlockChan <- utxn.orClose (utxn.viaEnv utxn.StepRegisterBlockEpochNtfn
                                         (utxn.RegisterBlockEpochNtfn more)) ;;
         utxn.record (utxn.StepGoIncubator newBlockChan) ;;
         ret (utxn.Returned tt)
     end)
    {| utxn.started := 1; utxn.stopped := utxn.stopped n; utxn.quit := utxn.quit n;
       utxn.this := utxn.this n; utxn.journal := utxn.journal n |}.
Proof.
  intros Hs. unfold utxn.Start, utxn.swapStarted. rewrite Hs. reflexivity.
Qed.

Lemma Start_switches fuel (n : utxn.Nursery St Env) :
  utxn.started (snd (utxn.Start lw btcd cfg more fuel n)) <> 0 /\
  utxn.stopped (snd (utxn.Start lw btcd cfg more fuel n)) = utxn.stopped n.
Proof.
  destruct (Z.eqb_spec (utxn.started n) 0) as [Hs|Hs].
  2:{ unfold utxn.Start, utxn.swapStarted.
      destruct (Z.eqb_spec (utxn.started n) 0); [contradiction |].
      cbn [negb snd]. split; [exact Hs | reflexivity]. }
  rewrite (Start_unfold _ _ Hs).
  match goal with
  | |- context [?c ?m] =>
      lazymatch type of m with
      | utxn.Nursery St Env =>
          lazymatch c with
          | bind _ _ =>
              assert (Hk : keeps same_switches c);
              [| destruct (c m) as [r n'] eqn:Hrun; apply Hk in Hrun;
                 destruct Hrun as [H1 H2]; cbn [snd utxn.started utxn.stopped] in *;
                 rewrite H1, H2; split; [discriminate | reflexivity] ]
          end
      end
  end.
  apply keeps_bind; [apply same_switches_trans | |].
  { eapply quietly_switches with (P := fun _ => True). quiet_step. exact I. }
  intros pending.
  apply keeps_bind; [apply same_switches_trans | |].
  { eapply quietly_switches with (P := fun _ => True). quiet_step.
    apply closeAndRemoveIfMature_quietly; auto. }
  intros _.
  apply keeps_bind; [apply same_switches_trans | |].
  { eapply quietly_switches with (P := fun _ => True). quiet_step. exact I. }
  intros lph.
  apply keeps_bind; [apply same_switches_trans | |].
  { apply same_switches_orClose.
    eapply quietly_switches with (P := fun _ => True).
    apply reloadPreschool_quietly; auto. }
  intros _.
  apply keeps_bind; [apply same_switches_trans | |].
  { apply same_switches_orClose.
    eapply quietly_switches with (P := fun _ => True).
    apply reloadClasses_quietly; auto. }
  intros [[]|].
  - apply keeps_bind; [apply same_switches_trans | |].
    { apply same_switches_orClose.
      eapply quietly_switches with (P := fun _ => True). quiet_step. exact I. }
    intros ch.
    apply keeps_bind; [apply same_switches_trans | |].
    { eapply quietly_switches with (P := fun _ => True). quiet_step. exact I. }
    intros _. apply keeps_ret. apply same_switches_refl.
  - apply keeps_ret. apply same_switches_refl.
Qed.

(** X18.  [Start] does its work once.  On a nursery whose [started]
    flag is set it returns [nil] and does nothing; and the flag is set
    by the first call whatever its outcome, so that a [Start] that
    failed is not tried again by calling [Start] again. *)
Theorem Start_runs_once (fuel fuel' : nat) (n : utxn.Nursery St Env) :
  (utxn.started n <> 0 ->
   utxn.Start lw btcd cfg more fuel n = (Ok (utxn.Returned tt), n)) /\
  let n' := snd (utxn.Start lw btcd cfg more fuel n) in
  utxn.Start lw btcd cfg more fuel' n' = (Ok (utxn.Returned tt), n').
Proof.
  assert (Honce : forall f (m : utxn.Nursery St Env),
            utxn.started m <> 0 ->
            utxn.Start lw btcd cfg more f m = (Ok (utxn.Returned tt), m)).
  { intros f m Hm. unfold utxn.Start, utxn.swapStarted.
    destruct (Z.eqb_spec (utxn.started m) 0); [contradiction | reflexivity]. }
  split; [apply Honce |].
  intros n'. apply Honce. apply Start_switches.
Qed.

(** What a first [Start] comes to, [u.quit] being open. *)
Lemma Start_outcome fuel (n : utxn.Nursery St Env) r n' :
  utxn.started n = 0 -> utxn.quit n = false ->
  utxn.Start lw btcd cfg more fuel n = (r, n') ->
  exists steps,
    utxn.journal n' = utxn.journal n ++ steps /\
    match r with
    | Ok (utxn.Returned _) =>
        utxn.quit n' = false /\
        exists before newBlockChan,
          steps = before ++ [utxn.StepGoIncubator newBlockChan]
    | Ok utxn.StillRunning => utxn.quit n' = false
    | Err e =>
        (In utxn.StepFetchPreschools steps ->
         utxn.quit n' = true /\
         exists before, steps = before ++ [utxn.StepCloseQuit]) /\
        (~ In utxn.StepFetchPreschools steps -> utxn.quit n' = false)
    end.
Proof.
  intros Hs Hq Hrun. rewrite (Start_unfold _ _ Hs) in Hrun.
  set (n0 := {| utxn.started := 1; utxn.stopped := utxn.stopped n;
                utxn.quit := utxn.quit n; utxn.this := utxn.this n;
                utxn.journal := utxn.journal n |}) in Hrun.
  assert (Hq0 : utxn.quit n0 = false) by exact Hq.
  assert (Hj0 : utxn.journal n0 = utxn.journal n) by reflexivity.
  clearbody n0.
  assert (Hearly : forall steps (m : utxn.Nursery St Env),
            utxn.journal m = utxn.journal n ++ steps ->
            Forall early_step steps -> utxn.quit m = false ->
            (In utxn.StepFetchPreschools steps ->
             utxn.quit m = true /\
             exists before, steps = before ++ [utxn.StepCloseQuit]) /\
            (~ In utxn.StepFetchPreschools steps -> utxn.quit m = false)).
  { intros steps m _ HF Hm. split; [| intros _; exact Hm].
    intros Hin. rewrite List.Forall_forall in HF.
    destruct (HF _ Hin) as [Hne _]. contradiction. }
  assert (Hlate : forall steps (m : utxn.Nursery St Env),
            In utxn.StepFetchPreschools steps ->
            (In utxn.StepFetchPreschools (steps ++ [utxn.StepCloseQuit]) ->
             utxn.quit (shut m) = true /\
             exists before,
               steps ++ [utxn.StepCloseQuit] = before ++ [utxn.StepCloseQuit]) /\
            (~ In utxn.StepFetchPreschools (steps ++ [utxn.StepCloseQuit]) ->
             utxn.quit (shut m) = false)).
  { intros steps m Hin. split.
    - intros _. split; [reflexivity | exists steps; reflexivity].
    - intros Hn. exfalso. apply Hn. apply in_or_app. left. exact Hin. }
  (* the pending channels *)
  rewrite bind_run in Hrun.
  destruct (utxn.viaEnv (utxn.StepFetchClosedChannels true)
              (utxn.FetchClosedChannels more true) n0) as [[pending|e] n1] eqn:H1.
  all: assert (He1 : early_step (utxn.StepFetchClosedChannels true))
         by (split; discriminate);
    pose proof (quietly_viaEnv early_step _ _ He1 _ _ _ H1)
         as [(_ & _ & Hq1) [s1 [J1 E1]]];
    rewrite Hq0 in Hq1; rewrite Hj0 in J1.
  2:{ inversion Hrun; subst. exists s1. split; [exact J1 |].
      eapply Hearly; eassumption. }
  rewrite bind_run in Hrun.
  match type of Hrun with
  | match ?c n1 with _ => _ end = _ =>
      destruct (c n1) as [[[]|e] n2] eqn:H2;
      assert (Hk2 : keeps (quietly early_step) c)
        by (quiet_step; apply closeAndRemoveIfMature_quietly;
            repeat split; discriminate)
  end.
  all: pose proof (Hk2 _ _ _ H2) as [(_ & _ & Hq2) [s2 [J2 E2]]];
    rewrite Hq1 in Hq2; rewrite J1, <- app_assoc in J2;
    pose proof (proj2 (Forall_app _ _ _) (conj E1 E2)) as E12.
  2:{ inversion Hrun; subst. eexists. split; [exact J2 |].
      eapply Hearly; eassumption. }
  rewrite bind_run in Hrun.
  destruct (utxn.viaStore utxn.StepLastPurgedHeight
              (utxn.LastPurgedHeight (utxn.StoreRest more)) n2)
    as [[lph|e] n3] eqn:H3.
  all: assert (He3 : early_step utxn.StepLastPurgedHeight)
         by (split; discriminate);
    pose proof (quietly_viaStore early_step _ _ He3 _ _ _ H3)
         as [(_ & _ & Hq3) [s3 [J3 E3]]];
    rewrite Hq2 in Hq3; rewrite J2, <- app_assoc in J3;
    pose proof (proj2 (Forall_app _ _ _) (conj E12 E3)) as E123.
  2:{ inversion Hrun; subst. eexists. split; [exact J3 |].
      eapply Hearly; eassumption. }
  (* the preschool outputs *)
  rewrite bind_run, orClose_run in Hrun;
    [| eapply quietly_flags, (reloadPreschool_quietly (fun _ => True)); auto
     | exact Hq3].
  destruct (utxn.reloadPreschool cfg more lph n3) as [[[]|e] n4] eqn:H4.
  all: destruct (reloadPreschool_first_step _ _ _ _ H4)
         as [(_ & _ & Hq4) [s4 J4]];
    rewrite Hq3 in Hq4; rewrite J3, <- app_assoc in J4;
    match type of J4 with
    | _ = _ ++ ?L => assert (Hin4 : In utxn.StepFetchPreschools L) by apply in_elt
    end.
  2:{ inversion Hrun; subst.
      match type of J4 with
      | _ = _ ++ ?L => exists (L ++ [utxn.StepCloseQuit])
      end.
      split; [cbn [utxn.journal shut]; rewrite J4, <- app_assoc; reflexivity |].
      apply Hlate. exact Hin4. }
  (* the replay *)
  rewrite bind_run, orClose_run in Hrun;
    [| eapply quietly_flags, (reloadClasses_quietly (fun _ => True)); auto
     | exact Hq4].
  destruct (utxn.reloadClasses lw btcd cfg more fuel lph n4) as [[replayed|e] n5] eqn:H5.
  all: pose proof (reloadClasses_quietly (fun _ => True) fuel lph
                     (fun _ => I) I _ _ _ H5) as [(_ & _ & Hq5) [s5 [J5 _]]];
    rewrite Hq4 in Hq5; rewrite J4, <- app_assoc in J5;
    match type of J5 with
    | _ = _ ++ ?L =>
        assert (Hin5 : In utxn.StepFetchPreschools L)
          by (apply in_or_app; left; exact Hin4)
    end.
  2:{ inversion Hrun; subst.
      match type of J5 with
      | _ = _ ++ ?L => exists (L ++ [utxn.StepCloseQuit])
      end.
      split; [cbn [utxn.journal shut]; rewrite J5, <- app_assoc; reflexivity |].
      apply Hlate. exact Hin5. }
  destruct replayed as [[]|].
  2:{ inversion Hrun; subst. eexists. split; [exact J5 | exact Hq5]. }
  (* the block subscription *)
  rewrite bind_run, orClose_run in Hrun;
    [| eapply quietly_flags, (quietly_viaEnv (fun _ => True)); exact I
     | exact Hq5].
  destruct (utxn.viaEnv utxn.StepRegisterBlockEpochNtfn
              (utxn.RegisterBlockEpochNtfn more) n5) as [[ch|e] n6] eqn:H6.
  all: pose proof (quietly_viaEnv (fun _ => True) _ _ I _ _ _ H6)
         as [(_ & _ & Hq6) [s6 [J6 _]]];
    rewrite Hq5 in Hq6; rewrite J5, <- app_assoc in J6;
    match type of J6 with
    | _ = _ ++ ?L =>
        assert (Hin6 : In utxn.StepFetchPreschools L)
          by (apply in_or_app; left; exact Hin5)
    end.
  - inversion Hrun; subst.
    match type of J6 with
    | _ = _ ++ ?L => exists (L ++ [utxn.StepGoIncubator ch])
    end.
    split; [cbn [utxn.journal]; rewrite J6, <- app_assoc; reflexivity |].
    split; [exact Hq6 |]. eexists _, ch. reflexivity.
  - inversion Hrun; subst.
    match type of J6 with
    | _ = _ ++ ?L => exists (L ++ [utxn.StepCloseQuit])
    end.
    split; [cbn [utxn.journal shut]; rewrite J6, <- app_assoc; reflexivity |].
    apply Hlate. exact Hin6.
Qed.

(** X19.  When a first [Start] fails, whether it leaves [u.quit] closed
    depends on how far it came.  A failure of the channel database, of
    [closeAndRemoveIfMature] or of the read of the last purged height
    leaves the channel open.  From [reloadPreschool] on (its first step
    is to fetch the preschool outputs) a failure closes the channel, as
    the last thing done before the error is returned.  The incubator is
    started only when [Start] returns [nil], as its last step, and the
    channel is open then. *)
Theorem Start_failure_closes_quit (fuel : nat) (n : utxn.Nursery St Env) :
  utxn.started n = 0 -> utxn.quit n = false ->
  let out := utxn.Start lw btcd cfg more fuel n in
  let steps := utxn.steps_since n (snd out) in
  (forall e, fst out = Err e ->
     (In utxn.StepFetchPreschools steps ->
      utxn.quit (snd out) = true /\
      exists before, steps = before ++ [utxn.StepCloseQuit]) /\
     (~ In utxn.StepFetchPreschools steps -> utxn.quit (snd out) = false)) /\
  (fst out = Ok (utxn.Returned tt) ->
   utxn.quit (snd out) = false /\
   exists before newBlockChan,
     steps = before ++ [utxn.StepGoIncubator newBlockChan]).
Proof.
  intros Hs Hq out steps.
  assert (Hrun : utxn.Start lw btcd cfg more fuel n = out) by reflexivity.
  clearbody out. destruct out as [r n']. subst steps. cbn [fst snd].
  destruct (Start_outcome _ _ _ _ Hs Hq Hrun) as [steps [Hj Hcase]].
  rewrite (steps_since_app _ _ _ Hj). split.
  - intros e ->. exact Hcase.
  - intros ->. exact Hcase.
Qed.

Lemma Stop_run (n : utxn.Nursery St Env) :
  utxn.Stop n
  = if utxn.stopped n =? 0
    then (if utxn.quit n then (Err closed_twice, halted n)
          else (Ok tt, shut (halted n)))
    else (Ok tt, n).
Proof.
  unfold utxn.Stop, utxn.swapStopped, utxn.closeQuit.
  destruct (utxn.stopped n =? 0); cbn [negb]; [| reflexivity].
  cbn [utxn.quit]. unfold halted, shut.
  destruct (utxn.quit n); reflexivity.
Qed.

(** X20.  [Stop] closes [u.quit] without looking at it, and closing a
    closed channel panics.  So after a [Start] that failed from
    [reloadPreschool] on, which has closed the channel already, the
    first [Stop] panics; after a [Start] that returned [nil] it closes
    the channel and returns [nil], and a second [Stop] does nothing. *)
Theorem Stop_after_Start (fuel : nat) (n : utxn.Nursery St Env) :
  utxn.started n = 0 -> utxn.stopped n = 0 -> utxn.quit n = false ->
  let out := utxn.Start lw btcd cfg more fuel n in
  (forall e, fst out = Err e ->
     In utxn.StepFetchPreschools (utxn.steps_since n (snd out)) ->
     fst (utxn.Stop (snd out)) = Err closed_twice) /\
  (fst out = Ok (utxn.Returned tt) ->
   let stopped := utxn.Stop (snd out) in
   fst stopped = Ok tt /\ utxn.quit (snd stopped) = true /\
   utxn.Stop (snd stopped) = (Ok tt, snd stopped)).
Proof.
  intros Hs Hst Hq out.
  assert (Hrun : utxn.Start lw btcd cfg more fuel n = out) by reflexivity.
  clearbody out. destruct out as [r n']. cbn [fst snd].
  destruct (Start_outcome _ _ _ _ Hs Hq Hrun) as [steps [Hj Hcase]].
  rewrite (steps_since_app _ _ _ Hj).
  pose proof (Start_switches fuel n) as [_ Hst'].
  rewrite Hrun in Hst'. cbn [snd] in Hst'. rewrite Hst in Hst'.
  split.
  - intros e -> Hin. destruct Hcase as [Hclosed _].
    destruct (Hclosed Hin) as [Hq' _].
    rewrite Stop_run, Hst', Hq'. reflexivity.
  - intros ->. destruct Hcase as [Hq' _]. cbv zeta.
    rewrite (Stop_run n'), Hst', Hq'. cbn [Z.eqb fst snd].
    split; [reflexivity | split; [reflexivity |]].
    rewrite Stop_run. reflexivity.
Qed.

End StartStop.

(** ** The confirmation reactors *)

Section Reactors.

Context {St Env : Type}.
Variable cfg : NurseryConfig St Env.
Variable more : utxn.NurseryConfigRest St Env.
Variable visitOrder : list OutPoint -> list OutPoint.
Hypothesis visitOrder_permutes : forall l, Permutation (visitOrder l) l.

(** X21.  [waitForPromotion] and [waitForEnrollment] touch the store
    only when a confirmation arrives, and then with one call: the
    output they were started for goes to [PreschoolToKinder], or to
    [CribToKinder], with its confirmation height set to the block
    height of the confirmation and nothing else changed.  A failure of
    the store is swallowed, and when the confirmation channel or
    [u.quit] is closed instead nothing is done at all. *)
Theorem promotion_records_confirmation_height (kid : kidOutput)
    (baby : babyOutput) (selected : utxn.Selected utxn.TxConfirmation)
    (n : utxn.Nursery St Env) :
  let promoted := utxn.waitForPromotion more kid selected n in
  let enrolled := utxn.waitForEnrollment more baby selected n in
  match selected with
  | utxn.Received txConfirmation =>
      let kid' := SetConfHeight (utxn.BlockHeight txConfirmation) kid in
      let baby' := SetConfHeight (utxn.BlockHeight txConfirmation) baby in
      promoted
      = (Ok tt,
         stored n (snd (utxn.PreschoolToKinder (utxn.StoreRest more) kid'
                          (store (utxn.this n))))
           (utxn.StepPreschoolToKinder kid')) /\
      enrolled
      = (Ok tt,
         stored n (snd (utxn.CribToKinder (utxn.StoreRest more) baby'
                          (store (utxn.this n))))
           (utxn.StepCribToKinder baby')) /\
      ConfHeight kid' = utxn.BlockHeight txConfirmation /\
      kid_breachedOutput kid' = kid_breachedOutput kid /\
      originChanPoint kid' = originChanPoint kid /\
      blocksToMaturity kid' = blocksToMaturity kid /\
      ConfHeight baby' = utxn.BlockHeight txConfirmation /\
      expiry baby' = expiry baby /\ timeoutTx baby' = timeoutTx baby /\
      OutPointOf baby' = OutPointOf baby
  | _ => promoted = (Ok tt, n) /\ enrolled = (Ok tt, n)
  end.
Proof.
  intros promoted enrolled. subst promoted enrolled.
  destruct selected as [c| |]; [| split; reflexivity..].
  cbv zeta. unfold utxn.waitForPromotion, utxn.waitForEnrollment, utxn.orReturn.
  unfold bind, try_. rewrite !viaStore_run.
  split; [| split].
  - destruct (fst (utxn.PreschoolToKinder _ _ _)); reflexivity.
  - destruct (fst (utxn.CribToKinder _ _ _)); reflexivity.
  - repeat split.
Qed.

(** One call of [closeAndRemoveIfMature] asks the store about its
    channel once, first of all, and finalizes no class. *)
Lemma closeAndRemoveIfMature_steps chanPoint (n : utxn.Nursery St Env) r n' :
  utxn.closeAndRemoveIfMature cfg more chanPoint n = (r, n') ->
  exists tail,
    utxn.journal n' = utxn.journal n ++ utxn.StepIsMatureChannel chanPoint :: tail /\
    queried tail = [] /\
    Forall (fun st => forall h, st <> utxn.StepTryFinalizeClass h) tail.
Proof.
  rewrite closeAndRemoveIfMature_run. cbv zeta.
  destruct (fst (utxn.IsMatureChannel _ _ _)) as [[|]|e].
  - destruct (fst (MarkChanFullyClosed cfg chanPoint _)) as [[]|e];
      intros H; inversion H; subst; cbn [utxn.journal stored marked].
    + exists [utxn.Did (EvMarkChanFullyClosed chanPoint);
              utxn.StepRemoveChannel chanPoint].
      rewrite <- !app_assoc. split; [reflexivity | split; [reflexivity |]].
      repeat constructor; discriminate.
    + exists [utxn.Did (EvMarkChanFullyClosed chanPoint)].
      rewrite <- !app_assoc. split; [reflexivity | split; [reflexivity |]].
      repeat constructor; discriminate.
  - intros H; inversion H; subst. exists [].
    split; [reflexivity | split; [reflexivity | constructor]].
  - intros H; inversion H; subst. exists [].
    split; [reflexivity | split; [reflexivity | constructor]].
Qed.

Lemma queried_app s1 s2 : queried (s1 ++ s2) = queried s1 ++ queried s2.
Proof. unfold queried. apply flat_map_app. Qed.

(** The loop over the channels: they are asked about in order, up to
    the first failure. *)
Lemma closes_in_order chanPoints (n : utxn.Nursery St Env) r n' :
  utxn.range chanPoints (utxn.closeAndRemoveIfMature cfg more) n = (r, n') ->
  exists steps,
    utxn.journal n' = utxn.journal n ++ steps /\
    (exists asked, queried steps = take asked chanPoints) /\
    (r = Ok tt -> queried steps = chanPoints) /\
    Forall (fun st => forall h, st <> utxn.StepTryFinalizeClass h) steps.
Proof.
  revert n. induction chanPoints as [|cp cps IH]; intros n Hrun;
    cbn [utxn.range] in Hrun.
  - inversion Hrun; subst. exists []. rewrite app_nil_r.
    split; [reflexivity |]. split; [exists 0%nat; reflexivity |].
    split; [reflexivity | constructor].
  - rewrite bind_run in Hrun.
    destruct (utxn.closeAndRemoveIfMature cfg more cp n) as [[[]|e] n1] eqn:H1;
      destruct (closeAndRemoveIfMature_steps _ _ _ _ H1) as (tail & J1 & Q1 & F1).
    + destruct (IH _ Hrun) as (steps & J & [asked Ha] & Hok & F).
      exists ((utxn.StepIsMatureChannel cp :: tail) ++ steps).
      split; [rewrite J, J1, <- app_assoc; reflexivity |].
      rewrite queried_app. cbn [queried flat_map]. fold (queried tail).
      rewrite Q1. cbn [app].
      split; [exists (S asked); cbn; now rewrite Ha |].
      split; [intros Hr; now rewrite (Hok Hr) |].
      cbn [app]. constructor; [discriminate |].
      apply Forall_app_2; [exact F1 | exact F].
    + inversion Hrun; subst.
      exists (utxn.StepIsMatureChannel cp :: tail).
      split; [exact J1 |].
      cbn [queried flat_map]. fold (queried tail). rewrite Q1. cbn [app].
      split; [exists 1%nat; reflexivity |].
      split; [intros Hr; discriminate Hr |].
      constructor; [discriminate | exact F1].
Qed.

(** X22.  [waitForGraduation], when the confirmation of the sweep
    arrives, first hands the class to [GraduateKinder].  It then asks
    about each channel the outputs come from once, however many of the
    outputs share it, in the order the map of channel points is
    visited, up to the first failure.  [TryFinalizeClass] is called for
    the class only after [GraduateKinder] succeeded and every such
    channel has been dealt with.  No failure is returned, and when the
    confirmation channel or [u.quit] is closed instead nothing is
    done. *)
Theorem graduation_closes_each_channel_once (classHeight : Z)
    (kgtnOutputs : list kidOutput)
    (selected : utxn.Selected utxn.TxConfirmation) (n : utxn.Nursery St Env) :
  let out := utxn.waitForGraduation cfg more visitOrder classHeight kgtnOutputs
               selected n in
  let steps := utxn.steps_since n (snd out) in
  fst out = Ok tt /\
  match selected with
  | utxn.Received _ =>
      (exists later,
         steps = utxn.StepGraduateKinder classHeight kgtnOutputs :: later) /\
      NoDup (queried steps) /\
      (forall cp, In cp (queried steps) ->
         exists kid, In kid kgtnOutputs /\ OriginChanPoint kid = cp) /\
      (forall h, In (utxn.StepTryFinalizeClass h) steps ->
         h = classHeight /\
         fst (utxn.GraduateKinder (utxn.StoreRest more) classHeight kgtnOutputs
                (store (utxn.this n))) = Ok tt /\
         forall kid, In kid kgtnOutputs -> In (OriginChanPoint kid) (queried steps))
  | _ => snd out = n
  end.
Proof.
  intros out steps.
  assert (Hrun : out = utxn.waitForGraduation cfg more visitOrder classHeight
                         kgtnOutputs selected n) by reflexivity.
  clearbody out.
  destruct selected as [c| |]; [| subst out; split; reflexivity..].
  cbn [utxn.waitForGraduation] in Hrun. unfold utxn.orReturn at 1 in Hrun.
  rewrite bind_run in Hrun. unfold try_ at 1 in Hrun. rewrite viaStore_run in Hrun.
  set (n1 := stored n _ (utxn.StepGraduateKinder classHeight kgtnOutputs)) in Hrun.
  assert (Hperm : Permutation (visitOrder (utxn.possibleCloses kgtnOutputs))
                    (utxn.possibleCloses kgtnOutputs)) by apply visitOrder_permutes.
  assert (Hnd : NoDup (visitOrder (utxn.possibleCloses kgtnOutputs))).
  { rewrite Hperm. apply NoDup_remove_dups. }
  assert (Hsub : forall cp, In cp (visitOrder (utxn.possibleCloses kgtnOutputs)) <->
                            exists kid, In kid kgtnOutputs /\ OriginChanPoint kid = cp).
  { intros cp. rewrite <- list_elem_of_In, Hperm. unfold utxn.possibleCloses.
    rewrite elem_of_remove_dups, list_elem_of_In, in_map_iff.
    split; intros [kid [H1 H2]]; exists kid; tauto. }
  destruct (fst (utxn.GraduateKinder (utxn.StoreRest more) classHeight kgtnOutputs
                   (store (utxn.this n)))) as [[]|e] eqn:Hgrad.
  2:{ subst out steps. cbn [fst snd].
      rewrite (steps_since_app _ _ [utxn.StepGraduateKinder classHeight kgtnOutputs])
        by reflexivity.
      split; [reflexivity |]. split; [exists []; reflexivity |].
      split; [constructor |]. split; [intros cp [] |].
      intros h [H|[]]. discriminate H. }
  unfold utxn.orReturn at 1 in Hrun. rewrite bind_run in Hrun.
  unfold try_ at 1 in Hrun.
  destruct (utxn.range (visitOrder (utxn.possibleCloses kgtnOutputs))
              (utxn.closeAndRemoveIfMature cfg more) n1) as [r2 n2] eqn:H2.
  destruct (closes_in_order _ _ _ _ H2) as (s2 & J2 & [asked Ha] & Hok & F2).
  assert (Hq2 : NoDup (queried s2) /\
                forall cp, In cp (queried s2) ->
                  exists kid, In kid kgtnOutputs /\ OriginChanPoint kid = cp).
  { rewrite Ha. split.
    - exact (sublist_NoDup _ _ Hnd (sublist_take _ _)).
    - intros cp Hin. apply Hsub.
      apply list_elem_of_In. eapply subseteq_take.
      apply list_elem_of_In. exact Hin. }
  assert (Hno : forall h, ~ In (utxn.StepTryFinalizeClass h) s2).
  { intros h Hin. rewrite List.Forall_forall in F2. exact (F2 _ Hin h eq_refl). }
  destruct r2 as [[]|e].
  2:{ subst out steps. unfold ret. cbn [fst snd].
      rewrite (steps_since_app _ _
                 (utxn.StepGraduateKinder classHeight kgtnOutputs :: s2))
        by (rewrite J2; subst n1; cbn [utxn.journal stored];
            rewrite <- app_assoc; reflexivity).
      split; [reflexivity |]. split; [eexists; reflexivity |].
      cbn [queried flat_map app]. fold (queried s2).
      split; [apply Hq2 | split; [apply Hq2 |]].
      intros h [H|Hin]; [discriminate H | destruct (Hno _ Hin)]. }
  specialize (Hok eq_refl).
  unfold utxn.orReturn in Hrun. rewrite bind_run in Hrun. unfold try_ at 1 in Hrun.
  rewrite viaStore_run in Hrun.
  set (n3 := stored n2 _ (utxn.StepTryFinalizeClass classHeight)) in Hrun.
  assert (Htail : exists s4,
            fst out = Ok tt /\
            utxn.journal (snd out)
            = utxn.journal n
              ++ (utxn.StepGraduateKinder classHeight kgtnOutputs :: s2)
              ++ utxn.StepTryFinalizeClass classHeight :: s4 /\
            queried s4 = [] /\
            forall h, ~ In (utxn.StepTryFinalizeClass h) s4).
  { destruct (fst (utxn.TryFinalizeClass _ _ _)) as [[]|e].
    - rewrite bind_run in Hrun. unfold try_ in Hrun. rewrite core_run with
        (r := fst (onStore EvLastFinalizedHeight (LastFinalizedHeight (Store cfg))
                     (utxn.this n3)))
        (u' := snd (onStore EvLastFinalizedHeight (LastFinalizedHeight (Store cfg))
                      (utxn.this n3)))
        (evs := [EvLastFinalizedHeight]) in Hrun.
      + exists [utxn.Did EvLastFinalizedHeight]. subst out. cbn [fst snd utxn.journal].
        split; [reflexivity |]. split.
        * subst n3. cbn [stored utxn.journal]. rewrite J2.
          subst n1. cbn [stored utxn.journal].
          rewrite <- !app_assoc. reflexivity.
        * split; [reflexivity |]. intros h [H|[]]. discriminate H.
      + destruct (onStore _ _ _); reflexivity.
      + unfold onStore. destruct (LastFinalizedHeight (Store cfg) _). reflexivity.
    - exists []. subst out. unfold ret. cbn [fst snd].
      split; [reflexivity |]. split.
      + subst n3. cbn [stored utxn.journal]. rewrite J2.
        subst n1. cbn [stored utxn.journal].
        rewrite <- !app_assoc. reflexivity.
      + split; [reflexivity |]. intros h []. }
  destruct Htail as (s4 & Hfst & J4 & Q4 & N4). subst steps.
  rewrite (steps_since_app _ _ _ J4).
  split; [exact Hfst |]. split; [eexists; reflexivity |].
  assert (Hq : queried ((utxn.StepGraduateKinder classHeight kgtnOutputs :: s2)
                        ++ utxn.StepTryFinalizeClass classHeight :: s4)
               = queried s2).
  { rewrite queried_app. cbn [queried flat_map app]. fold (queried s2) (queried s4).
    rewrite Q4, app_nil_r. reflexivity. }
  rewrite Hq. split; [apply Hq2 | split; [apply Hq2 |]].
  intros h Hin. apply in_app_or in Hin. destruct Hin as [[H|Hin]|[H|Hin]].
  - discriminate H.
  - destruct (Hno _ Hin).
  - inversion H; subst h. split; [reflexivity | split; [reflexivity |]].
    intros kid Hkid. rewrite Hok. apply Hsub. exists kid. auto.
  - destruct (N4 _ Hin).
Qed.

End Reactors.

(** ** The block loop *)

Section BlockLoop.

Context {St Env : Type}.
Variable lw : Consts.
Variable btcd : Btcd.
Variable cfg : NurseryConfig St Env.

(** [graduateClass] fetches its class first of all, and no other. *)
Lemma graduateClass_fetches_once h (u : utxoNursery St Env) :
  exists evs,
    trace (snd (graduateClass lw btcd cfg h u)) = trace u ++ EvFetchClass h :: evs /\
    Forall past_fetch evs.
Proof.
  destruct (graduateClass lw btcd cfg h u) as [r u'] eqn:Hrun. cbn [snd].
  unfold graduateClass in Hrun.
  rewrite bind_run in Hrun. cbn [setCurrentHeight fst snd] in Hrun.
  rewrite bind_run in Hrun.
  match type of Hrun with
  | context [onStore ?ev ?c ?u0] =>
      destruct (onStore ev c u0) as [r1 u1] eqn:H1;
      assert (Ht1 : trace u1 = trace u ++ [ev])
        by (unfold onStore in H1; cbn [store trace] in H1;
            destruct c; inversion H1; reflexivity)
  end.
  cbn [fst snd] in Hrun.
  destruct r1 as [class|e].
  2:{ inversion Hrun; subst. exists []. split; [exact Ht1 | constructor]. }
  match type of Hrun with
  | ?c u1 = _ => assert (Hg : respects (grows past_fetch) c)
  end.
  { assert (Hs : forall ev, sweep_event ev -> past_fetch ev)
      by (intros ev Hev; destruct ev; cbn in *; tauto).
    assert (Hb : forall ev, broadcast_event ev -> past_fetch ev)
      by (intros ev Hev; destruct ev; cbn in *; tauto).
    repeat first
      [ apply createSweepTx_grows; exact Hs
      | apply sweepGraduatingKinders_grows; exact Hb
      | apply respects_forEach;
          [apply grows_refl | apply grows_trans
          | intros; apply sweepCribOutput_grows; exact Hb]
      | exact I
      | frame_step ]. }
  destruct (Hg _ _ _ Hrun) as [evs [Ht HF]].
  exists evs. split; [| exact HF].
  rewrite Ht, Ht1, <- app_assoc. reflexivity.
Qed.

Lemma fetched_app s1 s2 : fetched (s1 ++ s2) = fetched s1 ++ fetched s2.
Proof. unfold fetched. apply flat_map_app. Qed.

Lemma cancels_app s1 s2 : cancels (s1 ++ s2) = cancels s1 ++ cancels s2.
Proof. unfold cancels. apply flat_map_app. Qed.

Lemma fetched_past evs : Forall past_fetch evs -> fetched (map utxn.Did evs) = [].
Proof.
  induction 1 as [|ev evs Hev _ IH]; [reflexivity |].
  cbn [map fetched flat_map]. fold (fetched (map utxn.Did evs)). rewrite IH.
  destruct ev; cbn in Hev; try reflexivity. destruct Hev.
Qed.

Lemma cancels_Did evs : cancels (map utxn.Did evs) = [].
Proof. induction evs as [|ev evs IH]; [reflexivity | exact IH]. Qed.

(** What one block does to the journal. *)
Lemma core_graduateClass_steps h (n : utxn.Nursery St Env) :
  exists steps,
    utxn.journal (snd (utxn.core (graduateClass lw btcd cfg h) n))
    = utxn.journal n ++ steps /\
    fetched steps = [h] /\ cancels steps = [] /\
    same_flags n (snd (utxn.core (graduateClass lw btcd cfg h) n)).
Proof.
  destruct (graduateClass_fetches_once h (utxn.this n)) as [evs [Ht HF]].
  unfold utxn.core.
  destruct (graduateClass lw btcd cfg h (utxn.this n)) as [r u'].
  cbn [snd] in *. exists (map utxn.Did (EvFetchClass h :: evs)).
  split; [| split; [| split]].
  - cbn [utxn.journal]. rewrite (events_since_app _ _ _ Ht). reflexivity.
  - cbn [map fetched flat_map app]. fold (fetched (map utxn.Did evs)).
    rewrite fetched_past by exact HF. reflexivity.
  - apply cancels_Did.
  - repeat split.
Qed.

(** X23.  The [incubator] outlives the failures of [graduateClass]: it
    graduates the class of every block it hears of before its epoch
    channel or [u.quit] is closed, one after the other, at the block's
    height taken as a [uint32], whether the earlier ones failed or not.
    It returns only once one of the two is closed, cancelling its block
    subscription as the last thing it does, and never touches
    [started], [stopped] or [u.quit]. *)
Theorem incubator_outlives_failures (newBlockChan : utxn.BlockEpochEvent)
    (selected : list (utxn.Selected utxn.BlockEpoch)) (n : utxn.Nursery St Env) :
  let out := utxn.incubator lw btcd cfg newBlockChan selected n in
  let steps := utxn.steps_since n (snd out) in
  fst out = Ok (if hangs_up selected then utxn.Returned tt else utxn.StillRunning) /\
  fetched steps = heard selected /\
  cancels steps = (if hangs_up selected then [newBlockChan] else []) /\
  (hangs_up selected = true ->
   exists before, steps = before ++ [utxn.StepCancel newBlockChan]) /\
  same_flags n (snd out).
Proof.
  cbv zeta.
  assert (Hrun : exists steps,
            utxn.journal (snd (utxn.incubator lw btcd cfg newBlockChan selected n))
            = utxn.journal n ++ steps /\
            fst (utxn.incubator lw btcd cfg newBlockChan selected n)
            = Ok (if hangs_up selected then utxn.Returned tt
                  else utxn.StillRunning) /\
            fetched steps = heard selected /\
            cancels steps = (if hangs_up selected then [newBlockChan] else []) /\
            (hangs_up selected = true ->
             exists before, steps = before ++ [utxn.StepCancel newBlockChan]) /\
            same_flags n (snd (utxn.incubator lw btcd cfg newBlockChan selected n))).
  { revert n. induction selected as [|[epoch| |] later IH]; intros n.
    - exists []. cbn. rewrite app_nil_r. repeat split. discriminate.
    - cbn [utxn.incubator hangs_up existsb orb heard].
      fold (hangs_up later). rewrite bind_run. unfold try_.
      destruct (core_graduateClass_steps (u32 (utxn.epoch_Height epoch)) n)
        as (s1 & J1 & F1 & C1 & Fl1).
      destruct (utxn.core (graduateClass lw btcd cfg (u32 (utxn.epoch_Height epoch))) n)
        as [r n1].
      cbn [fst snd] in *.
      destruct (IH n1) as (s2 & J2 & R2 & F2 & C2 & L2 & Fl2).
      exists (s1 ++ s2).
      split; [rewrite J2, J1, <- app_assoc; reflexivity |].
      split; [exact R2 |].
      split; [rewrite fetched_app, F1, F2; reflexivity |].
      split; [rewrite cancels_app, C1, C2; reflexivity |].
      split; [| exact (same_flags_trans _ _ _ Fl1 Fl2)].
      intros Hh. destruct (L2 Hh) as [before ->].
      exists (s1 ++ before). rewrite <- app_assoc. reflexivity.
    - exists [utxn.StepCancel newBlockChan]. cbn. repeat split.
      intros _. exists []. reflexivity.
    - exists [utxn.StepCancel newBlockChan]. cbn. repeat split.
      intros _. exists []. reflexivity. }
  destruct Hrun as (steps & J & R & F & C & L & Fl).
  rewrite (steps_since_app _ _ _ J). repeat split; try assumption; apply Fl.
Qed.

End BlockLoop.

(** ** The theorems on start-up and on the reactors, on the small
    concrete world *)

(** Two preschool outputs, a store purged up to height 50: both are
    watched again, with 50 as the height hint. *)
Lemma reloadPreschool_rewatches_in_order_witness :
  let kids := [Demo.kid 1 500000 0 144 0; Demo.kid 2 300000 0 144 0] in
  let s := DemoRest.store_with_preschool 50 kids in
  let n := DemoRest.fresh (Demo.nursery s (Demo.world 1 [] [])) in
  let more := DemoRest.more (Ok 52) (Ok []) in
  let out := utxn.reloadPreschool (Demo.cfg 1 6) more 50 n in
  utxn.FetchPreschools (utxn.StoreRest more) (store (utxn.this n)) = (Ok kids, s) /\
  fst out = Ok tt /\
  store (utxn.this (snd out)) = s /\
  exists steps,
    utxn.steps_since n (snd out) = utxn.StepFetchPreschools :: steps /\
    promotions steps = kids /\
    watches steps = [(Demo.hash 1, 1, 50); (Demo.hash 2, 1, 50)].
Proof.
  intros kids s n more out.
  assert (Hfetch : utxn.FetchPreschools (utxn.StoreRest more) (store (utxn.this n))
                   = (Ok kids, s)) by reflexivity.
  assert (Hok : fst out = Ok tt) by (vm_compute; reflexivity).
  split; [exact Hfetch | split; [exact Hok |]].
  destruct (reloadPreschool_rewatches_in_order (Demo.cfg 1 6) more 50 n kids s Hfetch)
    as (Hstore & steps & Hsteps & _ & [tried Hw] & Hall).
  split; [exact Hstore |].
  exists steps. split; [exact Hsteps |].
  destruct (Hall Hok) as [Hp Hlen]. split; [exact Hp |].
  rewrite Hw in Hlen |- *. rewrite length_map in Hlen.
  rewrite take_ge by (rewrite length_take in Hlen; lia).
  reflexivity.
Defined.

(** A store that was never purged, the chain at height 52. *)
Lemma reloadClasses_skips_replay_witness :
  let n := DemoRest.fresh (Demo.nursery (Demo.store_with_kids 51 Demo.one_kid)
                             (Demo.world 1 [] [])) in
  let more := DemoRest.more (Ok 52) (Ok []) in
  utxn.GetBestBlock more (env (utxn.this n))
  = (Ok (Demo.hash 52, 52), Demo.world 1 [] []) /\
  (0 = 0 \/ u32 52 = 0) /\
  utxn.steps_since n
    (snd (utxn.reloadClasses Demo.lw Demo.btcd (Demo.cfg 1 6) more 5 0 n))
  = [utxn.StepGetBestBlock].
Proof.
  intros n more.
  assert (Hbest : utxn.GetBestBlock more (env (utxn.this n))
                  = (Ok (Demo.hash 52, 52), Demo.world 1 [] [])) by reflexivity.
  assert (Hskip : 0 = 0 \/ u32 52 = 0) by (left; reflexivity).
  split; [exact Hbest | split; [exact Hskip |]].
  rewrite (reloadClasses_skips_replay Demo.lw Demo.btcd (Demo.cfg 1 6) more 5 0 n
             _ _ _ Hbest Hskip).
  reflexivity.
Defined.

(** A store purged up to height 50, the chain at height 52: heights 51
    and 52 are replayed. *)
Lemma reloadClasses_replays_in_order_witness :
  let n := DemoRest.fresh (Demo.nursery (DemoRest.store_with_preschool 50 [])
                             (Demo.world 1 [] [])) in
  let more := DemoRest.more (Ok 52) (Ok []) in
  utxn.GetBestBlock more (env (utxn.this n))
  = (Ok (Demo.hash 52, 52), Demo.world 1 [] []) /\
  50 <> 0 /\ u32 52 <> 50 /\ is_u32 50 /\ u32 52 < 2 ^ 32 - 1 /\
  fetched (utxn.steps_since n
             (snd (utxn.reloadClasses Demo.lw Demo.btcd (Demo.cfg 1 6) more 2 50 n)))
  = [51; 52].
Proof.
  intros n more.
  assert (Hbest : utxn.GetBestBlock more (env (utxn.this n))
                  = (Ok (Demo.hash 52, 52), Demo.world 1 [] [])) by reflexivity.
  assert (H0 : 50 <> 0) by lia.
  assert (Hne : u32 52 <> 50) by (vm_compute; discriminate).
  assert (Hu : is_u32 50) by (unfold is_u32; lia).
  assert (Hmax : u32 52 < 2 ^ 32 - 1) by (vm_compute; reflexivity).
  repeat (split; [assumption |]).
  rewrite (reloadClasses_replays_in_order Demo.lw Demo.btcd (Demo.cfg 1 6) more 2 50 n
             _ _ _ Hbest H0 Hne Hu Hmax ltac:(vm_compute; lia)).
  vm_compute. reflexivity.
Defined.

(** The same replay, pruning depth 6: height 45 is purged, and
    45 <= 52 - 6. *)
Lemma reloadClasses_prunes_below_best_witness :
  let n := DemoRest.fresh (Demo.nursery (DemoRest.store_with_preschool 50 [])
                             (Demo.world 1 [] [])) in
  let more := DemoRest.more (Ok 52) (Ok []) in
  is_u32 (PruningDepth (Demo.cfg 1 6)) /\
  utxn.GetBestBlock more (env (utxn.this n))
  = (Ok (Demo.hash 52, 52), Demo.world 1 [] []) /\
  In (utxn.Did (EvPurgeHeight 45))
     (utxn.steps_since n
        (snd (utxn.reloadClasses Demo.lw Demo.btcd (Demo.cfg 1 6) more 2 50 n))) /\
  0 < 45 <= u32 52 - PruningDepth (Demo.cfg 1 6).
Proof.
  intros n more.
  assert (Hp : is_u32 (PruningDepth (Demo.cfg 1 6))) by (unfold is_u32; cbn; lia).
  assert (Hbest : utxn.GetBestBlock more (env (utxn.this n))
                  = (Ok (Demo.hash 52, 52), Demo.world 1 [] [])) by reflexivity.
  assert (Hin : In (utxn.Did (EvPurgeHeight 45))
                  (utxn.steps_since n
                     (snd (utxn.reloadClasses Demo.lw Demo.btcd (Demo.cfg 1 6)
                             more 2 50 n)))).
  { vm_compute. tauto. }
  repeat (split; [assumption |]).
  exact (reloadClasses_prunes_below_best Demo.lw Demo.btcd (Demo.cfg 1 6) more 2 50 n
           _ _ _ 45 Hp Hbest Hin).
Defined.

(** One kindergarten output maturing at height 244, and the block at
    that height heard of twice: the sweep is broadcast twice, and it is
    one transaction. *)
Lemma replay_and_block_loop_keep_one_sweep_witness :
  let n := DemoRest.fresh (Demo.nursery (Demo.store_with_kids 244 Demo.one_kid)
                             (Demo.world 1 [] [])) in
  let more := DemoRest.more (Ok 244) (Ok []) in
  let blocks := [utxn.Received (utxn.mkBlockEpoch 244);
                 utxn.Received (utxn.mkBlockEpoch 244)] in
  let n' := snd (utxn.incubator Demo.lw Demo.btcd (Demo.cfg 1 6) 0%nat blocks n) in
  Store (Demo.cfg 1 6) = SpecStore.ops /\
  reachable Demo.lw Demo.btcd (Demo.cfg 1 6) (utxn.this n) /\
  length (sweeps_of (trace (utxn.this n')) 244) = 2%nat /\
  forall tx tx',
    sweep_broadcast (trace (utxn.this n')) 244 tx ->
    sweep_broadcast (trace (utxn.this n')) 244 tx' -> tx = tx'.
Proof.
  intros n more blocks n'.
  assert (Hstore : Store (Demo.cfg 1 6) = SpecStore.ops) by reflexivity.
  assert (Hreach : reachable Demo.lw Demo.btcd (Demo.cfg 1 6) (utxn.this n)).
  { apply reach_start. intros h. cbn. split.
    - intros [t Ht]. rewrite lookup_empty in Ht. discriminate Ht.
    - intros Hin. apply elem_of_empty in Hin. contradiction. }
  split; [exact Hstore | split; [exact Hreach | split]].
  - vm_compute. reflexivity.
  - destruct (replay_and_block_loop_keep_one_sweep Demo.lw Demo.btcd (Demo.cfg 1 6)
                more Hstore n Hreach) as [_ Hloop].
    exact (proj2 (Hloop 0%nat blocks) 244).
Defined.

(** A first [Start] that fails in the replay, the store refusing the
    second transaction of [graduateClass] at height 51: the quit channel
    is closed. *)
Lemma Start_failure_closes_quit_witness :
  let s := SpecStore.with_faults [None; None; None; Some Demo.refused]
             (DemoRest.store_with_preschool 50 []) in
  let n := DemoRest.fresh (Demo.nursery s (Demo.world 1 [] [])) in
  let more := DemoRest.more (Ok 52) (Ok []) in
  let out := utxn.Start Demo.lw Demo.btcd (Demo.cfg 1 6) more 2 n in
  utxn.started n = 0 /\ utxn.quit n = false /\
  fst out = Err Demo.refused /\
  utxn.quit (snd out) = true /\
  exists before, utxn.steps_since n (snd out) = before ++ [utxn.StepCloseQuit].
Proof.
  intros s n more out.
  assert (Hs : utxn.started n = 0) by reflexivity.
  assert (Hq : utxn.quit n = false) by reflexivity.
  assert (Herr : fst out = Err Demo.refused) by (vm_compute; reflexivity).
  repeat (split; [assumption |]).
  destruct (Start_failure_closes_quit Demo.lw Demo.btcd (Demo.cfg 1 6) more 2 n Hs Hq)
    as [Hfail _].
  destruct (Hfail _ Herr) as [Hclosed _].
  apply Hclosed. vm_compute. tauto.
Defined.

(** The same failed [Start], then [Stop]: the panic. *)
Lemma Stop_after_Start_witness :
  let s := SpecStore.with_faults [None; None; None; Some Demo.refused]
             (DemoRest.store_with_preschool 50 []) in
  let n := DemoRest.fresh (Demo.nursery s (Demo.world 1 [] [])) in
  let more := DemoRest.more (Ok 52) (Ok []) in
  let out := utxn.Start Demo.lw Demo.btcd (Demo.cfg 1 6) more 2 n in
  utxn.started n = 0 /\ utxn.stopped n = 0 /\ utxn.quit n = false /\
  fst out = Err Demo.refused /\
  fst (utxn.Stop (snd out)) = Err closed_twice.
Proof.
  intros s n more out.
  assert (Hs : utxn.started n = 0) by reflexivity.
  assert (Hst : utxn.stopped n = 0) by reflexivity.
  assert (Hq : utxn.quit n = false) by reflexivity.
  assert (Herr : fst out = Err Demo.refused) by (vm_compute; reflexivity).
  repeat (split; [assumption |]).
  destruct (Stop_after_Start Demo.lw Demo.btcd (Demo.cfg 1 6) more 2 n Hs Hst Hq)
    as [Hfail _].
  apply (Hfail _ Herr). vm_compute. tauto.
Defined.

(** Three kindergarten outputs of two channels, the keys of the map
    visited as [possibleCloses] lists them: two channels are asked
    about, and the class is finalized. *)
Lemma graduation_closes_each_channel_once_witness :
  let k1 := Demo.kid 1 500000 0 144 100 in
  let k2 := SetConfHeight 100
              (makeKidOutput (Demo.op 2 0) (Demo.op 98 1) 144 0 (Demo.sd 300000)) in
  let k3 := Demo.kid 3 200000 0 144 100 in
  let kids := [k1; k2; k3] in
  let n := DemoRest.fresh (Demo.nursery (Demo.store_with_kids 244 kids)
                             (Demo.world 1 [] [])) in
  let more := DemoRest.more (Ok 244) (Ok []) in
  let out := utxn.waitForGraduation (Demo.cfg 1 6) more (fun l => l) 244 kids
               (utxn.Received (utxn.mkTxConfirmation 245)) n in
  (forall l : list OutPoint, Permutation l l) /\
  queried (utxn.steps_since n (snd out)) = [Demo.op 98 1; Demo.op 99 1] /\
  In (utxn.StepTryFinalizeClass 244) (utxn.steps_since n (snd out)) /\
  NoDup (queried (utxn.steps_since n (snd out))).
Proof.
  intros k1 k2 k3 kids n more out.
  assert (Hperm : forall l : list OutPoint, Permutation l l) by (intros l; reflexivity).
  split; [exact Hperm |].
  split; [vm_compute; reflexivity |].
  split; [vm_compute; tauto |].
  destruct (graduation_closes_each_channel_once (Demo.cfg 1 6) more (fun l => l)
              Hperm 244 kids (utxn.Received (utxn.mkTxConfirmation 245)) n)
    as (_ & _ & Hnd & _).
  exact Hnd.
Defined.
